(** * The DWARF CFA register-rule stack of plcrashreporter

    A shallow embedding of [Source/dwarf_cfa_stack.cpp]: the fixed pool of
    register entries threaded by an index-linked free list, the per-level
    bucket tables, the state stack, and the iterator; followed by the
    representation invariant of the structure and the properties of its
    public operations. *)

From stdpp Require Import base list.
From Stdlib Require Import ZArith Lia.

Local Open Scope Z_scope.
Local Open Scope nat_scope.

(** ** Configuration constants

    [dwarf_cfa_stack.hpp], which fixes the four constants, is not part of
    the sources at hand; the development is parametric in them. *)

Class dwarf_cfa_config := {
  DWARF_CFA_STACK_MAX_STATES : nat;
  DWARF_CFA_STACK_BUCKET_COUNT : nat;
  DWARF_CFA_STACK_INVALID_ENTRY_IDX : nat;
  DWARF_CFA_STACK_MAX_REGISTERS : nat;
}.

(** What the code needs of the constants: the static assertion [max_size]
    of the constructor, and that every index, depth and bucket number fits
    the [uint8_t] it is stored in. *)
Definition config_valid (cfg : dwarf_cfa_config) : Prop :=
  0 < DWARF_CFA_STACK_MAX_REGISTERS
  ∧ DWARF_CFA_STACK_MAX_REGISTERS < DWARF_CFA_STACK_INVALID_ENTRY_IDX
  ∧ DWARF_CFA_STACK_INVALID_ENTRY_IDX ≤ 255
  ∧ 0 < DWARF_CFA_STACK_BUCKET_COUNT ≤ 255
  ∧ 0 < DWARF_CFA_STACK_MAX_STATES ≤ 255.

(** ** Outcomes

    The loops of the source follow index links, so they are modelled with
    fuel; an array access outside its bounds and a failed [PLCF_ASSERT]
    are outcomes of their own. *)

Inductive outcome (A : Type) : Type :=
  | Ok (a : A)
  | OutOfFuel
  | OutOfBounds
  | AssertFailed.
Arguments Ok {A} a.
Arguments OutOfFuel {A}.
Arguments OutOfBounds {A}.
Arguments AssertFailed {A}.

#[global] Instance outcome_bind : MBind outcome := λ A B k m,
  match m with
  | Ok a => k a
  | OutOfFuel => OutOfFuel
  | OutOfBounds => OutOfBounds
  | AssertFailed => AssertFailed
  end.

Definition read {A} (l : list A) (i : nat) : outcome A :=
  match l !! i with
  | Some a => Ok a
  | None => OutOfBounds
  end.

Definition write {A} (l : list A) (i : nat) (a : A) : outcome (list A) :=
  if decide (i < length l) then Ok (<[i:=a]> l) else OutOfBounds.

(** ** Data *)

(** [dwarf_cfa_reg_entry_t]: payload, register number, rule tag and the
    index link used by both the free list and the bucket chains. *)
Record dwarf_cfa_reg_entry := {
  value : Z;    (* int64_t *)
  regnum : Z;   (* uint32_t *)
  rule : Z;     (* uint8_t *)
  next : nat;   (* uint8_t *)
}.

Record dwarf_cfa_stack := {
  _table_depth : nat;                      (* uint8_t *)
  _free_list : nat;                        (* uint8_t *)
  _register_count : list Z;                (* uint8_t [MAX_STATES] *)
  _table_stack : list (list nat);          (* uint8_t [MAX_STATES][BUCKET_COUNT] *)
  _entries : list dwarf_cfa_reg_entry;     (* [MAX_REGISTERS] *)
}.

Record dwarf_cfa_stack_iterator := {
  _bucket_idx : nat;
  _cur_entry_idx : nat;
}.

Definition with_next (e : dwarf_cfa_reg_entry) (n : nat) : dwarf_cfa_reg_entry :=
  {| value := value e; regnum := regnum e; rule := rule e; next := n |}.

Definition with_table_depth (s : dwarf_cfa_stack) (d : nat) : dwarf_cfa_stack :=
  {| _table_depth := d; _free_list := _free_list s;
     _register_count := _register_count s; _table_stack := _table_stack s;
     _entries := _entries s |}.

Definition with_entries (s : dwarf_cfa_stack) (es : list dwarf_cfa_reg_entry) : dwarf_cfa_stack :=
  {| _table_depth := _table_depth s; _free_list := _free_list s;
     _register_count := _register_count s; _table_stack := _table_stack s;
     _entries := es |}.

(** Arithmetic on a [uint8_t]. *)
Definition uint8 (z : Z) : Z := (z mod 256)%Z.

Abbreviation INVALID := DWARF_CFA_STACK_INVALID_ENTRY_IDX.

Section Operations.
Context {cfg : dwarf_cfa_config}.

(** [plcrash_async_memset] over one row of the table stack: every byte of
    the row becomes the fill value, converted to [unsigned char]. *)
Definition plcrash_async_memset (row : list nat) (c : nat) : list nat :=
  replicate (length row) (c mod 256).

(** [_table_stack[depth][bucket]], read and written. *)
Definition table_read (t : list (list nat)) (d b : nat) : outcome nat :=
  row ← read t d; read row b.

Definition table_write (t : list (list nat)) (d b v : nat) : outcome (list (list nat)) :=
  row ← read t d; row' ← write row b v; write t d row'.

(** [regnum % (sizeof(_table_stack[0]) / sizeof(_table_stack[0][0]))] *)
Definition bucket_of (r : Z) : nat :=
  Z.to_nat (r mod Z.of_nat DWARF_CFA_STACK_BUCKET_COUNT)%Z.

(** *** push_state, pop_state *)

Definition push_state (s : dwarf_cfa_stack) : outcome (bool * dwarf_cfa_stack) :=
  if decide (_table_depth s + 1 ≤ DWARF_CFA_STACK_MAX_STATES) then
    if decide (_table_depth s + 1 = DWARF_CFA_STACK_MAX_STATES) then Ok (false, s)
    else
      let d := _table_depth s + 1 in
      cnt ← write (_register_count s) d 0%Z;
      row ← read (_table_stack s) d;
      tbl ← write (_table_stack s) d (plcrash_async_memset row INVALID);
      Ok (true, {| _table_depth := d; _free_list := _free_list s;
                   _register_count := cnt; _table_stack := tbl;
                   _entries := _entries s |})
  else AssertFailed.

Definition pop_state (s : dwarf_cfa_stack) : outcome (bool * dwarf_cfa_stack) :=
  if decide (_table_depth s = 0) then Ok (false, s)
  else Ok (true, with_table_depth s (_table_depth s - 1)).

(** *** The constructor

    The constructor is run over the storage [mem] of the object, whose
    fields hold whatever the storage held: it writes every [next] link, the
    free-list head, the depth, and the count and bucket row of level 0, and
    nothing else. *)

(** [for (uint8_t i = 0; i < MAX_REGISTERS; i++) _entries[i].next = i+1;]
    with [n] the iterations left. *)
Fixpoint init_free_list (n i : nat) (es : list dwarf_cfa_reg_entry)
  : outcome (list dwarf_cfa_reg_entry) :=
  match n with
  | 0 => Ok es
  | S n' =>
      e ← read es i;
      es' ← write es i (with_next e ((i + 1) mod 256));
      init_free_list n' (i + 1) es'
  end.

Definition dwarf_cfa_stack_new (mem : dwarf_cfa_stack) : outcome dwarf_cfa_stack :=
  es ← init_free_list DWARF_CFA_STACK_MAX_REGISTERS 0 (_entries mem);
  last ← read es (DWARF_CFA_STACK_MAX_REGISTERS - 1);
  es ← write es (DWARF_CFA_STACK_MAX_REGISTERS - 1) (with_next last INVALID);
  cnt ← write (_register_count mem) 0 0%Z;
  row ← read (_table_stack mem) 0;
  tbl ← write (_table_stack mem) 0 (plcrash_async_memset row INVALID);
  Ok {| _table_depth := 0; _free_list := 0; _register_count := cnt;
        _table_stack := tbl; _entries := es |}.

(** *** set_register *)

(** How the search loop of [set_register] ends: at an entry holding the
    register, or with [parent] the last entry of the chain ([None] for
    [NULL], the bucket being empty). *)
Inductive set_search :=
  | Existing (parent_idx : nat)
  | Chain_end (parent : option nat).

Fixpoint set_register_search (fuel : nat) (es : list dwarf_cfa_reg_entry)
    (r : Z) (parent : option nat) (parent_idx : nat) : outcome set_search :=
  match fuel with
  | 0 => OutOfFuel
  | S fuel' =>
      if decide (parent_idx = INVALID) then Ok (Chain_end parent)
      else
        p ← read es parent_idx;
        if decide (regnum p = r) then Ok (Existing parent_idx)
        else if decide (next p = INVALID) then Ok (Chain_end (Some parent_idx))
        else set_register_search fuel' es r (Some parent_idx) (next p)
  end.

Definition set_register (fuel : nat) (s : dwarf_cfa_stack) (r rl v : Z)
  : outcome (bool * dwarf_cfa_stack) :=
  if decide (rl ≤ 255)%Z then
    let bucket := bucket_of r in
    head ← table_read (_table_stack s) (_table_depth s) bucket;
    found ← set_register_search fuel (_entries s) r None head;
    match found with
    | Existing parent_idx =>
        p ← read (_entries s) parent_idx;
        es ← write (_entries s) parent_idx
               {| value := v; regnum := regnum p; rule := uint8 rl; next := next p |};
        Ok (true, with_entries s es)
    | Chain_end parent =>
        if decide (_free_list s = INVALID) then Ok (false, s)
        else
          let entry_idx := _free_list s in
          entry ← read (_entries s) entry_idx;
          let free' := next entry in
          es ← write (_entries s) entry_idx
                 {| value := v; regnum := r; rule := uint8 rl; next := INVALID |};
          '(tbl, es) ←
             match parent with
             | None =>
                 tbl ← table_write (_table_stack s) (_table_depth s) bucket entry_idx;
                 Ok (tbl, es)
             | Some parent_idx =>
                 p ← read es parent_idx;
                 es ← write es parent_idx (with_next p entry_idx);
                 Ok (_table_stack s, es)
             end;
          c ← read (_register_count s) (_table_depth s);
          cnt ← write (_register_count s) (_table_depth s) (uint8 (c + 1));
          Ok (true, {| _table_depth := _table_depth s; _free_list := free';
                       _register_count := cnt; _table_stack := tbl;
                       _entries := es |})
    end
  else AssertFailed.

(** *** get_register_rule *)

Fixpoint get_register_rule_search (fuel : nat) (es : list dwarf_cfa_reg_entry)
    (r : Z) (entry_idx : nat) : outcome (option (Z * Z)) :=
  match fuel with
  | 0 => OutOfFuel
  | S fuel' =>
      if decide (entry_idx = INVALID) then Ok None
      else
        entry ← read es entry_idx;
        if decide (regnum entry ≠ r) then
          if decide (next entry = INVALID) then Ok None
          else get_register_rule_search fuel' es r (next entry)
        else Ok (Some (rule entry, value entry))
  end.

(** [Some (rule, value)] stands for [true] with the two outputs written,
    [None] for [false]. *)
Definition get_register_rule (fuel : nat) (s : dwarf_cfa_stack) (r : Z)
  : outcome (option (Z * Z)) :=
  head ← table_read (_table_stack s) (_table_depth s) (bucket_of r);
  get_register_rule_search fuel (_entries s) r head.

(** *** remove_register *)

(** The loop of [remove_register]; [entry] is the pointer of the same name
    ([None] for [NULL]), [prev] is assigned from it at the top of the body.
    After a removal the loop goes on, through its step
    [entry_idx = entry->next]. *)
Fixpoint remove_register_loop (fuel : nat) (s : dwarf_cfa_stack) (r : Z)
    (bucket : nat) (entry : option nat) (entry_idx : nat) : outcome dwarf_cfa_stack :=
  match fuel with
  | 0 => OutOfFuel
  | S fuel' =>
      if decide (entry_idx = INVALID) then Ok s
      else
        let prev := entry in
        e ← read (_entries s) entry_idx;
        if decide (regnum e ≠ r) then
          remove_register_loop fuel' s r bucket (Some entry_idx) (next e)
        else
          '(tbl, es) ←
             match prev with
             | Some prev_idx =>
                 p ← read (_entries s) prev_idx;
                 es ← write (_entries s) prev_idx (with_next p (next e));
                 Ok (_table_stack s, es)
             | None =>
                 tbl ← table_write (_table_stack s) (_table_depth s) bucket (next e);
                 Ok (tbl, _entries s)
             end;
          e' ← read es entry_idx;
          es ← write es entry_idx (with_next e' (_free_list s));
          c ← read (_register_count s) (_table_depth s);
          cnt ← write (_register_count s) (_table_depth s) (uint8 (c - 1));
          e'' ← read es entry_idx;
          remove_register_loop fuel'
            {| _table_depth := _table_depth s; _free_list := entry_idx;
               _register_count := cnt; _table_stack := tbl; _entries := es |}
            r bucket (Some entry_idx) (next e'')
  end.

Definition remove_register (fuel : nat) (s : dwarf_cfa_stack) (r : Z)
  : outcome dwarf_cfa_stack :=
  let bucket := bucket_of r in
  head ← table_read (_table_stack s) (_table_depth s) bucket;
  remove_register_loop fuel s r bucket None head.

(** *** get_register_count *)

Definition get_register_count (s : dwarf_cfa_stack) : outcome Z :=
  read (_register_count s) (_table_depth s).

(** *** The iterator *)

Definition dwarf_cfa_stack_iterator_new : dwarf_cfa_stack_iterator :=
  {| _bucket_idx := 0; _cur_entry_idx := INVALID |}.

(** [for (; _bucket_idx < BUCKET_COUNT; _bucket_idx++)] looking for a
    bucket that is not empty; [n] bounds the iterations left. *)
Fixpoint next_bucket (n : nat) (row : list nat) (bucket_idx : nat)
  : outcome dwarf_cfa_stack_iterator :=
  match n with
  | 0 => Ok {| _bucket_idx := bucket_idx; _cur_entry_idx := INVALID |}
  | S n' =>
      if decide (bucket_idx < DWARF_CFA_STACK_BUCKET_COUNT) then
        h ← read row bucket_idx;
        if decide (h ≠ INVALID)
        then Ok {| _bucket_idx := bucket_idx; _cur_entry_idx := h |}
        else next_bucket n' row (bucket_idx + 1)
      else Ok {| _bucket_idx := bucket_idx; _cur_entry_idx := INVALID |}
  end.

(** [next]: [Some (regnum, rule, value)] for [true], [None] for [false],
    together with the iterator after the call. *)
Definition iterator_next (s : dwarf_cfa_stack) (it : dwarf_cfa_stack_iterator)
  : outcome (option (Z * Z * Z) * dwarf_cfa_stack_iterator) :=
  it ←
    (if decide (_cur_entry_idx it ≠ INVALID) then
       e ← read (_entries s) (_cur_entry_idx it);
       if decide (next e = INVALID)
       then Ok {| _bucket_idx := _bucket_idx it + 1; _cur_entry_idx := next e |}
       else Ok {| _bucket_idx := _bucket_idx it; _cur_entry_idx := next e |}
     else Ok it);
  it ←
    (if decide (_cur_entry_idx it = INVALID) then
       row ← read (_table_stack s) (_table_depth s);
       next_bucket (DWARF_CFA_STACK_BUCKET_COUNT - _bucket_idx it) row (_bucket_idx it)
     else Ok it);
  if decide (_cur_entry_idx it = INVALID) then Ok (None, it)
  else
    entry ← read (_entries s) (_cur_entry_idx it);
    Ok (Some (regnum entry, rule entry, value entry), it).

End Operations.

(** ** The representation invariant

    The invariant is stated with two ghost values: [F], the entry indices
    on the free list in list order, and [T level bucket], the entry indices
    of the chain of that bucket at that level, in chain order. Only the
    levels [0 .. _table_depth] are described. *)

#[global] Instance dwarf_cfa_reg_entry_inhabited : Inhabited dwarf_cfa_reg_entry :=
  populate {| value := 0%Z; regnum := 0%Z; rule := 0%Z; next := 0 |}.

Section Invariant.
Context {cfg : dwarf_cfa_config}.

(** [seg es head l tail]: following [next] from [head] visits exactly the
    indices [l], in that order, and arrives at [tail]. *)
Fixpoint seg (es : list dwarf_cfa_reg_entry) (head : nat) (l : list nat) (tail : nat) : Prop :=
  match l with
  | [] => head = tail
  | i :: l' =>
      head = i ∧ i ≠ INVALID ∧ ∃ e, es !! i = Some e ∧ seg es (next e) l' tail
  end.

(** A chain is a segment that ends at the invalid index. *)
Definition chain (es : list dwarf_cfa_reg_entry) (head : nat) (l : list nat) : Prop :=
  seg es head l INVALID.

Definition level_idx (Tl : nat → list nat) : list nat :=
  flat_map Tl (seq 0 DWARF_CFA_STACK_BUCKET_COUNT).

(** The indices chained at the levels below [d]. *)
Definition below (T : nat → nat → list nat) (d : nat) : list nat :=
  flat_map (λ l, level_idx (T l)) (seq 0 d).

(** The indices chained at the live levels [0 .. d]. *)
Definition owned (T : nat → nat → list nat) (d : nat) : list nat :=
  below T d ++ level_idx (T d).

(** The ghost table with the chain of bucket [b] at level [d] replaced. *)
Definition tupd (T : nat → nat → list nat) (d b : nat) (c : list nat)
  : nat → nat → list nat :=
  λ l b', if decide (l = d ∧ b' = b) then c else T l b'.

(** The ghost table with every chain of level [d] emptied. *)
Definition tclear (T : nat → nat → list nat) (d : nat) : nat → nat → list nat :=
  λ l b, if decide (l = d) then [] else T l b.

(** What an index field may hold: the invalid index, or the index of an
    entry. *)
Definition safe_index (i : nat) : Prop :=
  i = INVALID ∨ i < DWARF_CFA_STACK_MAX_REGISTERS.

(** The chain of bucket [b]: linked from the head [h], made of entries
    whose register number hashes to [b], no register number twice. *)
Definition bucket_ok (es : list dwarf_cfa_reg_entry) (b h : nat) (c : list nat) : Prop :=
  chain es h c
  ∧ (∀ i e, i ∈ c → es !! i = Some e → bucket_of (regnum e) = b)
  ∧ (∀ i j e1 e2, i ∈ c → j ∈ c → es !! i = Some e1 → es !! j = Some e2 →
       regnum e1 = regnum e2 → i = j).

Definition level_ok (s : dwarf_cfa_stack) (l : nat) (Tl : nat → list nat) : Prop :=
  ∃ row, _table_stack s !! l = Some row
    ∧ _register_count s !! l = Some (Z.of_nat (length (level_idx Tl)))
    ∧ ∀ b, b < DWARF_CFA_STACK_BUCKET_COUNT →
        ∃ h, row !! b = Some h ∧ bucket_ok (_entries s) b h (Tl b).

(** The arrays have the sizes their declarations give them. *)
Definition storage (s : dwarf_cfa_stack) : Prop :=
  length (_entries s) = DWARF_CFA_STACK_MAX_REGISTERS
  ∧ length (_register_count s) = DWARF_CFA_STACK_MAX_STATES
  ∧ length (_table_stack s) = DWARF_CFA_STACK_MAX_STATES
  ∧ Forall (λ row, length row = DWARF_CFA_STACK_BUCKET_COUNT) (_table_stack s).

Record Rep (s : dwarf_cfa_stack) (F : list nat) (T : nat → nat → list nat) : Prop := {
  rep_storage : storage s;
  rep_depth : _table_depth s < DWARF_CFA_STACK_MAX_STATES;
  rep_free : chain (_entries s) (_free_list s) F;
  rep_nodup : NoDup (F ++ owned T (_table_depth s));
  rep_level : ∀ l, l ≤ _table_depth s → level_ok s l (T l);
  rep_links : ∀ i e, _entries s !! i = Some e → safe_index (next e);
}.

(** ** Runs of the public operations *)

Inductive operation :=
  | Push_state
  | Pop_state
  | Set_register (r rl v : Z)
  | Remove_register (r : Z).

Definition perform (fuel : nat) (o : operation) (s : dwarf_cfa_stack)
  : outcome (bool * dwarf_cfa_stack) :=
  match o with
  | Push_state => push_state s
  | Pop_state => pop_state s
  | Set_register r rl v => set_register fuel s r rl v
  | Remove_register r => s' ← remove_register fuel s r; Ok (true, s')
  end.

(** The states in which a caller can find the structure: the constructor
    has returned, and so has every operation called since. *)
Inductive reachable : dwarf_cfa_stack → Prop :=
  | reachable_new mem s :
      storage mem → dwarf_cfa_stack_new mem = Ok s → reachable s
  | reachable_step s fuel o b s' :
      reachable s → perform fuel o s = Ok (b, s') → reachable s'.

(** The states reached without a successful [pop_state]. *)
Inductive never_popped : dwarf_cfa_stack → Prop :=
  | never_popped_new mem s :
      storage mem → dwarf_cfa_stack_new mem = Ok s → never_popped s
  | never_popped_step s fuel o b s' :
      never_popped s → perform fuel o s = Ok (b, s') →
      (o = Pop_state → b = false) → never_popped s'.

(** Level [l] is the same in [s'] as in [s]: its row, its count, its
    chains and every entry chained in it. *)
Definition untouched (s s' : dwarf_cfa_stack) (T T' : nat → nat → list nat) (l : nat) : Prop :=
  (∀ b, b < DWARF_CFA_STACK_BUCKET_COUNT → T' l b = T l b)
  ∧ _table_stack s' !! l = _table_stack s !! l
  ∧ _register_count s' !! l = _register_count s !! l
  ∧ ∀ b j, b < DWARF_CFA_STACK_BUCKET_COUNT → j ∈ T l b →
      _entries s' !! j = _entries s !! j.

(** [reg_at es j r]: entry [j] exists and carries register number [r],
    be it live or a stale record on the free list. *)
Definition reg_at (es : list dwarf_cfa_reg_entry) (j : nat) (r : Z) : Prop :=
  ∃ e, es !! j = Some e ∧ regnum e = r.

(** The rule triple [(regnum, rule, value)] held by entry [i]. *)
Definition triple_at (es : list dwarf_cfa_reg_entry) (i : nat) : Z * Z * Z :=
  let e := es !!! i in (regnum e, rule e, value e).

(** The indices met by following [next] from [head], computed. *)
Fixpoint walk (fuel : nat) (es : list dwarf_cfa_reg_entry) (head : nat)
  : option (list nat) :=
  match fuel with
  | 0 => None
  | S fuel' =>
      if decide (head = INVALID) then Some []
      else e ← es !! head; l ← walk fuel' es (next e); Some (head :: l)
  end.

(** [n] calls of [next] on an iterator, no mutation in between: the
    results of the calls, and the iterator after the last. *)
Fixpoint iterate (n : nat) (s : dwarf_cfa_stack) (it : dwarf_cfa_stack_iterator)
  : outcome (list (option (Z * Z * Z)) * dwarf_cfa_stack_iterator) :=
  match n with
  | 0 => Ok ([], it)
  | S n' =>
      '(x, it) ← iterator_next s it;
      '(xs, it) ← iterate n' s it;
      Ok (x :: xs, it)
  end.

(** Where an iterator stands in the ghost chains [Tl] of the current
    level, and the indices [rem] it has yet to yield: between buckets, or
    on an entry of a chain. *)
Definition iter_at (Tl : nat → list nat) (it : dwarf_cfa_stack_iterator)
    (rem : list nat) : Prop :=
  (_cur_entry_idx it = INVALID
   ∧ _bucket_idx it ≤ DWARF_CFA_STACK_BUCKET_COUNT
   ∧ rem = flat_map Tl (seq (_bucket_idx it)
                          (DWARF_CFA_STACK_BUCKET_COUNT - _bucket_idx it)))
  ∨ (∃ c1 c2,
       _bucket_idx it < DWARF_CFA_STACK_BUCKET_COUNT
       ∧ Tl (_bucket_idx it) = c1 ++ _cur_entry_idx it :: c2
       ∧ rem = c2 ++ flat_map Tl (seq (S (_bucket_idx it))
                                    (DWARF_CFA_STACK_BUCKET_COUNT - S (_bucket_idx it)))).

(** The sum of [get_register_count] over the live levels. *)
Definition live_count (s : dwarf_cfa_stack) : Z :=
  foldr Z.add 0%Z ((λ l, default 0%Z (_register_count s !! l)) <$> seq 0 (S (_table_depth s))).

(** ** The rule table as the specification describes it

    Section 4.2 of the specification, as a second model to compare the
    code with: per level, one list of rules [(regnum, rule, value)] per
    bucket, in insertion order. *)

Definition spec_table : Type := nat → list (Z * Z * Z).

Definition spec_empty : spec_table := λ _, [].

Definition spec_regnum (x : Z * Z * Z) : Z := x.1.1.

(** Lookup: the rule and value stored for [r], if any. *)
Fixpoint spec_find (r : Z) (l : list (Z * Z * Z)) : option (Z * Z) :=
  match l with
  | [] => None
  | x :: l' => if decide (spec_regnum x = r) then Some (x.1.2, x.2) else spec_find r l'
  end.

Definition spec_get (t : spec_table) (r : Z) : option (Z * Z) :=
  spec_find r (t (bucket_of r)).

(** Setting [r]: overwritten in place when present, appended at the tail
    of its bucket otherwise; the rule is kept in its storage width. *)
Definition spec_set (t : spec_table) (r rl v : Z) : spec_table :=
  λ b,
    if decide (b = bucket_of r) then
      if decide (r ∈ spec_regnum <$> t b)
      then (λ x, if decide (spec_regnum x = r) then (r, uint8 rl, v) else x) <$> t b
      else t b ++ [(r, uint8 rl, v)]
    else t b.

Definition spec_remove (t : spec_table) (r : Z) : spec_table :=
  λ b, if decide (b = bucket_of r) then filter (λ x, spec_regnum x ≠ r) (t b) else t b.

(** Enumeration: bucket index ascending, insertion order within a bucket. *)
Definition spec_enumerate (t : spec_table) : list (Z * Z * Z) :=
  flat_map t (seq 0 DWARF_CFA_STACK_BUCKET_COUNT).

(** The stack of tables, the current level first. The result [ok] of the
    call is the one the code returned. *)
Definition spec_perform (o : operation) (ok : bool) (A : list spec_table)
  : list spec_table :=
  match o, A with
  | Push_state, _ => if ok then spec_empty :: A else A
  | Pop_state, _ :: A' => if ok then A' else A
  | Set_register r rl v, t :: A' => if ok then spec_set t r rl v :: A' else A
  | Remove_register r, t :: A' => spec_remove t r :: A'
  | _, [] => []
  end.

(** A run of the code together with the same run of the specification's
    model. *)
Inductive traced : dwarf_cfa_stack → list spec_table → Prop :=
  | traced_new mem s :
      storage mem → dwarf_cfa_stack_new mem = Ok s → traced s [spec_empty]
  | traced_step s A fuel o b s' :
      traced s A → perform fuel o s = Ok (b, s') →
      traced s' (spec_perform o b A).

(** The rules chained at one level, bucket by bucket. *)
Definition view (es : list dwarf_cfa_reg_entry) (Tl : nat → list nat) : spec_table :=
  λ b, triple_at es <$> Tl b.

(** The code state [s], with ghost table [T], holds the tables [A]. *)
Definition represents (s : dwarf_cfa_stack) (T : nat → nat → list nat)
    (A : list spec_table) : Prop :=
  length A = S (_table_depth s)
  ∧ ∀ l t b, l ≤ _table_depth s → b < DWARF_CFA_STACK_BUCKET_COUNT →
      A !! (_table_depth s - l) = Some t → t b = view (_entries s) (T l) b.

(** Runs that never come down to depth [d]: [above d s1 s2] when [s2] is
    reached from [s1] by public operations, every state on the way being
    deeper than [d]. *)
Inductive above (d : nat) : dwarf_cfa_stack → dwarf_cfa_stack → Prop :=
  | above_refl s : d < _table_depth s → above d s s
  | above_step s1 s2 fuel o ok s3 :
      above d s1 s2 → perform fuel o s2 = Ok (ok, s3) → d < _table_depth s3 →
      above d s1 s3.

(** Entry [i] is met when the free list is followed. *)
Definition on_free_list (s : dwarf_cfa_stack) (i : nat) : Prop :=
  ∃ F, chain (_entries s) (_free_list s) F ∧ i ∈ F.

(** Entry [i] is met when the chain of bucket [b] of level [l] is
    followed. *)
Definition in_bucket (s : dwarf_cfa_stack) (l b i : nat) : Prop :=
  ∃ row h c, _table_stack s !! l = Some row ∧ row !! b = Some h
             ∧ chain (_entries s) h c ∧ i ∈ c.

(** The partition of the pool: every entry is on the free list and in no
    bucket, or in exactly one bucket of one live level and not free. *)
Definition pool_partition (s : dwarf_cfa_stack) : Prop :=
  ∀ i, i < DWARF_CFA_STACK_MAX_REGISTERS →
    (on_free_list s i ∧ ∀ l b, l ≤ _table_depth s → ¬ in_bucket s l b i)
    ∨ (¬ on_free_list s i
       ∧ ∃ l b, l ≤ _table_depth s ∧ in_bucket s l b i
           ∧ ∀ l' b', l' ≤ _table_depth s → in_bucket s l' b' i → l' = l ∧ b' = b).

(** ** Concrete runs *)

(** A storage for the object: every entry field and register count zero,
    every bucket slot the invalid index. *)
Definition blank_storage : dwarf_cfa_stack :=
  {| _table_depth := 0; _free_list := 0;
     _register_count := replicate DWARF_CFA_STACK_MAX_STATES 0%Z;
     _table_stack :=
       replicate DWARF_CFA_STACK_MAX_STATES
         (replicate DWARF_CFA_STACK_BUCKET_COUNT INVALID);
     _entries :=
       replicate DWARF_CFA_STACK_MAX_REGISTERS
         {| value := 0%Z; regnum := 0%Z; rule := 0%Z; next := 0 |} |}.

(** The operations [ops] called in turn, each with [fuel]. *)
Fixpoint run (fuel : nat) (ops : list operation) (s : dwarf_cfa_stack)
  : outcome dwarf_cfa_stack :=
  match ops with
  | [] => Ok s
  | o :: ops' => '(_, s') ← perform fuel o s; run fuel ops' s'
  end.

(** The operations [ops] called in turn, with what each returned. *)
Fixpoint run_results (fuel : nat) (ops : list operation) (s : dwarf_cfa_stack)
  : outcome (list bool * dwarf_cfa_stack) :=
  match ops with
  | [] => Ok ([], s)
  | o :: ops' =>
      '(b, s') ← perform fuel o s;
      '(bs, s'') ← run_results fuel ops' s';
      Ok (b :: bs, s'')
  end.

(** The call [set_register(regnum, rule, value)] for a rule triple. *)
Definition set_op (x : Z * Z * Z) : operation := Set_register x.1.1 x.1.2 x.2.

(** The object constructed over [blank_storage], then [ops]. *)
Definition scenario (ops : list operation) : outcome dwarf_cfa_stack :=
  s ← dwarf_cfa_stack_new blank_storage;
  run (S DWARF_CFA_STACK_MAX_REGISTERS) ops s.

Definition state_of (o : outcome dwarf_cfa_stack) : dwarf_cfa_stack :=
  match o with Ok s => s | _ => blank_storage end.

End Invariant.

(** A configuration to run the code with: one hundred entries, fourteen
    buckets, six levels, and the largest [uint8_t] as the invalid index. *)
Definition plcrash_config : dwarf_cfa_config :=
  {| DWARF_CFA_STACK_MAX_STATES := 6;
     DWARF_CFA_STACK_BUCKET_COUNT := 14;
     DWARF_CFA_STACK_INVALID_ENTRY_IDX := 255;
     DWARF_CFA_STACK_MAX_REGISTERS := 100 |}.

Section Concrete.
#[local] Existing Instance plcrash_config.

(** Register 1 set at level 1, the level popped and pushed again: the
    entry that held the register is left behind. *)
Definition s_leak : dwarf_cfa_stack :=
  state_of (scenario
              [Push_state; Set_register 1 1 0; Pop_state; Push_state]).

(** Registers 1 and 2 set and removed: both entries are back on the free
    list, the record of register 1 behind the head. *)
Definition s_recycled : dwarf_cfa_stack :=
  state_of (scenario
              [Set_register 1 1 0; Set_register 2 1 0;
               Remove_register 1; Remove_register 2]).

(** The same, and register 1 set again. *)
Definition s_stale : dwarf_cfa_stack :=
  state_of (scenario
              [Set_register 1 1 0; Set_register 2 1 0;
               Remove_register 1; Remove_register 2; Set_register 1 1 0]).

(** The object as constructed. *)
Definition s_zero : dwarf_cfa_stack := state_of (scenario []).

Definition s_one : dwarf_cfa_stack :=
  state_of (scenario [Set_register 1 1 (-8)]).

(** Registers 1 and 2 set at level 0. *)
Definition s_two : dwarf_cfa_stack :=
  state_of (scenario [Set_register 1 1 (-8); Set_register 2 2 0]).

(** Register 15 set as well; registers 1 and 15 share bucket 1. *)
Definition s_three : dwarf_cfa_stack :=
  state_of (scenario [Set_register 1 1 (-8); Set_register 2 2 0; Set_register 15 3 4]).

(** The specification's tables after the run that gives [s_three]. *)
Definition spec_three : list spec_table :=
  spec_perform (Set_register 15 3 4) true
    (spec_perform (Set_register 2 2 0) true
       (spec_perform (Set_register 1 1 (-8)) true [spec_empty])).

(** From [s_two]: a state pushed, register 1 overridden at level 1, and
    the state popped. *)
Definition s_pushed : dwarf_cfa_stack :=
  state_of (scenario [Set_register 1 1 (-8); Set_register 2 2 0; Push_state]).

Definition s_inner : dwarf_cfa_stack :=
  state_of (scenario [Set_register 1 1 (-8); Set_register 2 2 0; Push_state;
                      Set_register 1 3 3]).

Definition s_restored : dwarf_cfa_stack :=
  state_of (scenario [Set_register 1 1 (-8); Set_register 2 2 0; Push_state;
                      Set_register 1 3 3; Pop_state]).

(** A storage that held other data: every field some leftover value. *)
Definition dirty_storage : dwarf_cfa_stack :=
  {| _table_depth := 3; _free_list := 9;
     _register_count := replicate DWARF_CFA_STACK_MAX_STATES 5%Z;
     _table_stack :=
       replicate DWARF_CFA_STACK_MAX_STATES
         (replicate DWARF_CFA_STACK_BUCKET_COUNT 3);
     _entries :=
       replicate DWARF_CFA_STACK_MAX_REGISTERS
         {| value := 1%Z; regnum := 7%Z; rule := 2%Z; next := 4 |} |}.

(** The object as constructed over [dirty_storage]. *)
Definition s_dirty : dwarf_cfa_stack := state_of (dwarf_cfa_stack_new dirty_storage).

(** Some calls, a removal among them. *)
Definition ops_mixed : list operation :=
  [Set_register 1 1 (-8); Push_state; Set_register 2 2 0; Set_register 16 1 1;
   Pop_state; Remove_register 1; Pop_state; Set_register 15 3 4].

Definition results_of (o : outcome (list bool * dwarf_cfa_stack))
  : list bool * dwarf_cfa_stack :=
  match o with Ok x => x | _ => ([], blank_storage) end.

(** One hundred rules, for the registers 0 to 99. *)
Definition rules_hundred : list (Z * Z * Z) :=
  (λ i, (Z.of_nat i, 1, Z.of_nat i)%Z) <$> seq 0 100.

Definition s_hundred : dwarf_cfa_stack :=
  (results_of (run_results 101 (set_op <$> rules_hundred) s_zero)).2.

(** The calls [ops_mixed] on the objects constructed over the two
    storages. *)
Definition r_blank : list bool * dwarf_cfa_stack :=
  results_of (run_results 101 ops_mixed s_zero).

Definition r_dirty : list bool * dwarf_cfa_stack :=
  results_of (run_results 101 ops_mixed s_dirty).

(** A storage whose bucket rows hold the number 200, which is neither
    the invalid index nor the index of an entry. *)
Definition stray_storage : dwarf_cfa_stack :=
  {| _table_depth := 0; _free_list := 0;
     _register_count := replicate DWARF_CFA_STACK_MAX_STATES 0%Z;
     _table_stack :=
       replicate DWARF_CFA_STACK_MAX_STATES
         (replicate DWARF_CFA_STACK_BUCKET_COUNT 200);
     _entries :=
       replicate DWARF_CFA_STACK_MAX_REGISTERS
         {| value := 0%Z; regnum := 0%Z; rule := 0%Z; next := 0 |} |}.

(** The object constructed over [stray_storage], and one state pushed. *)
Definition s_stray : dwarf_cfa_stack :=
  state_of (s ← dwarf_cfa_stack_new stray_storage; run 101 [Push_state] s).

End Concrete.

(** * Properties *)

Section Proofs.
Context {cfg : dwarf_cfa_config}.
Hypothesis Hcfg : config_valid cfg.

(** ** Outcomes and array accesses *)

Lemma read_Ok {A} (l : list A) i a : read l i = Ok a ↔ l !! i = Some a.
Proof. unfold read. destruct (l !! i); split; congruence. Qed.

Lemma read_lookup {A} (l : list A) i a : l !! i = Some a → read l i = Ok a.
Proof. apply read_Ok. Qed.

Lemma write_lt {A} (l : list A) i a : i < length l → write l i a = Ok (<[i:=a]> l).
Proof. intros. unfold write. by rewrite decide_True. Qed.

Lemma write_lookup {A} (l : list A) i a b :
  l !! i = Some b → write l i a = Ok (<[i:=a]> l).
Proof. intros H. apply write_lt. by eapply lookup_lt_Some. Qed.

Lemma bind_Ok {A B} (m : outcome A) (k : A → outcome B) y :
  (m ≫= k) = Ok y ↔ ∃ a, m = Ok a ∧ k a = Ok y.
Proof.
  destruct m; simpl;
    (split; [intros H; try discriminate; eauto
            | intros (a' & Ha & Hk); try discriminate; by simplify_eq]).
Qed.

Lemma invalid_not_index i : i < DWARF_CFA_STACK_MAX_REGISTERS → i ≠ INVALID.
Proof. destruct Hcfg as (_ & ? & _). lia. Qed.

Lemma invalid_uint8 : INVALID mod 256 = INVALID.
Proof. destruct Hcfg as (_ & _ & ? & _). apply Nat.mod_small. lia. Qed.

(** ** Chains of index links *)

Lemma elem_of_flat_map {A B} (f : A → list B) (l : list A) (x : B) :
  x ∈ flat_map f l ↔ ∃ y, y ∈ l ∧ x ∈ f y.
Proof.
  rewrite list_elem_of_In, in_flat_map.
  split; intros (y & ? & ?); exists y; by rewrite ?list_elem_of_In in *.
Qed.

Lemma seg_app es h l1 l2 t :
  seg es h (l1 ++ l2) t ↔ ∃ m, seg es h l1 m ∧ seg es m l2 t.
Proof.
  revert h. induction l1 as [|i l1 IH]; intros h; simpl.
  - split; [eauto|]. by intros (m & -> & ?).
  - split.
    + intros (-> & Hne & e & He & (m & ? & ?)%IH). exists m. eauto 10.
    + intros (m & (-> & Hne & e & He & ?) & ?). split_and!; [done..|].
      exists e. split; [done|]. apply IH. eauto.
Qed.

Lemma seg_snoc es h l p t :
  seg es h (l ++ [p]) t ↔
  seg es h l p ∧ p ≠ INVALID ∧ ∃ e, es !! p = Some e ∧ next e = t.
Proof.
  rewrite seg_app. simpl. split.
  - intros (m & ? & -> & ? & e & ? & ?). eauto 10.
  - intros (? & ? & e & ? & ?). exists p. eauto 10.
Qed.

Lemma seg_lookup es h l t i :
  seg es h l t → i ∈ l → i ≠ INVALID ∧ is_Some (es !! i).
Proof.
  revert h. induction l as [|j l IH]; intros h Hc Hi; [by inversion Hi|].
  destruct Hc as (-> & Hne & e & He & Hc).
  apply elem_of_cons in Hi as [->|Hi]; [eauto|]. by eapply IH.
Qed.

Lemma chain_functional es h l1 l2 : chain es h l1 → chain es h l2 → l1 = l2.
Proof.
  unfold chain. revert h l2.
  induction l1 as [|i l1 IH]; intros h [|j l2] H1 H2; simpl in *.
  - done.
  - destruct H2 as (-> & Hne & _). congruence.
  - destruct H1 as (-> & Hne & _). congruence.
  - destruct H1 as (-> & _ & e1 & He1 & H1), H2 as (<- & _ & e2 & He2 & H2).
    simplify_eq. f_equal. by eapply IH.
Qed.

(** A segment is not disturbed by writes that keep the links of its entries. *)
Lemma seg_frame es es' h l t :
  seg es h l t →
  (∀ i e, i ∈ l → es !! i = Some e → ∃ e', es' !! i = Some e' ∧ next e' = next e) →
  seg es' h l t.
Proof.
  revert h. induction l as [|i l IH]; intros h Hc Hfr; [done|].
  destruct Hc as (-> & Hne & e & He & Hc).
  destruct (Hfr i e) as (e' & He' & Hn); [left|done|].
  split_and!; [done..|]. exists e'. split; [done|]. rewrite Hn.
  apply IH; [done|]. intros j ej Hj. apply Hfr. by right.
Qed.

Lemma seg_frame_eq es es' h l t :
  seg es h l t → (∀ i, i ∈ l → es' !! i = es !! i) → seg es' h l t.
Proof.
  intros Hc Heq. eapply seg_frame; [done|].
  intros i e Hi He. exists e. by rewrite Heq.
Qed.

(** Every index of a chain is met once: a chain has no cycle. *)
Lemma chain_NoDup es h l : chain es h l → NoDup l.
Proof.
  unfold chain. revert h. induction l as [|i l IH]; intros h Hc; [constructor|].
  destruct Hc as (-> & Hne & e & He & Hc). constructor; [|by eapply IH].
  intros (l1 & l2 & ->)%list_elem_of_split.
  apply seg_app in Hc as (m & H1 & H2). destruct H2 as (-> & _ & e' & He' & H2).
  assert (e' = e) as -> by congruence.
  assert (seg es (next e) (l1 ++ i :: l2) INVALID) as H3.
  { apply seg_app. exists i. split; [done|]. simpl. eauto 10. }
  assert (l1 ++ i :: l2 = l2) as Heq by (eapply chain_functional; done).
  apply (f_equal length) in Heq. rewrite length_app in Heq. simpl in Heq. lia.
Qed.

(** ** The ghost table of chains *)

Lemma flat_map_ext_elem {A B} (f g : A → list B) (l : list A) :
  (∀ x, x ∈ l → f x = g x) → flat_map f l = flat_map g l.
Proof.
  induction l as [|x l IH]; intros H; simpl; [done|].
  rewrite H by left. f_equal. apply IH. intros y Hy. apply H. by right.
Qed.

Lemma flat_map_seq_upd (g : nat → list nat) (n b : nat) (c : list nat) :
  b < n →
  flat_map (λ x, if decide (x = b) then c else g x) (seq 0 n)
  ≡ₚ c ++ flat_map (λ x, if decide (x = b) then [] else g x) (seq 0 n).
Proof.
  induction n as [|n IH]; intros Hb; [lia|].
  rewrite !seq_S, !flat_map_app. simpl. rewrite !app_nil_r.
  destruct (decide (n = b)) as [->|Hne].
  - assert (∀ c', flat_map (λ x, if decide (x = b) then c' else g x) (seq 0 b)
                  = flat_map g (seq 0 b)) as Hg.
    { intros c'. apply flat_map_ext_elem.
      intros x [_ Hx]%elem_of_seq. rewrite decide_False; [done|lia]. }
    rewrite !Hg, app_nil_r. apply Permutation_app_comm.
  - rewrite IH by lia. by rewrite (assoc (++)).
Qed.

Lemma level_idx_elem Tl i :
  i ∈ level_idx Tl ↔ ∃ b, b < DWARF_CFA_STACK_BUCKET_COUNT ∧ i ∈ Tl b.
Proof.
  unfold level_idx. rewrite elem_of_flat_map. split.
  - intros (b & [_ Hb]%elem_of_seq & Hi). eauto.
  - intros (b & Hb & Hi). exists b. split; [|done]. apply elem_of_seq. lia.
Qed.

Lemma below_elem T d i :
  i ∈ below T d ↔ ∃ l b, l < d ∧ b < DWARF_CFA_STACK_BUCKET_COUNT ∧ i ∈ T l b.
Proof.
  unfold below. rewrite elem_of_flat_map. split.
  - intros (l & [_ Hl]%elem_of_seq & (b & ? & ?)%level_idx_elem). eauto 10.
  - intros (l & b & Hl & Hb & Hi). exists l. split; [apply elem_of_seq; lia|].
    apply level_idx_elem. eauto.
Qed.

Lemma owned_elem T d i :
  i ∈ owned T d ↔ ∃ l b, l ≤ d ∧ b < DWARF_CFA_STACK_BUCKET_COUNT ∧ i ∈ T l b.
Proof.
  unfold owned. rewrite elem_of_app, below_elem, level_idx_elem. split.
  - intros [(l & b & ? & ? & ?)|(b & ? & ?)]; [exists l, b|exists d, b];
      split_and!; try done; lia.
  - intros (l & b & Hl & ? & ?). destruct (decide (l = d)) as [->|]; [right; eauto|].
    left. exists l, b. split_and!; try done; lia.
Qed.

Lemma below_ext T T' d :
  (∀ l b, l < d → b < DWARF_CFA_STACK_BUCKET_COUNT → T' l b = T l b) →
  below T' d = below T d.
Proof.
  intros H. apply flat_map_ext_elem. intros l [_ Hl]%elem_of_seq.
  apply flat_map_ext_elem. intros b [_ Hb]%elem_of_seq. apply H; lia.
Qed.

Lemma owned_ext T T' d :
  (∀ l b, l ≤ d → b < DWARF_CFA_STACK_BUCKET_COUNT → T' l b = T l b) →
  owned T' d = owned T d.
Proof.
  intros H. unfold owned. f_equal.
  - apply below_ext. intros. apply H; [lia|done].
  - apply flat_map_ext_elem. intros b [_ Hb]%elem_of_seq. apply H; lia.
Qed.

Lemma owned_tupd T d b c :
  b < DWARF_CFA_STACK_BUCKET_COUNT →
  owned (tupd T d b c) d ≡ₚ c ++ owned (tupd T d b []) d.
Proof.
  intros Hb. unfold owned.
  rewrite (below_ext T (tupd T d b c)), (below_ext T (tupd T d b [])).
  2,3: intros l b' Hl _; unfold tupd; rewrite decide_False; [done|lia].
  assert (∀ c', level_idx (tupd T d b c' d)
                = flat_map (λ x, if decide (x = b) then c' else T d x)
                    (seq 0 DWARF_CFA_STACK_BUCKET_COUNT)) as Hl.
  { intros c'. apply flat_map_ext_elem. intros x _. unfold tupd.
    destruct (decide (x = b)) as [->|].
    - by rewrite decide_True.
    - rewrite decide_False; [done|]. by intros [_ ?]. }
  rewrite !Hl, flat_map_seq_upd by done.
  rewrite !(assoc (++)). f_equiv. apply Permutation_app_comm.
Qed.

Lemma owned_split T d b :
  b < DWARF_CFA_STACK_BUCKET_COUNT →
  owned T d ≡ₚ T d b ++ owned (tupd T d b []) d.
Proof.
  intros Hb. rewrite <-owned_tupd by done. erewrite owned_ext; [done|].
  intros l b' _ _. unfold tupd. case_decide as H; [|done]. by destruct H as [-> ->].
Qed.

Lemma owned_rest_elem T d b i :
  i ∈ owned (tupd T d b []) d ↔
  ∃ l b', l ≤ d ∧ b' < DWARF_CFA_STACK_BUCKET_COUNT ∧ ¬ (l = d ∧ b' = b) ∧ i ∈ T l b'.
Proof.
  rewrite owned_elem. unfold tupd. split.
  - intros (l & b' & ? & ? & Hi). case_decide; [by inversion Hi|]. eauto 10.
  - intros (l & b' & ? & ? & ? & Hi). exists l, b'. by rewrite decide_False.
Qed.

(** No more indices than entries. *)
Lemma NoDup_bounded_length (l : list nat) n :
  NoDup l → (∀ i, i ∈ l → i < n) → length l ≤ n.
Proof.
  intros Hnd Hlt. rewrite <-(length_seq n 0). apply submseteq_length.
  apply NoDup_submseteq; [done|]. intros i Hi. apply elem_of_seq. specialize (Hlt i Hi). lia.
Qed.

(** ** The search loops *)

Lemma seg_head_valid es h l t : seg es h l t → t ≠ INVALID → h ≠ INVALID.
Proof. destruct l; simpl; [by intros ->|]. by intros (-> & ? & _). Qed.

Lemma last_cons_from_option {A} (parent : option A) i l :
  from_option Some (Some i) (list.last l) = from_option Some parent (list.last (i :: l)).
Proof. rewrite last_cons. by destruct (list.last l). Qed.

(** The search of [set_register] walks over entries of other registers. *)
Lemma set_register_search_skip es r l h t parent fuel :
  seg es h l t → t ≠ INVALID →
  (∀ i e, i ∈ l → es !! i = Some e → regnum e ≠ r) →
  set_register_search (length l + fuel) es r parent h
  = set_register_search fuel es r (from_option Some parent (list.last l)) t.
Proof.
  revert h parent. induction l as [|i l IH]; intros h parent Hs Ht Hno; simpl in *.
  - by subst.
  - destruct Hs as (-> & Hi & e & He & Hs).
    rewrite decide_False by done. rewrite (read_lookup _ _ _ He). simpl.
    rewrite decide_False by (eapply Hno; [left|done]).
    rewrite decide_False by (by eapply seg_head_valid).
    rewrite IH; [|done..|].
    + by rewrite (last_cons_from_option parent).
    + intros j ej Hj. apply Hno. by right.
Qed.

Lemma set_register_search_absent es r c h parent fuel :
  chain es h c → length c < fuel →
  (∀ i e, i ∈ c → es !! i = Some e → regnum e ≠ r) →
  set_register_search fuel es r parent h
  = Ok (Chain_end (from_option Some parent (list.last c))).
Proof.
  intros Hc Hfuel Hno. destruct c as [|i c _] using rev_ind.
  - destruct fuel; [simpl in *; lia|]. simpl in *. by rewrite decide_True.
  - apply seg_snoc in Hc as (Hs & Hi & e & He & Hn).
    rewrite length_app in Hfuel. simpl in Hfuel.
    replace fuel with (length c + S (fuel - length c - 1)) by lia.
    rewrite (set_register_search_skip es r c h i); [|done..|].
    + simpl. rewrite decide_False by done. rewrite (read_lookup _ _ _ He). simpl.
      rewrite decide_False by (eapply Hno; [|done]; apply elem_of_app; right; left).
      rewrite decide_True by done. by rewrite last_snoc.
    + intros j ej Hj. apply Hno. apply elem_of_app. by left.
Qed.

Lemma set_register_search_present es r c1 h i e parent fuel :
  seg es h c1 i → i ≠ INVALID → es !! i = Some e → regnum e = r →
  length c1 < fuel →
  (∀ j ej, j ∈ c1 → es !! j = Some ej → regnum ej ≠ r) →
  set_register_search fuel es r parent h = Ok (Existing i).
Proof.
  intros Hs Hi He Hr Hfuel Hno.
  replace fuel with (length c1 + S (fuel - length c1 - 1)) by lia.
  rewrite (set_register_search_skip es r c1 h i); [|done..].
  simpl. rewrite decide_False by done. rewrite (read_lookup _ _ _ He). simpl.
  by rewrite decide_True.
Qed.

Lemma get_register_rule_search_skip es r l h t fuel :
  seg es h l t → t ≠ INVALID →
  (∀ i e, i ∈ l → es !! i = Some e → regnum e ≠ r) →
  get_register_rule_search (length l + fuel) es r h
  = get_register_rule_search fuel es r t.
Proof.
  revert h. induction l as [|i l IH]; intros h Hs Ht Hno; simpl in *.
  - by subst.
  - destruct Hs as (-> & Hi & e & He & Hs).
    rewrite decide_False by done. rewrite (read_lookup _ _ _ He). simpl.
    rewrite decide_True by (eapply Hno; [left|done]).
    rewrite decide_False by (by eapply seg_head_valid).
    apply IH; [done..|]. intros j ej Hj. apply Hno. by right.
Qed.

Lemma get_register_rule_search_absent es r c h fuel :
  chain es h c → length c < fuel →
  (∀ i e, i ∈ c → es !! i = Some e → regnum e ≠ r) →
  get_register_rule_search fuel es r h = Ok None.
Proof.
  intros Hc Hfuel Hno. destruct c as [|i c _] using rev_ind.
  - destruct fuel; [simpl in *; lia|]. simpl in *. by rewrite decide_True.
  - apply seg_snoc in Hc as (Hs & Hi & e & He & Hn).
    rewrite length_app in Hfuel. simpl in Hfuel.
    replace fuel with (length c + S (fuel - length c - 1)) by lia.
    rewrite (get_register_rule_search_skip es r c h i); [|done..|].
    + simpl. rewrite decide_False by done. rewrite (read_lookup _ _ _ He). simpl.
      rewrite decide_True by (eapply Hno; [|done]; apply elem_of_app; right; left).
      by rewrite decide_True.
    + intros j ej Hj. apply Hno. apply elem_of_app. by left.
Qed.

Lemma get_register_rule_search_present es r c1 h i e fuel :
  seg es h c1 i → i ≠ INVALID → es !! i = Some e → regnum e = r →
  length c1 < fuel →
  (∀ j ej, j ∈ c1 → es !! j = Some ej → regnum ej ≠ r) →
  get_register_rule_search fuel es r h = Ok (Some (rule e, value e)).
Proof.
  intros Hs Hi He Hr Hfuel Hno.
  replace fuel with (length c1 + S (fuel - length c1 - 1)) by lia.
  rewrite (get_register_rule_search_skip es r c1 h i); [|done..].
  simpl. rewrite decide_False by done. rewrite (read_lookup _ _ _ He). simpl.
  by rewrite decide_False by (intros ?; done).
Qed.

(** A chain either holds the register at exactly one place or nowhere. *)
Lemma chain_find (es : list dwarf_cfa_reg_entry) (c : list nat) (r : Z) :
  (∀ i, i ∈ c → is_Some (es !! i)) →
  (∀ i e, i ∈ c → es !! i = Some e → regnum e ≠ r)
  ∨ ∃ c1 i e c2, c = c1 ++ i :: c2 ∧ es !! i = Some e ∧ regnum e = r
      ∧ ∀ j ej, j ∈ c1 → es !! j = Some ej → regnum ej ≠ r.
Proof.
  induction c as [|i c IH]; intros Hin.
  - left. intros i e Hi. by inversion Hi.
  - destruct (Hin i) as [e He]; [left|].
    destruct (decide (regnum e = r)) as [Hr|Hr].
    { right. exists [], i, e, c. split_and!; try done. intros j ej Hj. by inversion Hj. }
    destruct IH as [Hno|(c1 & j & ej & c2 & -> & Hj & Hrj & Hno)].
    + intros j Hj. apply Hin. by right.
    + left. intros j ej [->|Hj]%elem_of_cons Hej; [congruence|by eapply Hno].
    + right. exists (i :: c1), j, ej, c2. split_and!; try done.
      intros k ek [->|Hk]%elem_of_cons Hek; [congruence|by eapply Hno].
Qed.

(** ** Consequences of the representation invariant *)

Lemma bucket_of_lt r : bucket_of r < DWARF_CFA_STACK_BUCKET_COUNT.
Proof.
  unfold bucket_of. destruct Hcfg as (_ & _ & _ & [HB _] & _).
  pose proof (Z.mod_pos_bound r (Z.of_nat DWARF_CFA_STACK_BUCKET_COUNT)). lia.
Qed.

Lemma rep_bucket s F T l b :
  Rep s F T → l ≤ _table_depth s → b < DWARF_CFA_STACK_BUCKET_COUNT →
  ∃ row h, _table_stack s !! l = Some row ∧ row !! b = Some h
           ∧ bucket_ok (_entries s) b h (T l b).
Proof.
  intros HR Hl Hb. destruct (rep_level _ _ _ HR l Hl) as (row & Hrow & _ & Hbk).
  destruct (Hbk b Hb) as (h & ? & ?). eauto.
Qed.

Lemma rep_owned_lookup s F T i :
  Rep s F T → i ∈ owned T (_table_depth s) → i ≠ INVALID ∧ is_Some (_entries s !! i).
Proof.
  intros HR (l & b & Hl & Hb & Hi)%owned_elem.
  destruct (rep_bucket s F T l b) as (row & h & _ & _ & Hc & _); [done..|].
  by eapply seg_lookup.
Qed.

Lemma rep_index_lt s F T i :
  Rep s F T → i ∈ F ++ owned T (_table_depth s) → i < DWARF_CFA_STACK_MAX_REGISTERS.
Proof.
  intros HR Hi. destruct (rep_storage _ _ _ HR) as (<- & _).
  apply lookup_lt_is_Some. apply elem_of_app in Hi as [Hi|Hi].
  - by eapply seg_lookup; [apply (rep_free _ _ _ HR)|].
  - by eapply rep_owned_lookup.
Qed.

Lemma rep_size s F T :
  Rep s F T → length F + length (owned T (_table_depth s)) ≤ DWARF_CFA_STACK_MAX_REGISTERS.
Proof.
  intros HR. rewrite <-length_app. apply NoDup_bounded_length.
  - apply (rep_nodup _ _ _ HR).
  - intros i. by apply rep_index_lt.
Qed.

(** An index sits in one place only: on the free list, or in one bucket
    of one live level. *)
Lemma rep_elsewhere s F T b l b' j :
  Rep s F T → b < DWARF_CFA_STACK_BUCKET_COUNT →
  l ≤ _table_depth s → b' < DWARF_CFA_STACK_BUCKET_COUNT →
  (¬ (l = _table_depth s ∧ b' = b)) → j ∈ T l b' →
  (j ∉ F) ∧ (j ∉ T (_table_depth s) b).
Proof.
  intros HR Hb Hl Hb' Hne Hj. pose proof (rep_nodup _ _ _ HR) as Hnd.
  rewrite (owned_split T _ b Hb) in Hnd.
  apply NoDup_app in Hnd as (_ & HF & (_ & Hc & _)%NoDup_app).
  assert (j ∈ owned (tupd T (_table_depth s) b []) (_table_depth s)) as Hrest.
  { apply owned_rest_elem. eauto 10. }
  split.
  - intros HjF. apply (HF j HjF). apply elem_of_app. by right.
  - intros Hjc. by apply (Hc j Hjc).
Qed.

Lemma rep_free_not_owned s F T i :
  Rep s F T → i ∈ F → i ∉ owned T (_table_depth s).
Proof. intros HR. by apply (NoDup_app F), (rep_nodup _ _ _ HR). Qed.

(** *** Frames *)

Lemma bucket_ok_frame_link es es' b h c :
  bucket_ok es b h c →
  (∀ i e, i ∈ c → es !! i = Some e →
     ∃ e', es' !! i = Some e' ∧ next e' = next e ∧ regnum e' = regnum e) →
  bucket_ok es' b h c.
Proof.
  intros (Hc & Hb & Hinj) Hfr.
  assert (∀ i e', i ∈ c → es' !! i = Some e' →
            ∃ e, es !! i = Some e ∧ regnum e' = regnum e) as Hback.
  { intros i e' Hi He'. destruct (seg_lookup _ _ _ _ i Hc Hi) as (_ & e & He).
    destruct (Hfr i e Hi He) as (e'' & ? & _ & ?). exists e. split; [done|congruence]. }
  split_and!.
  - eapply seg_frame; [done|]. intros i e Hi He.
    destruct (Hfr i e Hi He) as (e' & ? & ? & _). eauto.
  - intros i e' Hi He'. destruct (Hback i e' Hi He') as (e & He & ->). by eapply Hb.
  - intros i j e1 e2 Hi Hj H1 H2 Heq.
    destruct (Hback i e1 Hi H1) as (e1' & ? & Hr1), (Hback j e2 Hj H2) as (e2' & ? & Hr2).
    eapply (Hinj i j); [done..|congruence].
Qed.

Lemma bucket_ok_frame es es' b h c :
  bucket_ok es b h c → (∀ i, i ∈ c → es' !! i = es !! i) → bucket_ok es' b h c.
Proof.
  intros Hok Heq. eapply bucket_ok_frame_link; [done|].
  intros i e Hi He. exists e. by rewrite Heq.
Qed.

Lemma level_idx_ext Tl Tl' :
  (∀ b, b < DWARF_CFA_STACK_BUCKET_COUNT → Tl' b = Tl b) → level_idx Tl' = level_idx Tl.
Proof. intros H. apply flat_map_ext_elem. intros b [_ Hb]%elem_of_seq. apply H. lia. Qed.

(** A level whose row, count and chained entries are untouched is still in
    order. *)
Lemma level_ok_frame s s' l Tl Tl' :
  level_ok s l Tl →
  _table_stack s' !! l = _table_stack s !! l →
  _register_count s' !! l = _register_count s !! l →
  (∀ b, b < DWARF_CFA_STACK_BUCKET_COUNT → Tl' b = Tl b) →
  (∀ b i e, b < DWARF_CFA_STACK_BUCKET_COUNT → i ∈ Tl b → _entries s !! i = Some e →
     ∃ e', _entries s' !! i = Some e' ∧ next e' = next e ∧ regnum e' = regnum e) →
  level_ok s' l Tl'.
Proof.
  intros (row & Hrow & Hcnt & Hbk) Ht Hc HT Hes. exists row.
  rewrite Ht, Hc, (level_idx_ext Tl Tl') by done. split_and!; [done..|].
  intros b Hb. destruct (Hbk b Hb) as (h & Hh & Hok). exists h. split; [done|].
  rewrite HT by done. eapply bucket_ok_frame_link; [done|]. intros i e. by apply Hes.
Qed.

Lemma links_safe_insert (es : list dwarf_cfa_reg_entry) k x :
  (∀ i e, es !! i = Some e → safe_index (next e)) → safe_index (next x) →
  ∀ i e, <[k := x]> es !! i = Some e → safe_index (next e).
Proof.
  intros Hes Hx i e [(-> & <- & _)|(_ & He)]%list_lookup_insert_Some; [done|by eapply Hes].
Qed.

Lemma rep_free_safe s F T : Rep s F T → safe_index (_free_list s).
Proof.
  intros HR. pose proof (rep_free _ _ _ HR) as Hc. destruct F as [|f F]; simpl in Hc.
  - by left.
  - destruct Hc as (-> & _). right. eapply rep_index_lt; [done|]. left.
Qed.

(** ** push_state and pop_state *)

Lemma below_S T d : below T (S d) = owned T d.
Proof. unfold owned, below. by rewrite seq_S, flat_map_app; simpl; rewrite app_nil_r. Qed.

Lemma flat_map_nil {A B} (l : list A) : flat_map (λ _, @nil B) l = [].
Proof. by induction l. Qed.

Lemma level_idx_tclear T d : level_idx (tclear T d d) = [].
Proof.
  rewrite (level_idx_ext (λ _, []) (tclear T d d)); [apply flat_map_nil|].
  intros b _. unfold tclear. by rewrite decide_True.
Qed.

Lemma push_state_full s F T :
  Rep s F T → _table_depth s + 1 = DWARF_CFA_STACK_MAX_STATES →
  push_state s = Ok (false, s).
Proof.
  intros HR Hd. unfold push_state. rewrite decide_True by lia. by rewrite decide_True.
Qed.

Lemma push_state_ok s F T :
  Rep s F T → _table_depth s + 1 ≠ DWARF_CFA_STACK_MAX_STATES →
  ∃ s', push_state s = Ok (true, s')
    ∧ Rep s' F (tclear T (S (_table_depth s)))
    ∧ _table_depth s' = S (_table_depth s)
    ∧ _free_list s' = _free_list s
    ∧ _entries s' = _entries s
    ∧ (∀ l, l ≠ S (_table_depth s) →
         _table_stack s' !! l = _table_stack s !! l
         ∧ _register_count s' !! l = _register_count s !! l)
    ∧ _table_stack s' !! S (_table_depth s)
      = Some (replicate DWARF_CFA_STACK_BUCKET_COUNT INVALID)
    ∧ _register_count s' !! S (_table_depth s) = Some 0%Z.
Proof.
  intros HR Hd. pose proof (rep_depth _ _ _ HR) as Hlt.
  destruct (rep_storage _ _ _ HR) as (Hes & Hcl & Htl & Hrows).
  unfold push_state. rewrite decide_True by lia. rewrite decide_False by done.
  replace (_table_depth s + 1) with (S (_table_depth s)) by lia.
  destruct (lookup_lt_is_Some_2 (_table_stack s) (S (_table_depth s))) as [row Hrow]; [lia|].
  rewrite write_lt by lia. simpl. rewrite (read_lookup _ _ _ Hrow). simpl.
  rewrite write_lt by lia. simpl.
  assert (length row = DWARF_CFA_STACK_BUCKET_COUNT) as Hlen.
  { eapply (Forall_lookup_1 _ _ _ _ Hrows). done. }
  unfold plcrash_async_memset. rewrite Hlen, invalid_uint8.
  eexists. split; [done|]. simpl. split_and!; try done.
  - split; simpl.
    + unfold storage; simpl. split_and!; rewrite ?length_insert; try done.
      apply Forall_insert; [done|]. by rewrite length_replicate.
    + lia.
    + apply (rep_free _ _ _ HR).
    + unfold owned. rewrite (below_ext T), below_S.
      * rewrite level_idx_tclear, app_nil_r. apply (rep_nodup _ _ _ HR).
      * intros l b Hl _. unfold tclear. rewrite decide_False; [done|lia].
    + intros l Hl. destruct (decide (l = S (_table_depth s))) as [->|Hne].
      * exists (replicate DWARF_CFA_STACK_BUCKET_COUNT INVALID). simpl.
        rewrite !list_lookup_insert_eq by lia.
        rewrite level_idx_tclear. split_and!; try done.
        intros b Hb. exists INVALID. rewrite lookup_replicate_2 by done.
        split; [done|]. unfold tclear. rewrite decide_True by done.
        split_and!; [done|..]; intros; exfalso; by eapply not_elem_of_nil.
      * eapply level_ok_frame.
        -- apply (rep_level _ _ _ HR l). lia.
        -- simpl. by apply list_lookup_insert_ne.
        -- simpl. by apply list_lookup_insert_ne.
        -- intros b _. unfold tclear. by rewrite decide_False.
        -- simpl. eauto.
    + apply (rep_links _ _ _ HR).
  - intros l Hl. by rewrite !list_lookup_insert_ne.
  - by rewrite list_lookup_insert_eq by lia.
  - by rewrite list_lookup_insert_eq by lia.
Qed.

Lemma pop_state_ok s F T :
  Rep s F T → _table_depth s ≠ 0 →
  pop_state s = Ok (true, with_table_depth s (_table_depth s - 1))
  ∧ Rep (with_table_depth s (_table_depth s - 1)) F T.
Proof.
  intros HR Hd. unfold pop_state. rewrite decide_False by done. split; [done|].
  pose proof (rep_depth _ _ _ HR) as Hlt.
  split; simpl.
  - apply (rep_storage _ _ _ HR).
  - lia.
  - apply (rep_free _ _ _ HR).
  - pose proof (rep_nodup _ _ _ HR) as Hnd. unfold owned at 1 in Hnd.
    replace (_table_depth s) with (S (_table_depth s - 1)) in Hnd at 1 by lia.
    rewrite below_S, (assoc (++)) in Hnd. by apply NoDup_app in Hnd as (? & _).
  - intros l Hl. eapply level_ok_frame; [apply (rep_level _ _ _ HR l); lia|done..|].
    simpl. eauto.
  - apply (rep_links _ _ _ HR).
Qed.

(** ** Linking and unlinking an entry *)

(** Linking [f] after the last entry of a chain, or as its head. *)
Lemma chain_append es es' h c f new :
  chain es h c → f ∉ c → f ≠ INVALID →
  es' !! f = Some new → next new = INVALID →
  (∀ j e0, j ∈ c → es !! j = Some e0 →
     ∃ e1, es' !! j = Some e1
           ∧ next e1 = if decide (list.last c = Some j) then f else next e0) →
  chain es' (match c with [] => f | _ => h end) (c ++ [f]).
Proof.
  intros Hc Hf Hfv Hnew Hnn Hfr. pose proof (chain_NoDup _ _ _ Hc) as Hnd.
  unfold chain in *. destruct c as [|p c _] using rev_ind.
  - simpl. eauto 10.
  - apply seg_snoc in Hc as (Hs & Hp & ep & Hep & Hn).
    replace (match c ++ [p] with [] => f | _ => h end) with h by (by destruct c).
    apply seg_snoc. split_and!; [|done|eauto].
    apply seg_snoc. split_and!; [|done|].
    + eapply seg_frame; [done|]. intros j e0 Hj He0.
      destruct (Hfr j e0) as (e1 & He1 & Hn1); [apply elem_of_app; by left|done|].
      exists e1. split; [done|]. rewrite Hn1, decide_False; [done|].
      rewrite last_snoc. intros [= ->].
      apply NoDup_app in Hnd as (_ & Hnd & _). apply (Hnd j Hj). left.
    + destruct (Hfr p ep) as (e1 & He1 & Hn1); [apply elem_of_app; right; left|done|].
      exists e1. split; [done|]. by rewrite Hn1, last_snoc, decide_True.
Qed.

(** Unlinking [i] from a chain: its predecessor, or the head, takes its
    link. *)
Lemma chain_unlink es es' h c1 i c2 ei :
  chain es h (c1 ++ i :: c2) → es !! i = Some ei →
  (∀ j e0, j ∈ c1 ++ c2 → es !! j = Some e0 →
     ∃ e1, es' !! j = Some e1
           ∧ next e1 = if decide (list.last c1 = Some j) then next ei else next e0) →
  chain es' (match c1 with [] => next ei | _ => h end) (c1 ++ c2).
Proof.
  intros Hc Hei Hfr. pose proof (chain_NoDup _ _ _ Hc) as Hnd.
  unfold chain in *. apply seg_app in Hc as (m & Hs1 & (-> & Hi & ei' & Hei' & Hs2)).
  assert (ei' = ei) as -> by congruence.
  apply NoDup_app in Hnd as (Hnd1 & Hdisj & (Hi2 & Hnd2)%NoDup_cons).
  destruct c1 as [|p c1 _] using rev_ind.
  - simpl. eapply seg_frame; [done|]. intros j e0 Hj He0.
    destruct (Hfr j e0) as (e1 & He1 & Hn1); [done..|].
    exists e1. split; [done|]. by rewrite Hn1, decide_False.
  - replace (match c1 ++ [p] with [] => next ei | _ => h end) with h by (by destruct c1).
    apply seg_snoc in Hs1 as (Hs1 & Hp & ep & Hep & Hn).
    apply seg_app. exists (next ei). split.
    + apply seg_snoc. split_and!; [|done|].
      * eapply seg_frame; [done|]. intros j e0 Hj He0.
        destruct (Hfr j e0) as (e1 & He1 & Hn1);
          [apply elem_of_app; left; apply elem_of_app; by left|done|].
        exists e1. split; [done|]. rewrite Hn1, decide_False; [done|].
        rewrite last_snoc. intros [= ->].
        apply NoDup_app in Hnd1 as (_ & Hnd1 & _). apply (Hnd1 j Hj). left.
      * destruct (Hfr p ep) as (e1 & He1 & Hn1);
          [apply elem_of_app; left; apply elem_of_app; right; left|done|].
        exists e1. split; [done|]. by rewrite Hn1, last_snoc, decide_True.
    + eapply seg_frame; [done|]. intros j e0 Hj He0.
      destruct (Hfr j e0) as (e1 & He1 & Hn1); [apply elem_of_app; by right|done|].
      exists e1. split; [done|]. rewrite Hn1, decide_False; [done|].
      rewrite last_snoc. intros [= ->].
      apply (Hdisj j); [apply elem_of_app; right; left|by right].
Qed.

Lemma rep_chain_length s F T l b :
  Rep s F T → l ≤ _table_depth s → b < DWARF_CFA_STACK_BUCKET_COUNT →
  length (T l b) ≤ DWARF_CFA_STACK_MAX_REGISTERS.
Proof.
  intros HR Hl Hb. destruct (rep_bucket s F T l b) as (row & h & _ & _ & Hc & _); [done..|].
  apply NoDup_bounded_length; [by eapply chain_NoDup|].
  intros i Hi. eapply rep_index_lt; [done|]. apply elem_of_app. right.
  apply owned_elem. eauto.
Qed.

Lemma rep_free_nil s F T : Rep s F T → (_free_list s = INVALID ↔ F = []).
Proof.
  intros HR. pose proof (rep_free _ _ _ HR) as Hc. destruct F as [|f F]; simpl in Hc.
  - done.
  - destruct Hc as (-> & ? & _). done.
Qed.

Lemma rep_table_read s F T l b :
  Rep s F T → l ≤ _table_depth s → b < DWARF_CFA_STACK_BUCKET_COUNT →
  ∃ row h, _table_stack s !! l = Some row ∧ row !! b = Some h
    ∧ table_read (_table_stack s) l b = Ok h
    ∧ bucket_ok (_entries s) b h (T l b).
Proof.
  intros HR Hl Hb. destruct (rep_bucket s F T l b) as (row & h & Hrow & Hh & Hok); [done..|].
  exists row, h. split_and!; try done.
  unfold table_read. rewrite (read_lookup _ _ _ Hrow). simpl. by apply read_lookup.
Qed.

(** ** set_register *)

Lemma seg_at es h c1 i c2 t :
  seg es h (c1 ++ i :: c2) t →
  seg es h c1 i ∧ i ≠ INVALID ∧ ∃ e, es !! i = Some e ∧ seg es (next e) c2 t.
Proof. intros (m & ? & (-> & ? & ?))%seg_app. eauto. Qed.

(** In a bucket, the entries before the one holding a register do not
    hold it. *)
Lemma bucket_ok_prefix es b h c1 i c2 e :
  bucket_ok es b h (c1 ++ i :: c2) → es !! i = Some e →
  ∀ j ej, j ∈ c1 → es !! j = Some ej → regnum ej ≠ regnum e.
Proof.
  intros (Hc & _ & Hinj) He j ej Hj Hej Heq.
  apply chain_NoDup, NoDup_app in Hc as (_ & Hdisj & _).
  apply (Hdisj j Hj). rewrite (Hinj j i ej e); [left| |apply elem_of_app; right; left|done..].
  apply elem_of_app. by left.
Qed.

Lemma set_register_existing s F T r rl v i e :
  Rep s F T → (rl ≤ 255)%Z →
  i ∈ T (_table_depth s) (bucket_of r) → _entries s !! i = Some e → regnum e = r →
  let s' := with_entries s
              (<[i := {| value := v; regnum := regnum e; rule := uint8 rl;
                         next := next e |}]> (_entries s)) in
  (∀ fuel, DWARF_CFA_STACK_MAX_REGISTERS < fuel →
     set_register fuel s r rl v = Ok (true, s'))
  ∧ Rep s' F T.
Proof.
  intros HR Hrl Hi He Hr s'.
  pose proof (bucket_of_lt r) as Hb.
  destruct (rep_table_read s F T (_table_depth s) (bucket_of r))
    as (row & h & Hrow & Hh & Hread & Hok); [done..|].
  pose proof (rep_chain_length s F T _ _ HR (Nat.le_refl _) Hb) as Hlen.
  apply list_elem_of_split in Hi as (c1 & c2 & Hsplit). rewrite Hsplit in Hok, Hlen.
  pose proof (bucket_ok_prefix _ _ _ _ _ _ _ Hok He) as Hno.
  destruct Hok as (Hc & _). apply seg_at in Hc as (Hs1 & Hiv & _).
  rewrite length_app in Hlen. split.
  - intros fuel Hfuel. unfold set_register. rewrite decide_True by done.
    rewrite Hread. simpl.
    rewrite (set_register_search_present _ _ c1 h i e); [|done..|lia|by rewrite <-Hr].
    simpl. rewrite (read_lookup _ _ _ He). simpl. by rewrite (write_lookup _ _ _ _ He).
  - assert (∀ j e0, _entries s !! j = Some e0 →
              ∃ e1, _entries s' !! j = Some e1 ∧ next e1 = next e0
                    ∧ regnum e1 = regnum e0) as Hlink.
    { intros j e0 He0. simpl. destruct (decide (j = i)) as [->|Hne].
      - rewrite list_lookup_insert_eq by (by eapply lookup_lt_Some). simplify_eq. eauto.
      - rewrite list_lookup_insert_ne by done. eauto. }
    split; simpl.
    + destruct (rep_storage _ _ _ HR) as (? & ? & ? & ?).
      unfold storage; simpl. by rewrite length_insert.
    + apply (rep_depth _ _ _ HR).
    + eapply seg_frame; [apply (rep_free _ _ _ HR)|]. intros j e0 _ He0.
      destruct (Hlink j e0 He0) as (e1 & ? & ? & _). eauto.
    + apply (rep_nodup _ _ _ HR).
    + intros l Hl. eapply level_ok_frame; [by apply (rep_level _ _ _ HR l)|done..|].
      intros b' j e0 _ _. apply Hlink.
    + apply links_safe_insert; [apply (rep_links _ _ _ HR)|]. simpl.
      by apply (rep_links _ _ _ HR i e).
Qed.

Lemma from_option_Some_None {A} (o : option A) : from_option Some None o = o.
Proof. by destruct o. Qed.

Lemma set_register_exhausted s F T r rl v :
  Rep s F T → (rl ≤ 255)%Z →
  (∀ i e, i ∈ T (_table_depth s) (bucket_of r) → _entries s !! i = Some e → regnum e ≠ r) →
  _free_list s = INVALID →
  ∀ fuel, DWARF_CFA_STACK_MAX_REGISTERS < fuel →
    set_register fuel s r rl v = Ok (false, s).
Proof.
  intros HR Hrl Hno Hfree fuel Hfuel.
  pose proof (bucket_of_lt r) as Hb.
  destruct (rep_table_read s F T (_table_depth s) (bucket_of r))
    as (row & h & Hrow & Hh & Hread & (Hc & _)); [done..|].
  pose proof (rep_chain_length s F T _ _ HR (Nat.le_refl _) Hb) as Hlen.
  unfold set_register. rewrite decide_True by done. rewrite Hread. simpl.
  rewrite (set_register_search_absent _ _ _ _ _ _ Hc); [|lia|done].
  simpl. by rewrite decide_True.
Qed.

Lemma level_idx_tupd_length T d b c :
  b < DWARF_CFA_STACK_BUCKET_COUNT →
  length (level_idx (tupd T d b c d)) + length (T d b)
  = length (level_idx (T d)) + length c.
Proof.
  intros Hb. pose proof (owned_tupd T d b c Hb) as H1.
  pose proof (owned_split T d b Hb) as H2.
  apply Permutation_length in H1, H2.
  set (n := length (owned (tupd T d b []) d)) in *.
  unfold owned in H1, H2.
  rewrite (below_ext T (tupd T d b c)) in H1.
  2: { intros l b' Hl _. unfold tupd. rewrite decide_False; [done|lia]. }
  rewrite !length_app in H1, H2. fold n in H1, H2. lia.
Qed.

(** The state after a fresh entry [f] was taken from the free list and
    linked at the tail of its bucket represents the ghost table with [f]
    appended to that chain. *)
Lemma set_register_fresh_rep s f F' T new ef es' tbl' row h :
  let d := _table_depth s in
  let b := bucket_of (regnum new) in
  let c := T d b in
  Rep s (f :: F') T →
  _table_stack s !! d = Some row → row !! b = Some h →
  _entries s !! f = Some ef →
  (∀ j e, j ∈ c → _entries s !! j = Some e → regnum e ≠ regnum new) →
  next new = INVALID →
  length es' = length (_entries s) →
  es' !! f = Some new →
  (∀ j e0, j ∈ c → _entries s !! j = Some e0 →
     ∃ e1, es' !! j = Some e1 ∧ regnum e1 = regnum e0
           ∧ next e1 = if decide (list.last c = Some j) then f else next e0) →
  (∀ j, j ≠ f → j ∉ c → es' !! j = _entries s !! j) →
  length tbl' = length (_table_stack s) →
  Forall (λ row, length row = DWARF_CFA_STACK_BUCKET_COUNT) tbl' →
  (∀ l, l ≠ d → tbl' !! l = _table_stack s !! l) →
  (∃ row', tbl' !! d = Some row'
     ∧ row' !! b = Some (match c with [] => f | _ => h end)
     ∧ ∀ b', b' ≠ b → row' !! b' = row !! b') →
  (∀ j e, es' !! j = Some e → safe_index (next e)) →
  Rep {| _table_depth := d; _free_list := next ef;
         _register_count :=
           <[d := Z.of_nat (S (length (level_idx (T d))))]> (_register_count s);
         _table_stack := tbl'; _entries := es' |}
      F' (tupd T d b (c ++ [f])).
Proof.
  intros d b c HR Hrow Hh Hef Hno Hnn Hlen Hnew Hlink Hsame Htl Hrows Hother
    (row' & Hrow' & Hhead & Hrest) Hsafe.
  pose proof (bucket_of_lt (regnum new)) as Hb. fold b in Hb.
  destruct (rep_storage _ _ _ HR) as (Hel & Hcl & Htl0 & Hrows0).
  pose proof (rep_depth _ _ _ HR) as Hd. fold d in Hd.
  pose proof (rep_nodup _ _ _ HR) as Hnd. fold d in Hnd.
  pose proof (rep_free _ _ _ HR) as Hfree. destruct Hfree as (Hfl & Hfv & ef' & Hef' & HF').
  assert (ef' = ef) as -> by congruence.
  assert (f ∉ F') as HfF.
  { by apply NoDup_app in Hnd as ((? & _)%NoDup_cons & _). }
  assert (f ∉ owned T d) as Hfo.
  { apply (rep_free_not_owned _ _ _ _ HR). left. }
  assert (f ∉ c) as Hfc.
  { intros Hfc. apply Hfo, owned_elem. exists d, b. eauto. }
  assert (∀ l b' j, l ≤ d → b' < DWARF_CFA_STACK_BUCKET_COUNT → ¬ (l = d ∧ b' = b) →
            j ∈ T l b' → es' !! j = _entries s !! j) as Hframe.
  { intros l b' j Hl Hb' Hne Hj.
    destruct (rep_elsewhere s _ T b l b' j HR Hb Hl Hb' Hne Hj) as (HjF & Hjc).
    apply Hsame; [|done]. intros ->. apply HjF. left. }
  split; simpl.
  - unfold storage; simpl. by rewrite length_insert, Hlen, Htl.
  - done.
  - eapply seg_frame_eq; [done|]. intros j Hj. apply Hsame.
    + by intros ->.
    + intros Hjc. eapply (rep_free_not_owned _ _ _ j HR); [by right|].
      apply owned_elem. exists d, b. eauto.
  - rewrite (owned_split T d b Hb) in Hnd. rewrite (owned_tupd T d b _ Hb).
    fold c in Hnd. simpl in Hnd. rewrite <-(assoc (++) c).
    eapply NoDup_Permutation_proper; [|exact Hnd]. simpl.
    by rewrite <-!Permutation_middle.
  - intros l Hl. destruct (decide (l = d)) as [->|Hne].
    + destruct (rep_level _ _ _ HR d (Nat.le_refl _)) as (row0 & Hrow0 & Hcnt & Hbk).
      fold d in Hrow0. assert (row0 = row) as -> by congruence.
      exists row'. simpl. split_and!; [done|..].
      * rewrite list_lookup_insert_eq by lia. do 2 f_equal.
        pose proof (level_idx_tupd_length T d b (c ++ [f]) Hb) as Heq.
        rewrite length_app in Heq. simpl in Heq. fold c in Heq. lia.
      * intros b' Hb'. destruct (decide (b' = b)) as [->|Hnb].
        -- eexists. split; [done|]. unfold tupd. rewrite decide_True by done.
           destruct (Hbk b Hb) as (h0 & Hh0 & Hc & Hbo & Hinj).
           assert (h0 = h) as -> by congruence. fold c in Hc, Hbo, Hinj.
           split_and!.
           ++ eapply chain_append; [done..|]. intros j e0 Hj He0.
              destruct (Hlink j e0 Hj He0) as (e1 & ? & _ & ?). eauto.
           ++ intros j e1 [Hj|Hj]%elem_of_app He1.
              ** destruct (seg_lookup _ _ _ _ j Hc Hj) as (_ & e0 & He0).
                 destruct (Hlink j e0 Hj He0) as (e1' & ? & Hr & _).
                 assert (e1' = e1) as -> by congruence. rewrite Hr. by eapply Hbo.
              ** apply list_elem_of_singleton in Hj as ->. by simplify_eq.
           ++ assert (∀ j e1, j ∈ c → es' !! j = Some e1 →
                        ∃ e0, _entries s !! j = Some e0 ∧ regnum e1 = regnum e0) as Hback.
              { intros j e1 Hj He1. destruct (seg_lookup _ _ _ _ j Hc Hj) as (_ & e0 & He0).
                destruct (Hlink j e0 Hj He0) as (e1' & ? & Hr & _).
                exists e0. split; [done|]. congruence. }
              intros i j e1 e2 [Hi|Hi]%elem_of_app [Hj|Hj]%elem_of_app H1 H2 Heq.
              ** destruct (Hback i e1 Hi H1) as (e1' & ? & ?),
                   (Hback j e2 Hj H2) as (e2' & ? & ?).
                 eapply (Hinj i j); [done..|congruence].
              ** apply list_elem_of_singleton in Hj as ->. simplify_eq.
                 destruct (Hback i e1 Hi H1) as (e1' & ? & ?).
                 exfalso. eapply (Hno i); [done..|congruence].
              ** apply list_elem_of_singleton in Hi as ->. simplify_eq.
                 destruct (Hback j e2 Hj H2) as (e2' & ? & ?).
                 exfalso. eapply (Hno j); [done..|congruence].
              ** apply list_elem_of_singleton in Hi as ->.
                 by apply list_elem_of_singleton in Hj as ->.
        -- destruct (Hbk b' Hb') as (h' & Hh' & Hok). exists h'.
           rewrite Hrest by done. split; [done|].
           unfold tupd. rewrite decide_False by (by intros [_ ?]).
           eapply bucket_ok_frame; [done|]. intros j Hj.
           apply (Hframe d b'); [done..| |done]. by intros [_ ?].
    + eapply level_ok_frame.
      * apply (rep_level _ _ _ HR l Hl).
      * simpl. by apply Hother.
      * simpl. by rewrite list_lookup_insert_ne.
      * intros b' _. unfold tupd. rewrite decide_False; [done|]. by intros [? _].
      * simpl. intros b' j e0 Hb' Hj He0. exists e0.
        rewrite (Hframe l b'); [done..| |done]. by intros [? _].
  - done.
Qed.

Lemma rep_count_small s F T :
  Rep s F T → F ≠ [] →
  S (length (level_idx (T (_table_depth s)))) ≤ DWARF_CFA_STACK_MAX_REGISTERS.
Proof.
  intros HR HF. pose proof (rep_size _ _ _ HR) as Hsz.
  unfold owned in Hsz. rewrite length_app in Hsz. destruct F; [done|]. simpl in Hsz. lia.
Qed.

Lemma uint8_small (n : nat) : n < 256 → uint8 (Z.of_nat n) = Z.of_nat n.
Proof. intros. unfold uint8. apply Z.mod_small. lia. Qed.

Lemma set_register_fresh s f F' T r rl v :
  Rep s (f :: F') T → (rl ≤ 255)%Z →
  (∀ i e, i ∈ T (_table_depth s) (bucket_of r) → _entries s !! i = Some e → regnum e ≠ r) →
  ∃ s',
    (∀ fuel, DWARF_CFA_STACK_MAX_REGISTERS < fuel →
       set_register fuel s r rl v = Ok (true, s'))
    ∧ Rep s' F' (tupd T (_table_depth s) (bucket_of r)
                   (T (_table_depth s) (bucket_of r) ++ [f]))
    ∧ _table_depth s' = _table_depth s
    ∧ _entries s' !! f
      = Some {| value := v; regnum := r; rule := uint8 rl; next := INVALID |}
    ∧ (∀ j e0, j ≠ f → _entries s !! j = Some e0 →
         ∃ e1, _entries s' !! j = Some e1 ∧ regnum e1 = regnum e0
               ∧ rule e1 = rule e0 ∧ value e1 = value e0)
    ∧ (∀ j, j ≠ f → j ∉ T (_table_depth s) (bucket_of r) →
         _entries s' !! j = _entries s !! j)
    ∧ (∀ l, l ≠ _table_depth s →
         _table_stack s' !! l = _table_stack s !! l
         ∧ _register_count s' !! l = _register_count s !! l).
Proof.
  intros HR Hrl Hno.
  set (d := _table_depth s) in *. set (b := bucket_of r) in *. set (c := T d b) in *.
  set (new := {| value := v; regnum := r; rule := uint8 rl; next := INVALID |}).
  pose proof (bucket_of_lt r) as Hb. fold b in Hb.
  destruct (rep_table_read s _ T d b HR (Nat.le_refl _) Hb)
    as (row & h & Hrow & Hh & Hread & Hok).
  fold c in Hok. pose proof Hok as (Hc & _).
  pose proof (rep_chain_length s _ T _ _ HR (Nat.le_refl _) Hb) as Hclen. fold d c in Hclen.
  destruct (rep_storage _ _ _ HR) as (Hel & Hcl & Htl & Hrows).
  pose proof (rep_depth _ _ _ HR) as Hd. fold d in Hd.
  destruct (rep_free _ _ _ HR) as (Hfl & Hfv & ef & Hef & _).
  destruct (rep_level _ _ _ HR d (Nat.le_refl _)) as (row0 & _ & Hcnt & _).
  pose proof (rep_count_small _ _ _ HR ltac:(done)) as Hsmall. fold d in Hsmall.
  assert (uint8 (Z.of_nat (length (level_idx (T d))) + 1)
          = Z.of_nat (S (length (level_idx (T d))))) as Hu8.
  { replace (Z.of_nat (length (level_idx (T d))) + 1)%Z
      with (Z.of_nat (S (length (level_idx (T d))))) by lia.
    apply uint8_small. destruct Hcfg as (_ & ? & ? & _). lia. }
  assert (f ∉ c) as Hfc.
  { intros Hfc. eapply (rep_free_not_owned _ _ _ f HR); [left|].
    apply owned_elem. exists d, b. eauto. }
  assert (length row = DWARF_CFA_STACK_BUCKET_COUNT) as Hrl'.
  { eapply (Forall_lookup_1 _ _ _ _ Hrows). done. }
  destruct (list.last c) as [p|] eqn:Hlast.
  - (* the chain is not empty: link after its last entry *)
    assert (p ∈ c) as Hp by (by apply last_Some_elem_of).
    destruct (seg_lookup _ _ _ _ p Hc Hp) as (_ & ep & Hep).
    assert (p ≠ f) as Hpf by (by intros ->).
    eexists. split; [|split].
    + intros fuel Hfuel. unfold set_register. rewrite decide_True by done.
      fold b d. rewrite Hread. simpl.
      rewrite (set_register_search_absent _ _ _ _ _ _ Hc); [|lia|done].
      rewrite from_option_Some_None, Hlast. simpl.
      rewrite decide_False by congruence. rewrite Hfl.
      rewrite (read_lookup _ _ _ Hef). simpl.
      rewrite (write_lookup _ _ _ _ Hef). simpl.
      rewrite (read_lookup _ p ep) by (by rewrite list_lookup_insert_ne).
      simpl. rewrite write_lt by (rewrite length_insert; by eapply lookup_lt_Some).
      simpl. rewrite (read_lookup _ _ _ Hcnt). simpl.
      rewrite write_lt by lia. simpl. rewrite Hu8. done.
    + apply (set_register_fresh_rep s f F' T new ef _ _ row h);
        subst new; simpl; fold d b c; try done.
      * by rewrite !length_insert.
      * rewrite list_lookup_insert_ne by done.
        apply list_lookup_insert_eq. by eapply lookup_lt_Some.
      * intros j e0 Hj He0. rewrite Hlast.
        destruct (decide (j = p)) as [->|Hne].
        -- rewrite list_lookup_insert_eq
             by (rewrite length_insert; by eapply lookup_lt_Some).
           simplify_eq. eexists. split; [done|]. simpl. by rewrite decide_True.
        -- rewrite !list_lookup_insert_ne by congruence.
           exists e0. rewrite decide_False by congruence. done.
      * intros j Hjf Hjc. rewrite !list_lookup_insert_ne; [done|done|].
        intros ->. done.
      * exists row. split_and!; try done. by destruct c.
      * apply links_safe_insert; [apply links_safe_insert|].
        -- apply (rep_links _ _ _ HR).
        -- by left.
        -- right. rewrite <-Hel. by eapply lookup_lt_Some.
    + simpl. split_and!; try done.
      * rewrite list_lookup_insert_ne by done.
        apply list_lookup_insert_eq. by eapply lookup_lt_Some.
      * intros j e0 Hjf He0. destruct (decide (j = p)) as [->|Hne].
        -- rewrite list_lookup_insert_eq
             by (rewrite length_insert; by eapply lookup_lt_Some).
           simplify_eq. eexists. done.
        -- rewrite !list_lookup_insert_ne by done. eauto.
      * intros j Hjf Hjc. rewrite !list_lookup_insert_ne; [done|done|].
        intros ->. done.
      * intros l Hl. by rewrite list_lookup_insert_ne.
  - (* the bucket is empty: the entry becomes its head *)
    apply last_None in Hlast.
    eexists. split; [|split].
    + intros fuel Hfuel. unfold set_register. rewrite decide_True by done.
      fold b d. rewrite Hread. simpl.
      rewrite (set_register_search_absent _ _ _ _ _ _ Hc); [|lia|done].
      rewrite from_option_Some_None. fold c. rewrite Hlast. simpl.
      rewrite decide_False by congruence. rewrite Hfl.
      rewrite (read_lookup _ _ _ Hef). simpl.
      rewrite (write_lookup _ _ _ _ Hef). simpl.
      unfold table_write. rewrite (read_lookup _ _ _ Hrow). simpl.
      rewrite write_lt by lia. simpl. rewrite write_lt by lia. simpl.
      rewrite (read_lookup _ _ _ Hcnt). simpl.
      rewrite write_lt by lia. simpl. rewrite Hu8. done.
    + apply (set_register_fresh_rep s f F' T new ef _ _ row h);
        subst new; simpl; fold d b c; try done.
      * by rewrite !length_insert.
      * apply list_lookup_insert_eq. by eapply lookup_lt_Some.
      * intros j e0 Hj. rewrite Hlast in Hj. by inversion Hj.
      * intros j Hjf Hjc. by rewrite list_lookup_insert_ne.
      * by rewrite length_insert.
      * apply Forall_insert; [done|]. by rewrite length_insert.
      * intros l Hl. by rewrite list_lookup_insert_ne.
      * exists (<[b := f]> row). rewrite Hlast. split_and!.
        -- apply list_lookup_insert_eq. lia.
        -- apply list_lookup_insert_eq. lia.
        -- intros b' Hb'. by rewrite list_lookup_insert_ne.
      * apply links_safe_insert; [apply (rep_links _ _ _ HR)|by left].
    + simpl. split_and!; try done.
      * apply list_lookup_insert_eq. by eapply lookup_lt_Some.
      * intros j e0 Hjf He0. rewrite !list_lookup_insert_ne by done. eauto.
      * intros j Hjf Hjc. by rewrite list_lookup_insert_ne.
      * intros l Hl. by rewrite !list_lookup_insert_ne.
Qed.

(** ** The loop of remove_register *)

Lemma remove_register_loop_skip s r bucket l h t entry fuel :
  seg (_entries s) h l t →
  (∀ i e, i ∈ l → _entries s !! i = Some e → regnum e ≠ r) →
  remove_register_loop (length l + fuel) s r bucket entry h
  = remove_register_loop fuel s r bucket
      (from_option Some entry (list.last l)) t.
Proof.
  revert h entry. induction l as [|i l IH]; intros h entry Hs Hno; simpl in *.
  - by subst.
  - destruct Hs as (-> & Hi & e & He & Hs).
    rewrite decide_False by done. rewrite (read_lookup _ _ _ He). simpl.
    rewrite decide_True by (eapply Hno; [left|done]).
    rewrite IH; [|done|].
    + by rewrite (last_cons_from_option entry).
    + intros j ej Hj. apply Hno. by right.
Qed.

Lemma reg_at_with_next es j r p ep n :
  reg_at es j r → es !! p = Some ep → reg_at (<[p := with_next ep n]> es) j r.
Proof.
  intros (e & He & Hr) Hp. destruct (decide (j = p)) as [->|Hne].
  - exists (with_next ep n). rewrite list_lookup_insert_eq by (by eapply lookup_lt_Some).
    split; [done|]. simpl. congruence.
  - exists e. by rewrite list_lookup_insert_ne.
Qed.

(** Once the loop meets the register while the head of the free list
    carries the same register number, it never leaves: every removal puts
    the entry just unlinked in front of the free list and steps onto the
    previous head. *)
Lemma remove_register_loop_diverges fuel s r bucket q k :
  _free_list s ≠ INVALID → reg_at (_entries s) (_free_list s) r →
  k ≠ INVALID → reg_at (_entries s) k r →
  is_Some (_entries s !! q) →
  is_Some (_register_count s !! _table_depth s) →
  remove_register_loop fuel s r bucket (Some q) k = OutOfFuel.
Proof.
  revert s q k. induction fuel as [|fuel IH]; intros s q k Hfv Hf Hkv Hk [eq Hq] [c Hc];
    [done|].
  pose proof Hk as (ek & Hek & Hrk). simpl.
  rewrite decide_False by done. rewrite (read_lookup _ _ _ Hek). simpl.
  rewrite decide_False by (by intros ?).
  rewrite (read_lookup _ _ _ Hq). simpl. rewrite (write_lookup _ _ _ _ Hq). simpl.
  set (es1 := <[q := with_next eq (next ek)]> (_entries s)).
  assert (reg_at es1 k r) as (e' & He' & Hr') by (by apply reg_at_with_next).
  rewrite (read_lookup _ _ _ He'). simpl. rewrite (write_lookup _ _ _ _ He'). simpl.
  rewrite (read_lookup _ _ _ Hc). simpl. rewrite (write_lookup _ _ _ _ Hc). simpl.
  rewrite (read_lookup _ k (with_next e' (_free_list s)))
    by (apply list_lookup_insert_eq; by eapply lookup_lt_Some).
  simpl. apply IH; simpl.
  - done.
  - apply reg_at_with_next; [|done]. by exists e'.
  - done.
  - apply reg_at_with_next; [|done]. by apply reg_at_with_next.
  - exists (with_next e' (_free_list s)).
    apply list_lookup_insert_eq. by eapply lookup_lt_Some.
  - apply lookup_lt_is_Some. rewrite length_insert. by eapply lookup_lt_Some.
Qed.

(** More fuel does not change a result. *)
Lemma remove_register_loop_mono fuel fuel' s r bucket entry entry_idx :
  fuel ≤ fuel' →
  remove_register_loop fuel s r bucket entry entry_idx ≠ OutOfFuel →
  remove_register_loop fuel' s r bucket entry entry_idx
  = remove_register_loop fuel s r bucket entry entry_idx.
Proof.
  revert fuel' s entry entry_idx.
  induction fuel as [|fuel IH]; intros fuel' s entry entry_idx Hle; [done|].
  destruct fuel' as [|fuel']; [lia|]. simpl.
  case_decide; [done|].
  destruct (read (_entries s) entry_idx) as [e| | |]; simpl; try done.
  case_decide; [apply IH; lia|].
  destruct entry as [p|]; simpl.
  - destruct (read (_entries s) p) as [ep| | |]; simpl; try done.
    destruct (write (_entries s) p _) as [es1| | |]; simpl; try done.
    destruct (read es1 entry_idx) as [e'| | |]; simpl; try done.
    destruct (write es1 entry_idx _) as [es2| | |]; simpl; try done.
    destruct (read (_register_count s) _) as [c| | |]; simpl; try done.
    destruct (write (_register_count s) _ _) as [cnt| | |]; simpl; try done.
    destruct (read es2 entry_idx) as [e''| | |]; simpl; try done.
    apply IH; lia.
  - destruct (table_write _ _ _ _) as [tbl| | |]; simpl; try done.
    destruct (read (_entries s) entry_idx) as [e'| | |]; simpl; try done.
    destruct (write (_entries s) entry_idx _) as [es2| | |]; simpl; try done.
    destruct (read (_register_count s) _) as [c| | |]; simpl; try done.
    destruct (write (_register_count s) _ _) as [cnt| | |]; simpl; try done.
    destruct (read es2 entry_idx) as [e''| | |]; simpl; try done.
    apply IH; lia.
Qed.

Lemma set_register_search_mono fuel fuel' es r parent parent_idx :
  fuel ≤ fuel' →
  set_register_search fuel es r parent parent_idx ≠ OutOfFuel →
  set_register_search fuel' es r parent parent_idx
  = set_register_search fuel es r parent parent_idx.
Proof.
  revert fuel' parent parent_idx.
  induction fuel as [|fuel IH]; intros fuel' parent parent_idx Hle; [done|].
  destruct fuel' as [|fuel']; [lia|]. simpl.
  case_decide; [done|].
  destruct (read es parent_idx) as [e| | |]; simpl; try done.
  repeat (case_decide; [done|]). apply IH; lia.
Qed.

Lemma get_register_rule_search_mono fuel fuel' es r entry_idx :
  fuel ≤ fuel' →
  get_register_rule_search fuel es r entry_idx ≠ OutOfFuel →
  get_register_rule_search fuel' es r entry_idx
  = get_register_rule_search fuel es r entry_idx.
Proof.
  revert fuel' entry_idx.
  induction fuel as [|fuel IH]; intros fuel' entry_idx Hle; [done|].
  destruct fuel' as [|fuel']; [lia|]. simpl.
  case_decide; [done|].
  destruct (read es entry_idx) as [e| | |]; simpl; try done.
  case_decide; [|done]. case_decide; [done|]. apply IH; lia.
Qed.

(** ** remove_register *)

(** The state after entry [i] was unlinked from its bucket and put in
    front of the free list represents the ghost table without [i]. *)
Lemma remove_register_rep s F T r c1 i c2 ei es' tbl' row h :
  let d := _table_depth s in
  let b := bucket_of r in
  Rep s F T →
  T d b = c1 ++ i :: c2 →
  _table_stack s !! d = Some row → row !! b = Some h →
  _entries s !! i = Some ei →
  length es' = length (_entries s) →
  (∃ e1, es' !! i = Some e1 ∧ next e1 = _free_list s) →
  (∀ j e0, j ∈ c1 ++ c2 → _entries s !! j = Some e0 →
     ∃ e1, es' !! j = Some e1 ∧ regnum e1 = regnum e0
           ∧ next e1 = if decide (list.last c1 = Some j) then next ei else next e0) →
  (∀ j, j ≠ i → j ∉ c1 ++ c2 → es' !! j = _entries s !! j) →
  length tbl' = length (_table_stack s) →
  Forall (λ row, length row = DWARF_CFA_STACK_BUCKET_COUNT) tbl' →
  (∀ l, l ≠ d → tbl' !! l = _table_stack s !! l) →
  (∃ row', tbl' !! d = Some row'
     ∧ row' !! b = Some (match c1 with [] => next ei | _ => h end)
     ∧ ∀ b', b' ≠ b → row' !! b' = row !! b') →
  (∀ j e, es' !! j = Some e → safe_index (next e)) →
  Rep {| _table_depth := d; _free_list := i;
         _register_count :=
           <[d := Z.of_nat (length (level_idx (T d)) - 1)]> (_register_count s);
         _table_stack := tbl'; _entries := es' |}
      (i :: F) (tupd T d b (c1 ++ c2)).
Proof.
  intros d b HR HT Hrow Hh Hei Hlen (e1 & He1 & Hn1) Hlink Hsame Htl Hrows Hother
    (row' & Hrow' & Hhead & Hrest) Hsafe.
  pose proof (bucket_of_lt r) as Hb. fold b in Hb.
  destruct (rep_storage _ _ _ HR) as (Hel & Hcl & Htl0 & Hrows0).
  pose proof (rep_depth _ _ _ HR) as Hd. fold d in Hd.
  pose proof (rep_nodup _ _ _ HR) as Hnd. fold d in Hnd.
  pose proof (rep_free _ _ _ HR) as Hfree.
  destruct (rep_level _ _ _ HR d (Nat.le_refl _)) as (row0 & Hrow0 & Hcnt & Hbk).
  fold d in Hrow0, Hcnt. assert (row0 = row) as -> by congruence.
  destruct (Hbk b Hb) as (h0 & Hh0 & Hok). fold d in Hok.
  assert (h0 = h) as -> by congruence. rewrite HT in Hok.
  destruct Hok as (Hc & Hbo & Hinj).
  pose proof (chain_NoDup _ _ _ Hc) as Hcnd.
  destruct (seg_lookup _ _ _ _ i Hc) as (Hiv & _); [apply elem_of_app; right; left|].
  assert (i ∈ T d b) as HiT by (rewrite HT; apply elem_of_app; right; left).
  assert (i ∉ c1 ++ c2) as Hic.
  { apply NoDup_app in Hcnd as (_ & Hdisj & (? & _)%NoDup_cons).
    intros [Hi|Hi]%elem_of_app; [|done]. apply (Hdisj i Hi). left. }
  assert (∀ j, j ∈ c1 ++ c2 → j ∈ T d b) as Hsub.
  { intros j Hj. rewrite HT. apply elem_of_app.
    apply elem_of_app in Hj as [?|?]; [by left|right; by right]. }
  assert (∀ j, j ∈ F → j ≠ i ∧ j ∉ c1 ++ c2) as HFd.
  { intros j Hj.
    assert (j ∉ T d b) as Hn.
    { intros Hjc. eapply (rep_free_not_owned _ _ _ j HR); [done|].
      apply owned_elem. exists d, b. eauto. }
    split; [by intros ->|]. intros Hjc. by apply Hn, Hsub. }
  assert (∀ l b' j, l ≤ d → b' < DWARF_CFA_STACK_BUCKET_COUNT → ¬ (l = d ∧ b' = b) →
            j ∈ T l b' → es' !! j = _entries s !! j) as Hframe.
  { intros l b' j Hl Hb' Hne Hj.
    destruct (rep_elsewhere s _ T b l b' j HR Hb Hl Hb' Hne Hj) as (HjF & Hjc).
    fold d in Hjc. apply Hsame; [by intros ->|]. intros Hjc'. by apply Hjc, Hsub. }
  split; simpl.
  - unfold storage; simpl. by rewrite length_insert, Hlen, Htl.
  - done.
  - split_and!; [done..|]. exists e1. split; [done|]. rewrite Hn1.
    eapply seg_frame_eq; [done|]. intros j Hj.
    destruct (HFd j Hj). by apply Hsame.
  - rewrite (owned_split T d b Hb), HT in Hnd. rewrite (owned_tupd T d b _ Hb).
    eapply NoDup_Permutation_proper; [|exact Hnd].
    rewrite <-!(assoc (++)). simpl. by rewrite <-!Permutation_middle.
  - intros l Hl. destruct (decide (l = d)) as [->|Hne].
    + exists row'. simpl. split_and!; [done|..].
      * rewrite list_lookup_insert_eq by lia. do 2 f_equal.
        pose proof (level_idx_tupd_length T d b (c1 ++ c2) Hb) as Heq.
        rewrite HT, !length_app in Heq. simpl in Heq. lia.
      * intros b' Hb'. destruct (decide (b' = b)) as [->|Hnb].
        -- eexists. split; [done|]. unfold tupd. rewrite decide_True by done.
           assert (∀ j e1, j ∈ c1 ++ c2 → es' !! j = Some e1 →
                     ∃ e0, _entries s !! j = Some e0 ∧ regnum e1 = regnum e0) as Hback.
           { intros j e1' Hj He1'.
             destruct (seg_lookup _ _ _ _ j Hc) as (_ & e0 & He0).
             { apply elem_of_app. apply elem_of_app in Hj as [?|?]; [by left|right; by right]. }
             destruct (Hlink j e0 Hj He0) as (e1'' & ? & Hr & _).
             exists e0. split; [done|]. congruence. }
           split_and!.
           ++ eapply chain_unlink; [done..|]. intros j e0 Hj He0.
              destruct (Hlink j e0 Hj He0) as (e1' & ? & _ & ?). eauto.
           ++ intros j e1' Hj He1'. destruct (Hback j e1' Hj He1') as (e0 & He0 & ->).
              eapply Hbo; [|done]. rewrite <-HT. by apply Hsub.
           ++ intros j1 j2 e1' e2' Hj1 Hj2 H1 H2 Heq.
              destruct (Hback j1 e1' Hj1 H1) as (e01 & ? & ?),
                (Hback j2 e2' Hj2 H2) as (e02 & ? & ?).
              eapply (Hinj j1 j2); [rewrite <-HT; by apply Hsub..|done|done|congruence].
        -- destruct (Hbk b' Hb') as (h' & Hh' & Hok'). exists h'.
           rewrite Hrest by done. split; [done|].
           unfold tupd. rewrite decide_False by (by intros [_ ?]).
           eapply bucket_ok_frame; [done|]. intros j Hj.
           apply (Hframe d b'); [done..| |done]. by intros [_ ?].
    + eapply level_ok_frame.
      * apply (rep_level _ _ _ HR l Hl).
      * simpl. by apply Hother.
      * simpl. by rewrite list_lookup_insert_ne.
      * intros b' _. unfold tupd. rewrite decide_False; [done|]. by intros [? _].
      * simpl. intros b' j e0 Hb' Hj He0. exists e0.
        rewrite (Hframe l b'); [done..| |done]. by intros [? _].
  - done.
Qed.

Lemma rep_count_pos s F T b :
  Rep s F T → b < DWARF_CFA_STACK_BUCKET_COUNT → T (_table_depth s) b ≠ [] →
  0 < length (level_idx (T (_table_depth s))) < 256.
Proof.
  intros HR Hb Hne. pose proof (rep_size _ _ _ HR) as Hsz.
  unfold owned in Hsz. rewrite !length_app in Hsz.
  pose proof (level_idx_tupd_length T (_table_depth s) b [] Hb) as Heq. simpl in Heq.
  destruct (T (_table_depth s) b); [done|]. simpl in Heq.
  destruct Hcfg as (_ & ? & ? & _). lia.
Qed.

(** The first part of a removal: the walk to the entry holding the
    register and its unlinking. The loop then goes on from the old head of
    the free list, in the state [s1]. *)
Lemma remove_register_unlink s F T r c1 i c2 ei :
  Rep s F T →
  T (_table_depth s) (bucket_of r) = c1 ++ i :: c2 →
  _entries s !! i = Some ei → regnum ei = r →
  ∃ s1,
    (∀ fuel, remove_register (length c1 + S fuel) s r
             = remove_register_loop fuel s1 r (bucket_of r) (Some i) (_free_list s))
    ∧ Rep s1 (i :: F) (tupd T (_table_depth s) (bucket_of r) (c1 ++ c2))
    ∧ _table_depth s1 = _table_depth s
    ∧ _free_list s1 = i
    ∧ seg (_entries s1) (_free_list s) F INVALID
    ∧ (∀ j, j ≠ i → j ∉ c1 ++ c2 → _entries s1 !! j = _entries s !! j)
    ∧ (∀ j e0, _entries s !! j = Some e0 →
         ∃ e1, _entries s1 !! j = Some e1 ∧ regnum e1 = regnum e0
               ∧ rule e1 = rule e0 ∧ value e1 = value e0)
    ∧ (∀ l, l ≠ _table_depth s →
         _table_stack s1 !! l = _table_stack s !! l
         ∧ _register_count s1 !! l = _register_count s !! l).
Proof.
  intros HR HT Hei Hr.
  set (d := _table_depth s) in *. set (b := bucket_of r) in *.
  pose proof (bucket_of_lt r) as Hb. fold b in Hb.
  destruct (rep_table_read s _ T d b HR (Nat.le_refl _) Hb)
    as (row & h & Hrow & Hh & Hread & Hok).
  rewrite HT in Hok.
  pose proof (bucket_ok_prefix _ _ _ _ _ _ _ Hok Hei) as Hno. rewrite Hr in Hno.
  destruct Hok as (Hc & _).
  pose proof (chain_NoDup _ _ _ Hc) as Hcnd.
  pose proof Hc as Hc'. apply seg_at in Hc' as (Hs1 & Hiv & _).
  destruct (rep_storage _ _ _ HR) as (Hel & Hcl & Htl & Hrows).
  pose proof (rep_depth _ _ _ HR) as Hd. fold d in Hd.
  destruct (rep_level _ _ _ HR d (Nat.le_refl _)) as (row0 & _ & Hcnt & _).
  fold d in Hcnt.
  assert (0 < length (level_idx (T d)) < 256) as Hpos.
  { apply (rep_count_pos s F T b HR Hb). fold d. rewrite HT. by destruct c1. }
  assert (uint8 (Z.of_nat (length (level_idx (T d))) - 1)
          = Z.of_nat (length (level_idx (T d)) - 1)) as Hu8.
  { replace (Z.of_nat (length (level_idx (T d))) - 1)%Z
      with (Z.of_nat (length (level_idx (T d)) - 1)) by lia.
    apply uint8_small. lia. }
  assert (length row = DWARF_CFA_STACK_BUCKET_COUNT) as Hrl'.
  { eapply (Forall_lookup_1 _ _ _ _ Hrows). done. }
  assert (i < length (_entries s)) as Hil by (by eapply lookup_lt_Some).
  assert (seg (_entries s) (_free_list s) F INVALID) as HF by apply (rep_free _ _ _ HR).
  assert (∀ j, j ∈ F → j ≠ i ∧ j ∉ c1 ++ c2) as HFd.
  { intros j Hj.
    assert (j ∉ T d b) as Hn.
    { intros Hjc. eapply (rep_free_not_owned _ _ _ j HR); [done|].
      apply owned_elem. exists d, b. eauto. }
    rewrite HT in Hn. split.
    - intros ->. apply Hn. apply elem_of_app. right. left.
    - intros Hjc. apply Hn. apply elem_of_app.
      apply elem_of_app in Hjc as [?|?]; [by left|right; by right]. }
  destruct (list.last c1) as [p|] eqn:Hlast.
  - (* the entry has a predecessor in the chain *)
    assert (p ∈ c1) as Hp by (by apply last_Some_elem_of).
    destruct (seg_lookup _ _ _ _ p Hs1 Hp) as (_ & ep & Hep).
    assert (p ≠ i) as Hpi.
    { intros ->. apply NoDup_app in Hcnd as (_ & Hdisj & _). apply (Hdisj i Hp). left. }
    assert (p < length (_entries s)) as Hpl by (by eapply lookup_lt_Some).
    eexists. split; [|split].
    + intros fuel. unfold remove_register. fold b d. rewrite Hread. simpl.
      rewrite (remove_register_loop_skip s r b c1 h i); [|done..].
      rewrite from_option_Some_None, Hlast. simpl.
      rewrite decide_False by done. rewrite (read_lookup _ _ _ Hei). simpl.
      rewrite decide_False by (by intros ?).
      rewrite (read_lookup _ _ _ Hep). simpl. rewrite write_lt by done. simpl.
      rewrite (read_lookup _ i ei) by (by rewrite list_lookup_insert_ne).
      simpl. rewrite write_lt by (by rewrite length_insert). simpl.
      fold d. rewrite (read_lookup _ _ _ Hcnt). simpl.
      rewrite write_lt by lia. simpl. rewrite Hu8.
      rewrite (read_lookup _ i (with_next ei (_free_list s)))
        by (apply list_lookup_insert_eq; by rewrite length_insert).
      simpl. done.
    + apply (remove_register_rep s F T r c1 i c2 ei _ _ row h); fold d b; try done.
      * by rewrite !length_insert.
      * eexists. split; [apply list_lookup_insert_eq; by rewrite length_insert|done].
      * intros j e0 Hj He0. rewrite Hlast.
        assert (j ≠ i) as Hji.
        { intros ->. apply NoDup_app in Hcnd as (_ & Hdisj & (Hi2 & _)%NoDup_cons).
          apply elem_of_app in Hj as [Hj|Hj]; [|done]. apply (Hdisj i Hj). left. }
        rewrite list_lookup_insert_ne by done.
        destruct (decide (j = p)) as [->|Hne].
        -- rewrite list_lookup_insert_eq by done.
           simplify_eq. eexists. split; [done|]. simpl. by rewrite decide_True.
        -- rewrite list_lookup_insert_ne by done.
           exists e0. rewrite decide_False by congruence. done.
      * intros j Hji Hjc. rewrite !list_lookup_insert_ne; [done| |done].
        intros ->. apply Hjc. apply elem_of_app. by left.
      * exists row. split_and!; try done. by destruct c1.
      * apply links_safe_insert; [apply links_safe_insert|].
        -- apply (rep_links _ _ _ HR).
        -- by apply (rep_links _ _ _ HR i ei).
        -- by apply (rep_free_safe s F T).
    + simpl. split_and!; try done.
      * eapply seg_frame_eq; [done|]. intros j Hj. destruct (HFd j Hj) as (? & Hn).
        rewrite !list_lookup_insert_ne; [done| |done].
        intros ->. apply Hn. apply elem_of_app. by left.
      * intros j Hji Hjc. rewrite !list_lookup_insert_ne; [done| |done].
        intros ->. apply Hjc. apply elem_of_app. by left.
      * intros j e0 He0. destruct (decide (j = i)) as [->|Hji].
        -- rewrite list_lookup_insert_eq by (by rewrite length_insert).
           simplify_eq. eexists. done.
        -- rewrite list_lookup_insert_ne by done.
           destruct (decide (j = p)) as [->|Hjp].
           ++ rewrite list_lookup_insert_eq by done. simplify_eq. eexists. done.
           ++ rewrite list_lookup_insert_ne by done. eauto.
      * intros l Hl. by rewrite list_lookup_insert_ne.
  - (* the entry is the head of its bucket *)
    apply last_None in Hlast. subst c1. simpl in *. subst h.
    eexists. split; [|split].
    + intros fuel. unfold remove_register. fold b d. rewrite Hread. simpl.
      rewrite decide_False by done. rewrite (read_lookup _ _ _ Hei). simpl.
      rewrite decide_False by (by intros ?).
      unfold table_write. fold d. rewrite (read_lookup _ _ _ Hrow). simpl.
      rewrite write_lt by lia. simpl. rewrite write_lt by lia. simpl.
      rewrite (read_lookup _ _ _ Hei). simpl. rewrite write_lt by done. simpl.
      fold d. rewrite (read_lookup _ _ _ Hcnt). simpl.
      rewrite write_lt by lia. simpl. rewrite Hu8.
      rewrite (read_lookup _ i (with_next ei (_free_list s)))
        by (by apply list_lookup_insert_eq).
      simpl. done.
    + apply (remove_register_rep s F T r [] i c2 ei _ _ row i); fold d b; try done.
      * by rewrite !length_insert.
      * eexists. split; [by apply list_lookup_insert_eq|done].
      * intros j e0 Hj He0. simpl in *.
        assert (j ≠ i) as Hji.
        { intros ->. by apply NoDup_cons in Hcnd as (? & _). }
        rewrite list_lookup_insert_ne by done. exists e0. done.
      * intros j Hji Hjc. by rewrite list_lookup_insert_ne.
      * by rewrite length_insert.
      * apply Forall_insert; [done|]. by rewrite length_insert.
      * intros l Hl. by rewrite list_lookup_insert_ne.
      * exists (<[b := next ei]> row). split_and!.
        -- apply list_lookup_insert_eq. lia.
        -- apply list_lookup_insert_eq. lia.
        -- intros b' Hb'. by rewrite list_lookup_insert_ne.
      * apply links_safe_insert; [apply (rep_links _ _ _ HR)|].
        by apply (rep_free_safe s F T).
    + simpl. split_and!; try done.
      * eapply seg_frame_eq; [done|]. intros j Hj. destruct (HFd j Hj) as (? & Hn).
        by rewrite list_lookup_insert_ne.
      * intros j Hji Hjc. by rewrite list_lookup_insert_ne.
      * intros j e0 He0. destruct (decide (j = i)) as [->|Hji].
        -- rewrite list_lookup_insert_eq by done. simplify_eq. eexists. done.
        -- rewrite list_lookup_insert_ne by done. eauto.
      * intros l Hl. by rewrite !list_lookup_insert_ne.
Qed.

Lemma remove_register_mono fuel fuel' s r :
  fuel ≤ fuel' → remove_register fuel s r ≠ OutOfFuel →
  remove_register fuel' s r = remove_register fuel s r.
Proof.
  intros Hle. unfold remove_register.
  destruct (table_read _ _ _) as [h| | |]; simpl; try done.
  by apply remove_register_loop_mono.
Qed.

Lemma set_register_mono fuel fuel' s r rl v :
  fuel ≤ fuel' → set_register fuel s r rl v ≠ OutOfFuel →
  set_register fuel' s r rl v = set_register fuel s r rl v.
Proof.
  intros Hle. unfold set_register. case_decide; [|done].
  destruct (table_read _ _ _) as [h| | |]; simpl; try done.
  destruct (set_register_search fuel _ _ _ _) as [x| | |] eqn:Hs; simpl;
    intros Hne; try done;
    (rewrite (set_register_search_mono fuel fuel'); [|done|by rewrite Hs]);
    by rewrite Hs.
Qed.

Lemma get_register_rule_mono fuel fuel' s r :
  fuel ≤ fuel' → get_register_rule fuel s r ≠ OutOfFuel →
  get_register_rule fuel' s r = get_register_rule fuel s r.
Proof.
  intros Hle. unfold get_register_rule.
  destruct (table_read _ _ _) as [h| | |]; simpl; try done.
  by apply get_register_rule_search_mono.
Qed.

Lemma remove_register_absent s F T r :
  Rep s F T →
  (∀ i e, i ∈ T (_table_depth s) (bucket_of r) → _entries s !! i = Some e → regnum e ≠ r) →
  ∀ fuel, DWARF_CFA_STACK_MAX_REGISTERS < fuel → remove_register fuel s r = Ok s.
Proof.
  intros HR Hno fuel Hfuel. pose proof (bucket_of_lt r) as Hb.
  destruct (rep_table_read s F T (_table_depth s) (bucket_of r))
    as (row & h & Hrow & Hh & Hread & (Hc & _)); [done..|].
  pose proof (rep_chain_length s F T _ _ HR (Nat.le_refl _) Hb) as Hlen.
  unfold remove_register. rewrite Hread. simpl.
  replace fuel with (length (T (_table_depth s) (bucket_of r))
                     + S (fuel - length (T (_table_depth s) (bucket_of r)) - 1)) by lia.
  rewrite (remove_register_loop_skip s r _ _ h INVALID); [|done..].
  simpl. by rewrite decide_True.
Qed.

(** Removing a register that is present: when no record on the free list
    carries its number, the entry goes back to the free list. *)
Lemma remove_register_present s F T r c1 i c2 ei :
  Rep s F T →
  T (_table_depth s) (bucket_of r) = c1 ++ i :: c2 →
  _entries s !! i = Some ei → regnum ei = r →
  (∀ k, k ∈ F → ¬ reg_at (_entries s) k r) →
  ∃ s1,
    (∀ fuel, DWARF_CFA_STACK_MAX_REGISTERS < fuel → remove_register fuel s r = Ok s1)
    ∧ Rep s1 (i :: F) (tupd T (_table_depth s) (bucket_of r) (c1 ++ c2))
    ∧ _table_depth s1 = _table_depth s
    ∧ (∀ j, j ≠ i → j ∉ c1 ++ c2 → _entries s1 !! j = _entries s !! j)
    ∧ (∀ j e0, _entries s !! j = Some e0 →
         ∃ e1, _entries s1 !! j = Some e1 ∧ regnum e1 = regnum e0
               ∧ rule e1 = rule e0 ∧ value e1 = value e0)
    ∧ (∀ l, l ≠ _table_depth s →
         _table_stack s1 !! l = _table_stack s !! l
         ∧ _register_count s1 !! l = _register_count s !! l).
Proof.
  intros HR HT Hei Hr Hclean.
  destruct (remove_register_unlink s F T r c1 i c2 ei HR HT Hei Hr)
    as (s1 & Hrun & HR1 & Hd1 & Hf1 & HF1 & Hsame & Hkeep & Hother).
  exists s1. split_and!; try done.
  intros fuel Hfuel. pose proof (rep_size _ _ _ HR) as Hsz.
  pose proof (bucket_of_lt r) as Hb.
  pose proof (owned_split T (_table_depth s) (bucket_of r) Hb) as Hperm.
  apply Permutation_length in Hperm. rewrite HT, !length_app in Hperm. simpl in Hperm.
  replace fuel with (length c1 + S (length F + S (fuel - length c1 - length F - 2))) by lia.
  rewrite Hrun. rewrite (remove_register_loop_skip s1 r _ F _ INVALID); [|done|].
  - simpl. by rewrite decide_True.
  - intros k ek Hk Hek Hrk. apply (Hclean k Hk).
    assert (k ∉ T (_table_depth s) (bucket_of r)) as Hn.
    { intros Hkc. eapply (rep_free_not_owned _ _ _ k HR); [done|].
      apply owned_elem. exists (_table_depth s), (bucket_of r). eauto. }
    rewrite HT in Hn. rewrite Hsame in Hek.
    + by exists ek.
    + intros ->. apply Hn. apply elem_of_app. right. left.
    + intros Hkc. apply Hn. apply elem_of_app.
      apply elem_of_app in Hkc as [?|?]; [by left|right; by right].
Qed.

(** Removing a register that is present while a record on the free list
    still carries its number: the call does not return. *)
Lemma remove_register_diverges s F T r i ei k :
  Rep s F T →
  i ∈ T (_table_depth s) (bucket_of r) → _entries s !! i = Some ei → regnum ei = r →
  k ∈ F → reg_at (_entries s) k r →
  ∀ fuel, remove_register fuel s r = OutOfFuel.
Proof.
  intros HR Hi Hei Hr Hk Hkr.
  apply list_elem_of_split in Hi as (c1 & c2 & HT).
  destruct (remove_register_unlink s F T r c1 i c2 ei HR HT Hei Hr)
    as (s1 & Hrun & HR1 & Hd1 & Hf1 & HF1 & Hsame & Hkeep & Hother).
  assert (∀ j, reg_at (_entries s) j r → reg_at (_entries s1) j r) as Hreg.
  { intros j (e0 & He0 & Hr0). destruct (Hkeep j e0 He0) as (e1 & ? & ? & _).
    exists e1. split; [done|congruence]. }
  destruct (chain_find (_entries s1) F r) as [Hno|(F1 & k' & ek' & F2 & HF & Hek' & Hrk' & Hno)].
  { intros j Hj. by eapply seg_lookup. }
  { exfalso. destruct (Hreg k Hkr) as (e1 & He1 & Hr1). by eapply (Hno k). }
  assert (∀ fuel, remove_register (length c1 + S (length F1 + fuel)) s r = OutOfFuel) as Hbig.
  { intros fuel. rewrite Hrun. rewrite HF in HF1.
    pose proof HF1 as HF1'. apply seg_at in HF1' as (Hs & Hkv & _).
    rewrite (remove_register_loop_skip s1 r _ F1 _ k'); [|done..].
    assert (∃ q, from_option Some (Some i) (list.last F1) = Some q
                 ∧ is_Some (_entries s1 !! q)) as (q & -> & Hq).
    { destruct (list.last F1) as [q|] eqn:Hl; simpl.
      - exists q. split; [done|]. eapply seg_lookup; [exact Hs|].
        by apply last_Some_elem_of.
      - exists i. split; [done|]. destruct (Hreg i) as (? & ? & _); [by exists ei|]. eauto. }
    destruct (rep_free _ _ _ HR1) as (_ & Hiv & _).
    apply remove_register_loop_diverges; rewrite ?Hf1; try done.
    - apply Hreg. by exists ei.
    - by exists ek'.
    - destruct (rep_level _ _ _ HR1 _ (Nat.le_refl _)) as (? & _ & ? & _). eauto. }
  intros fuel.
  destruct (remove_register fuel s r) as [x| | |] eqn:Hx; [|done|..];
    rewrite <-(Hbig fuel), <-Hx; symmetry;
    apply remove_register_mono; try lia; by rewrite Hx.
Qed.

Lemma get_register_rule_present s F T r i e :
  Rep s F T →
  i ∈ T (_table_depth s) (bucket_of r) → _entries s !! i = Some e → regnum e = r →
  ∀ fuel, DWARF_CFA_STACK_MAX_REGISTERS < fuel →
    get_register_rule fuel s r = Ok (Some (rule e, value e)).
Proof.
  intros HR Hi He Hr fuel Hfuel. pose proof (bucket_of_lt r) as Hb.
  destruct (rep_table_read s F T (_table_depth s) (bucket_of r))
    as (row & h & Hrow & Hh & Hread & Hok); [done..|].
  pose proof (rep_chain_length s F T _ _ HR (Nat.le_refl _) Hb) as Hlen.
  apply list_elem_of_split in Hi as (c1 & c2 & Hsplit). rewrite Hsplit in Hok, Hlen.
  pose proof (bucket_ok_prefix _ _ _ _ _ _ _ Hok He) as Hno.
  destruct Hok as (Hc & _). apply seg_at in Hc as (Hs1 & Hiv & _).
  rewrite length_app in Hlen.
  unfold get_register_rule. rewrite Hread. simpl.
  apply (get_register_rule_search_present _ _ c1 h i e); try done; [lia|by rewrite <-Hr].
Qed.

Lemma get_register_rule_absent s F T r :
  Rep s F T →
  (∀ i e, i ∈ T (_table_depth s) (bucket_of r) → _entries s !! i = Some e → regnum e ≠ r) →
  ∀ fuel, DWARF_CFA_STACK_MAX_REGISTERS < fuel → get_register_rule fuel s r = Ok None.
Proof.
  intros HR Hno fuel Hfuel. pose proof (bucket_of_lt r) as Hb.
  destruct (rep_table_read s F T (_table_depth s) (bucket_of r))
    as (row & h & Hrow & Hh & Hread & (Hc & _)); [done..|].
  pose proof (rep_chain_length s F T _ _ HR (Nat.le_refl _) Hb) as Hlen.
  unfold get_register_rule. rewrite Hread. simpl.
  apply (get_register_rule_search_absent _ _ _ _ _ Hc); [lia|done].
Qed.

(** ** The constructor *)

Lemma init_free_list_ok n i es :
  i + n ≤ length es →
  ∃ es', init_free_list n i es = Ok es' ∧ length es' = length es
    ∧ ∀ j e, es !! j = Some e →
        es' !! j = Some (if decide (i ≤ j < i + n)
                         then with_next e ((j + 1) mod 256) else e).
Proof.
  revert i es. induction n as [|n IH]; intros i es Hle; simpl.
  - exists es. split_and!; [done..|]. intros j e He. rewrite decide_False by lia. done.
  - destruct (lookup_lt_is_Some_2 es i) as [ei Hei]; [lia|].
    rewrite (read_lookup _ _ _ Hei). simpl. rewrite write_lt by lia. simpl.
    destruct (IH (i + 1) (<[i := with_next ei ((i + 1) mod 256)]> es)) as (es' & Hrun & Hlen & Hes').
    { rewrite length_insert. lia. }
    exists es'. rewrite length_insert in Hlen. split_and!; [done..|].
    intros j e He. destruct (decide (j = i)) as [->|Hne].
    + assert (e = ei) as -> by congruence.
      rewrite (Hes' i (with_next ei ((i + 1) mod 256)))
        by (apply list_lookup_insert_eq; lia).
      rewrite decide_False by lia. by rewrite decide_True by lia.
    + rewrite (Hes' j e) by (by rewrite list_lookup_insert_ne).
      destruct (decide (i + 1 ≤ j < i + 1 + n)), (decide (i ≤ j < i + S n)); done || lia.
Qed.

Lemma seg_seq es i n :
  (∀ j, i ≤ j < i + n → j ≠ INVALID ∧ ∃ e, es !! j = Some e ∧ next e = j + 1) →
  seg es i (seq i n) (i + n).
Proof.
  revert i. induction n as [|n IH]; intros i H; simpl; [lia|].
  destruct (H i) as (Hi & e & He & Hn); [lia|].
  split_and!; [done..|]. exists e. split; [done|]. rewrite Hn.
  replace (i + S n) with ((i + 1) + n) by lia.
  replace (S i) with (i + 1) by lia. apply IH. intros j Hj. apply H. lia.
Qed.

Lemma dwarf_cfa_stack_new_ok mem :
  storage mem →
  ∃ s, dwarf_cfa_stack_new mem = Ok s
    ∧ Rep s (seq 0 DWARF_CFA_STACK_MAX_REGISTERS) (λ _ _, [])
    ∧ _table_depth s = 0.
Proof.
  intros (Hel & Hcl & Htl & Hrows).
  destruct Hcfg as (Hmax & Hinv & Hinv8 & (HB & _) & (HS & _)).
  unfold dwarf_cfa_stack_new.
  destruct (init_free_list_ok DWARF_CFA_STACK_MAX_REGISTERS 0 (_entries mem))
    as (es & -> & Hlen & Hes); [lia|]. simpl.
  destruct (lookup_lt_is_Some_2 es (DWARF_CFA_STACK_MAX_REGISTERS - 1)) as [el Hel']; [lia|].
  rewrite (read_lookup _ _ _ Hel'). simpl. rewrite write_lt by lia. simpl.
  rewrite write_lt by lia. simpl.
  destruct (lookup_lt_is_Some_2 (_table_stack mem) 0) as [row Hrow]; [lia|].
  rewrite (read_lookup _ _ _ Hrow). simpl. rewrite write_lt by lia. simpl.
  assert (length row = DWARF_CFA_STACK_BUCKET_COUNT) as Hrl.
  { eapply (Forall_lookup_1 _ _ _ _ Hrows). done. }
  unfold plcrash_async_memset. rewrite Hrl, invalid_uint8.
  eexists. split; [done|]. split; [|done].
  set (es' := <[DWARF_CFA_STACK_MAX_REGISTERS - 1 := with_next el INVALID]> es).
  assert (∀ j, j < DWARF_CFA_STACK_MAX_REGISTERS - 1 →
            ∃ e, es' !! j = Some e ∧ next e = j + 1) as Hlinks.
  { intros j Hj. destruct (lookup_lt_is_Some_2 (_entries mem) j) as [e He]; [lia|].
    exists (with_next e ((j + 1) mod 256)). unfold es'.
    rewrite list_lookup_insert_ne by lia. rewrite (Hes j e He).
    rewrite decide_True by lia. split; [done|]. apply Nat.mod_small. lia. }
  split; simpl.
  - unfold storage; simpl. rewrite !length_insert. split_and!; try done.
    + unfold es'. rewrite length_insert. lia.
    + apply Forall_insert; [done|]. by rewrite length_replicate.
  - lia.
  - unfold chain.
    replace DWARF_CFA_STACK_MAX_REGISTERS with (S (DWARF_CFA_STACK_MAX_REGISTERS - 1)) at 1
      by lia.
    rewrite seq_S. simpl. apply seg_snoc. split_and!.
    + apply (seg_seq es' 0). intros j Hj. split; [lia|]. apply Hlinks. lia.
    + lia.
    + exists (with_next el INVALID). split; [|done].
      apply list_lookup_insert_eq. lia.
  - unfold owned, below, level_idx. simpl. rewrite flat_map_nil, app_nil_r. apply NoDup_seq.
  - intros l Hl. assert (l = 0) as -> by lia.
    exists (replicate DWARF_CFA_STACK_BUCKET_COUNT INVALID). simpl.
    rewrite !list_lookup_insert_eq by lia. unfold level_idx. rewrite flat_map_nil.
    split_and!; try done. intros b Hb. exists INVALID.
    rewrite lookup_replicate_2 by done. split; [done|].
    split_and!; [done|..]; intros; exfalso; by eapply not_elem_of_nil.
  - intros i e He.
    assert (i < DWARF_CFA_STACK_MAX_REGISTERS) as Hi.
    { apply lookup_lt_Some in He. unfold es' in He. rewrite length_insert in He. lia. }
    destruct (decide (i = DWARF_CFA_STACK_MAX_REGISTERS - 1)) as [->|Hne].
    + unfold es' in He. rewrite list_lookup_insert_eq in He by lia.
      injection He as <-. by left.
    + destruct (Hlinks i) as (e' & He' & Hn); [lia|].
      assert (e' = e) as -> by congruence. right. lia.
Qed.

(** ** The code against the specification's tables *)

Lemma triple_at_lookup es j e :
  es !! j = Some e → triple_at es j = (regnum e, rule e, value e).
Proof. intros He. unfold triple_at. by rewrite (list_lookup_total_correct _ _ _ He). Qed.

Lemma triple_at_frame es es' j e0 e1 :
  es !! j = Some e0 → es' !! j = Some e1 →
  regnum e1 = regnum e0 → rule e1 = rule e0 → value e1 = value e0 →
  triple_at es' j = triple_at es j.
Proof.
  intros H0 H1 Hr Hl Hv.
  rewrite (triple_at_lookup _ _ _ H0), (triple_at_lookup _ _ _ H1). congruence.
Qed.

Lemma view_frame es es' (c : list nat) :
  (∀ j, j ∈ c → is_Some (es !! j)) →
  (∀ j e0, j ∈ c → es !! j = Some e0 →
     ∃ e1, es' !! j = Some e1 ∧ regnum e1 = regnum e0
           ∧ rule e1 = rule e0 ∧ value e1 = value e0) →
  triple_at es' <$> c = triple_at es <$> c.
Proof.
  intros Hin Hfr. apply list_fmap_ext. intros k j Hk.
  assert (j ∈ c) as Hj by (by eapply list_elem_of_lookup_2).
  destruct (Hin j Hj) as [e0 He0].
  destruct (Hfr j e0 Hj He0) as (e1 & He1 & ? & ? & ?). by eapply triple_at_frame.
Qed.

Lemma view_frame_eq es es' (c : list nat) :
  (∀ j, j ∈ c → es' !! j = es !! j) → triple_at es' <$> c = triple_at es <$> c.
Proof.
  intros Heq. apply list_fmap_ext. intros k j Hk.
  assert (j ∈ c) as Hj by (by eapply list_elem_of_lookup_2).
  unfold triple_at. by rewrite !list_lookup_total_alt, Heq.
Qed.

Lemma filter_all {A} (P : A → Prop) `{∀ x, Decision (P x)} (l : list A) :
  (∀ x, x ∈ l → P x) → filter P l = l.
Proof.
  induction l as [|x l IH]; intros Hall; [done|].
  rewrite filter_cons_True by (apply Hall; left). f_equal. apply IH.
  intros y Hy. apply Hall. by right.
Qed.

(** Entries of a well-formed bucket other than the one holding [r] do
    not hold [r]. *)
Lemma bucket_ok_others es b h c i e :
  bucket_ok es b h c → i ∈ c → es !! i = Some e →
  ∀ j ej, j ∈ c → j ≠ i → es !! j = Some ej → regnum ej ≠ regnum e.
Proof.
  intros (_ & _ & Hinj) Hi He j ej Hj Hne Hej Heq. apply Hne. by eapply (Hinj j i).
Qed.

Lemma spec_find_view_present es (c : list nat) i e :
  i ∈ c → es !! i = Some e →
  (∀ j ej, j ∈ c → j ≠ i → es !! j = Some ej → regnum ej ≠ regnum e) →
  (∀ j, j ∈ c → is_Some (es !! j)) →
  spec_find (regnum e) (triple_at es <$> c) = Some (rule e, value e).
Proof.
  intros Hi He Hoth Hin. induction c as [|j c IH]; [by inversion Hi|].
  rewrite fmap_cons. destruct (decide (j = i)) as [->|Hne].
  - rewrite (triple_at_lookup _ _ _ He). simpl. by rewrite decide_True.
  - destruct (Hin j) as [ej Hej]; [left|].
    rewrite (triple_at_lookup _ _ _ Hej). simpl.
    rewrite decide_False by (eapply Hoth; [left|done..]).
    apply IH.
    + apply elem_of_cons in Hi as [?|?]; [congruence|done].
    + intros k ek Hk. apply Hoth. by right.
    + intros k Hk. apply Hin. by right.
Qed.

Lemma spec_find_view_absent es (c : list nat) r :
  (∀ j ej, j ∈ c → es !! j = Some ej → regnum ej ≠ r) →
  (∀ j, j ∈ c → is_Some (es !! j)) →
  spec_find r (triple_at es <$> c) = None.
Proof.
  intros Hno Hin. induction c as [|j c IH]; [done|].
  rewrite fmap_cons. destruct (Hin j) as [ej Hej]; [left|].
  rewrite (triple_at_lookup _ _ _ Hej). simpl.
  rewrite decide_False by (eapply Hno; [left|done]).
  apply IH.
  - intros k ek Hk. apply Hno. by right.
  - intros k Hk. apply Hin. by right.
Qed.

Lemma untouched_below s s' F T T' b :
  Rep s F T → b < DWARF_CFA_STACK_BUCKET_COUNT →
  (∀ l b', l ≠ _table_depth s → T' l b' = T l b') →
  (∀ l, l ≠ _table_depth s →
     _table_stack s' !! l = _table_stack s !! l
     ∧ _register_count s' !! l = _register_count s !! l) →
  (∀ j, j ∉ F → j ∉ T (_table_depth s) b → _entries s' !! j = _entries s !! j) →
  ∀ l, l < _table_depth s → untouched s s' T T' l.
Proof.
  intros HR Hb HT Htc Hes l Hl. destruct (Htc l) as (? & ?); [lia|].
  split_and!; try done.
  - intros b' _. apply HT. lia.
  - intros b' j Hb' Hj.
    destruct (rep_elsewhere s F T b l b' j HR Hb) as (? & ?); [lia|done| |done|].
    + intros [? _]. lia.
    + by apply Hes.
Qed.

Lemma represents_head s T t A b :
  represents s T (t :: A) → b < DWARF_CFA_STACK_BUCKET_COUNT →
  t b = view (_entries s) (T (_table_depth s)) b.
Proof.
  intros (_ & H) Hb. apply (H (_table_depth s)); [done..|]. by rewrite Nat.sub_diag.
Qed.

(** A step that works on the current level only keeps the tables below. *)
Lemma represents_current s s' T T' t t' A :
  represents s T (t :: A) →
  _table_depth s' = _table_depth s →
  (∀ l, l < _table_depth s → untouched s s' T T' l) →
  (∀ b, b < DWARF_CFA_STACK_BUCKET_COUNT →
     t' b = view (_entries s') (T' (_table_depth s)) b) →
  represents s' T' (t' :: A).
Proof.
  intros (Hlen & Hrep) Hd Hunt Hcur. split; [by rewrite Hd|].
  rewrite Hd. intros l t0 b Hl Hb Ht0.
  destruct (decide (l = _table_depth s)) as [->|Hne].
  - rewrite Nat.sub_diag in Ht0. injection Ht0 as <-. by apply Hcur.
  - destruct (Hunt l) as (HT & _ & _ & Hes); [lia|].
    rewrite (Hrep l t0 b); [|done..| ].
    + unfold view. rewrite HT by done. symmetry. apply view_frame_eq.
      intros j Hj. by eapply Hes.
    + destruct (_table_depth s - l) as [|n] eqn:Hn; [lia|]. done.
Qed.

Lemma set_register_Ok_le fuel s r rl v x :
  set_register fuel s r rl v = Ok x → (rl ≤ 255)%Z.
Proof. unfold set_register. by case_decide. Qed.

Lemma set_register_det fuel s r rl v x y :
  set_register fuel s r rl v = Ok x →
  (∀ fuel', DWARF_CFA_STACK_MAX_REGISTERS < fuel' → set_register fuel' s r rl v = Ok y) →
  x = y.
Proof.
  intros Hx Hy.
  specialize (Hy (fuel `max` S DWARF_CFA_STACK_MAX_REGISTERS) ltac:(lia)).
  rewrite (set_register_mono fuel) in Hy; [congruence|lia|by rewrite Hx].
Qed.

Lemma remove_register_det fuel s r x y :
  remove_register fuel s r = Ok x →
  (∀ fuel', DWARF_CFA_STACK_MAX_REGISTERS < fuel' → remove_register fuel' s r = Ok y) →
  x = y.
Proof.
  intros Hx Hy.
  specialize (Hy (fuel `max` S DWARF_CFA_STACK_MAX_REGISTERS) ltac:(lia)).
  rewrite (remove_register_mono fuel) in Hy; [congruence|lia|by rewrite Hx].
Qed.

Lemma get_register_rule_det fuel s r x y :
  get_register_rule fuel s r = Ok x →
  (∀ fuel', DWARF_CFA_STACK_MAX_REGISTERS < fuel' → get_register_rule fuel' s r = Ok y) →
  x = y.
Proof.
  intros Hx Hy.
  specialize (Hy (fuel `max` S DWARF_CFA_STACK_MAX_REGISTERS) ltac:(lia)).
  rewrite (get_register_rule_mono fuel) in Hy; [congruence|lia|by rewrite Hx].
Qed.

Lemma rep_chain_lookup s F T l b j :
  Rep s F T → l ≤ _table_depth s → b < DWARF_CFA_STACK_BUCKET_COUNT →
  j ∈ T l b → is_Some (_entries s !! j).
Proof.
  intros HR Hl Hb Hj. eapply rep_owned_lookup; [done|]. apply owned_elem. eauto.
Qed.

Lemma view_regnum_elem s F T l b r :
  Rep s F T → l ≤ _table_depth s → b < DWARF_CFA_STACK_BUCKET_COUNT →
  r ∈ spec_regnum <$> view (_entries s) (T l) b ↔
  ∃ j e, j ∈ T l b ∧ _entries s !! j = Some e ∧ regnum e = r.
Proof.
  intros HR Hl Hb. unfold view. rewrite <-list_fmap_compose, list_elem_of_fmap. split.
  - intros (j & -> & Hj). destruct (rep_chain_lookup s F T l b j) as [e He]; [done..|].
    exists j, e. split_and!; try done. simpl. by rewrite (triple_at_lookup _ _ _ He).
  - intros (j & e & Hj & He & <-). exists j. split; [|done].
    simpl. by rewrite (triple_at_lookup _ _ _ He).
Qed.

Lemma set_register_refines fuel s r rl v ok s' F T t A :
  Rep s F T → represents s T (t :: A) →
  set_register fuel s r rl v = Ok (ok, s') →
  ∃ F' T', Rep s' F' T'
    ∧ represents s' T' ((if ok then spec_set t r rl v else t) :: A)
    ∧ F' `suffix_of` F
    ∧ _table_depth s' = _table_depth s.
Proof.
  intros HR HA Hrun. pose proof (set_register_Ok_le _ _ _ _ _ _ Hrun) as Hrl.
  pose proof (bucket_of_lt r) as Hb.
  destruct (rep_table_read s F T _ _ HR (Nat.le_refl _) Hb)
    as (row & h & _ & _ & _ & Hok).
  assert (∀ j, j ∈ T (_table_depth s) (bucket_of r) → is_Some (_entries s !! j)) as Hin.
  { intros j Hj. by eapply rep_chain_lookup. }
  destruct (chain_find (_entries s) (T (_table_depth s) (bucket_of r)) r Hin)
    as [Hno|(c1 & i & e & c2 & HT & He & Hr & Hno1)].
  - (* the register is not set at this level *)
    assert (r ∉ spec_regnum <$> t (bucket_of r)) as Hnospec.
    { rewrite (represents_head s T t A) by done.
      rewrite (view_regnum_elem s F T) by done.
      intros (j & e & Hj & He & Hr). by eapply Hno. }
    destruct F as [|f F'].
    + assert ((ok, s') = (false, s)) as [= -> ->].
      { eapply set_register_det; [done|].
        eapply set_register_exhausted; try done. by apply (rep_free_nil s [] T). }
      exists [], T. split_and!; done.
    + destruct (set_register_fresh s f F' T r rl v HR Hrl Hno)
        as (s0 & Hrun0 & HR0 & Hd0 & Hf0 & Hkeep & Hsame & Hother).
      assert ((ok, s') = (true, s0)) as [= -> ->] by (by eapply set_register_det).
      assert (f ∉ T (_table_depth s) (bucket_of r)) as Hfc.
      { intros Hfc. eapply (rep_free_not_owned _ _ _ f HR); [left|].
        apply owned_elem. eauto. }
      eexists F', _. split_and!; [done| |by apply suffix_cons_r|done].
      eapply represents_current; [done..| |].
      * eapply (untouched_below s s0 (f :: F') T _ (bucket_of r)); try done.
        -- intros l b' Hl. unfold tupd. rewrite decide_False; [done|]. by intros [? _].
        -- intros j HjF Hjc. apply Hsame; [|done]. intros ->. apply HjF. left.
      * intros b' Hb'. unfold spec_set, view, tupd.
        destruct (decide (b' = bucket_of r)) as [->|Hnb].
        -- rewrite (decide_False (P := r ∈ _)) by done.
           rewrite !decide_True by done.
           rewrite (represents_head s T t A) by done. unfold view.
           rewrite fmap_app. f_equal.
           ++ symmetry. apply view_frame; [done|]. intros j e0 Hj He0.
              apply Hkeep; [|done]. by intros ->.
           ++ simpl. by rewrite (triple_at_lookup _ _ _ Hf0).
        -- rewrite decide_False by (by intros [_ ?]).
           rewrite (represents_head s T t A) by done. unfold view.
           symmetry. apply view_frame_eq. intros j Hj.
           destruct (rep_elsewhere s _ T (bucket_of r) (_table_depth s) b' j HR)
             as (HjF & Hjc); [done..|by intros [_ ?]|done|].
           apply Hsame; [|done]. intros ->. apply HjF. left.
  - (* the register is set at this level: its entry is overwritten *)
    assert (i ∈ T (_table_depth s) (bucket_of r)) as Hi.
    { rewrite HT. apply elem_of_app. right. left. }
    destruct (set_register_existing s F T r rl v i e HR Hrl Hi He Hr) as (Hrun0 & HR0).
    assert ((ok, s') = (true, with_entries s
              (<[i := {| value := v; regnum := regnum e; rule := uint8 rl;
                         next := next e |}]> (_entries s)))) as [= -> ->]
      by (by eapply set_register_det).
    assert (i < length (_entries s)) as Hil by (by eapply lookup_lt_Some).
    exists F, T. split_and!; [done| |done|done].
    eapply represents_current; [done..| |].
    * eapply (untouched_below s _ F T T (bucket_of r)); try done.
      intros j _ Hjc. simpl. apply list_lookup_insert_ne. by intros ->.
    * intros b' Hb'. unfold spec_set, view. simpl.
      destruct (decide (b' = bucket_of r)) as [->|Hnb].
      -- rewrite decide_True.
         2: { rewrite (represents_head s T t A) by done.
              apply (view_regnum_elem s F T); [done..|]. eauto. }
         rewrite (represents_head s T t A) by done. unfold view.
         rewrite <-list_fmap_compose. apply list_fmap_ext. intros k j Hk. simpl.
         assert (j ∈ T (_table_depth s) (bucket_of r)) as Hj
           by (by eapply list_elem_of_lookup_2).
         destruct (decide (j = i)) as [->|Hne].
         ++ rewrite (triple_at_lookup _ _ _ He). unfold spec_regnum. simpl.
            rewrite decide_True by done.
            erewrite triple_at_lookup; [|by apply list_lookup_insert_eq]. simpl.
            by rewrite Hr.
         ++ destruct (Hin j Hj) as [ej Hej].
            rewrite (triple_at_lookup _ _ _ Hej). unfold spec_regnum. simpl.
            rewrite decide_False.
            2: { rewrite <-Hr. by eapply (bucket_ok_others _ _ _ _ i e Hok). }
            erewrite (triple_at_lookup _ j); [done|].
            by rewrite list_lookup_insert_ne.
      -- rewrite (represents_head s T t A) by done. unfold view.
         symmetry. apply view_frame_eq. intros j Hj.
         destruct (rep_elsewhere s _ T (bucket_of r) (_table_depth s) b' j HR)
           as (HjF & Hjc); [done..|by intros [_ ?]|done|].
         apply list_lookup_insert_ne. by intros ->.
Qed.

Lemma untouched_refl s T l : untouched s s T T l.
Proof. by split_and!. Qed.

(** Whether [remove_register] returns, decided on the state: it does
    unless the register is present while a record on the free list still
    carries its number. *)
Lemma remove_register_cases s F T r :
  Rep s F T →
  (∀ i e, i ∈ T (_table_depth s) (bucket_of r) → _entries s !! i = Some e → regnum e ≠ r)
  ∨ (∃ c1 i e c2, T (_table_depth s) (bucket_of r) = c1 ++ i :: c2
       ∧ _entries s !! i = Some e ∧ regnum e = r
       ∧ ∀ k, k ∈ F → ¬ reg_at (_entries s) k r)
  ∨ (∃ i e k, i ∈ T (_table_depth s) (bucket_of r)
       ∧ _entries s !! i = Some e ∧ regnum e = r
       ∧ k ∈ F ∧ reg_at (_entries s) k r).
Proof.
  intros HR. pose proof (bucket_of_lt r) as Hb.
  destruct (chain_find (_entries s) (T (_table_depth s) (bucket_of r)) r)
    as [Hno|(c1 & i & e & c2 & HT & He & Hr & _)].
  { intros j Hj. by eapply rep_chain_lookup. }
  { by left. }
  right. destruct (chain_find (_entries s) F r) as [Hno|(F1 & k & ek & F2 & HF & Hek & Hrk & _)].
  { intros j Hj. by eapply seg_lookup; [apply (rep_free _ _ _ HR)|]. }
  - left. exists c1, i, e, c2. split_and!; try done.
    intros k Hk (ek & Hek & Hrk). by eapply Hno.
  - right. exists i, e, k. split_and!; try done.
    + rewrite HT. apply elem_of_app. right. left.
    + rewrite HF. apply elem_of_app. right. left.
    + by exists ek.
Qed.

Lemma remove_register_refines fuel s r s' F T t A :
  Rep s F T → represents s T (t :: A) →
  remove_register fuel s r = Ok s' →
  ∃ F' T', Rep s' F' T'
    ∧ represents s' T' (spec_remove t r :: A)
    ∧ _table_depth s' = _table_depth s.
Proof.
  intros HR HA Hrun. pose proof (bucket_of_lt r) as Hb.
  destruct (rep_table_read s F T _ _ HR (Nat.le_refl _) Hb)
    as (row & h & _ & _ & _ & Hok).
  assert (∀ j, j ∈ T (_table_depth s) (bucket_of r) → is_Some (_entries s !! j)) as Hin.
  { intros j Hj. by eapply rep_chain_lookup. }
  destruct (remove_register_cases s F T r HR)
    as [Hno|[(c1 & i & e & c2 & HT & He & Hr & Hclean)|(i & e & k & Hi & He & Hr & Hk & Hkr)]].
  - (* absent: nothing changes *)
    assert (s' = s) as ->.
    { eapply remove_register_det; [done|]. by eapply remove_register_absent. }
    exists F, T. split_and!; try done.
    eapply represents_current; [done..| |].
    + intros l _. apply untouched_refl.
    + intros b' Hb'. rewrite <-(represents_head s T t A) by done.
      unfold spec_remove. case_decide as Hbb; [|done]. subst b'.
      apply filter_all. intros x Hx Hrx.
      assert (r ∈ spec_regnum <$> t (bucket_of r)) as Hrin.
      { apply list_elem_of_fmap. eauto. }
      rewrite (represents_head s T t A) in Hrin by done.
      apply (view_regnum_elem s F T) in Hrin as (j & ej & Hj & Hej & Hrj); [|done..].
      by eapply Hno.
  - (* present, and the free list is clean: the entry is released *)
    destruct (remove_register_present s F T r c1 i c2 e HR HT He Hr Hclean)
      as (s1 & Hrun1 & HR1 & Hd1 & Hsame & Hkeep & Hother).
    assert (s' = s1) as -> by (by eapply remove_register_det).
    assert (i ∈ T (_table_depth s) (bucket_of r)) as Hi.
    { rewrite HT. apply elem_of_app. right. left. }
    assert (∀ j, j ∈ c1 ++ c2 → j ∈ T (_table_depth s) (bucket_of r) ∧ j ≠ i) as Hsub.
    { intros j Hj. rewrite HT in Hok. destruct Hok as (Hc & _).
      apply chain_NoDup, NoDup_app in Hc as (_ & Hdisj & (Hi2 & _)%NoDup_cons).
      rewrite HT. split.
      - apply elem_of_app. apply elem_of_app in Hj as [?|?]; [by left|right; by right].
      - intros ->. apply elem_of_app in Hj as [Hj|Hj]; [|done]. apply (Hdisj i Hj). left. }
    eexists (i :: F), _. split_and!; [done| |done].
    eapply represents_current; [done..| |].
    + eapply (untouched_below s s1 F T _ (bucket_of r)); try done.
      * intros l b' Hl. unfold tupd. rewrite decide_False; [done|]. by intros [? _].
      * intros j _ Hjc. rewrite HT in Hjc. apply Hsame.
        -- intros ->. apply Hjc. apply elem_of_app. right. left.
        -- intros Hj. apply Hjc. apply elem_of_app.
           apply elem_of_app in Hj as [?|?]; [by left|right; by right].
    + intros b' Hb'. unfold spec_remove, view, tupd.
      destruct (decide (b' = bucket_of r)) as [->|Hnb].
      * rewrite decide_True by done.
        rewrite (represents_head s T t A) by done. unfold view. rewrite HT.
        rewrite !fmap_app, fmap_cons, filter_app, filter_cons_False.
        2: { rewrite (triple_at_lookup _ _ _ He). unfold spec_regnum. simpl.
             intros Hne. by apply Hne. }
        assert (∀ c : list nat, (∀ j, j ∈ c → j ∈ c1 ++ c2) →
                  filter (λ x, spec_regnum x ≠ r) (triple_at (_entries s) <$> c)
                  = triple_at (_entries s1) <$> c) as Hpart.
        { intros c Hc. rewrite filter_all.
          - symmetry. apply view_frame.
            + intros j Hj. apply Hin. by apply Hsub, Hc.
            + intros j e0 Hj He0. by apply Hkeep.
          - intros x (j & -> & Hj)%list_elem_of_fmap.
            destruct (Hsub j (Hc j Hj)) as (HjT & Hji).
            destruct (Hin j HjT) as [ej Hej].
            rewrite (triple_at_lookup _ _ _ Hej). unfold spec_regnum. simpl.
            rewrite <-Hr. by eapply (bucket_ok_others _ _ _ _ i e Hok). }
        rewrite !Hpart; [done|..].
        -- intros j Hj. apply elem_of_app. by right.
        -- intros j Hj. apply elem_of_app. by left.
      * rewrite decide_False by (by intros [_ ?]).
        rewrite (represents_head s T t A) by done. unfold view.
        symmetry. apply view_frame_eq. intros j Hj.
        destruct (rep_elsewhere s _ T (bucket_of r) (_table_depth s) b' j HR)
          as (HjF & Hjc); [done..|by intros [_ ?]|done|].
        rewrite HT in Hjc. apply Hsame.
        -- intros ->. apply Hjc. apply elem_of_app. right. left.
        -- intros Hj'. apply Hjc. apply elem_of_app.
           apply elem_of_app in Hj' as [?|?]; [by left|right; by right].
  - (* present, and a stale record of the register is free: no return *)
    by rewrite (remove_register_diverges s F T r i e k) in Hrun.
Qed.

Lemma push_state_refines s ok s' F T A :
  Rep s F T → represents s T A → push_state s = Ok (ok, s') →
  ∃ T', Rep s' F T' ∧ represents s' T' (if ok then spec_empty :: A else A).
Proof.
  intros HR (Hlen & HA) Hrun.
  destruct (decide (_table_depth s + 1 = DWARF_CFA_STACK_MAX_STATES)) as [Hfull|Hroom].
  - rewrite (push_state_full s F T HR Hfull) in Hrun. injection Hrun as <- <-.
    exists T. by split.
  - destruct (push_state_ok s F T HR Hroom)
      as (s0 & Hrun0 & HR0 & Hd0 & Hf0 & He0 & Hother & Hrow & Hcnt).
    rewrite Hrun0 in Hrun. injection Hrun as <- <-.
    eexists. split; [done|]. split; [simpl; by rewrite Hd0, Hlen|].
    rewrite Hd0. intros l t0 b Hl Hb Ht0.
    destruct (decide (l = S (_table_depth s))) as [->|Hne].
    + rewrite Nat.sub_diag in Ht0. injection Ht0 as <-.
      unfold view, tclear. by rewrite decide_True.
    + replace (S (_table_depth s) - l) with (S (_table_depth s - l)) in Ht0 by lia.
      simpl in Ht0. rewrite (HA l t0 b); [|lia|done..].
      unfold view, tclear. rewrite decide_False by done. by rewrite He0.
Qed.

Lemma pop_state_refines s ok s' F T t A :
  Rep s F T → represents s T (t :: A) → pop_state s = Ok (ok, s') →
  Rep s' F T ∧ represents s' T (if ok then A else t :: A).
Proof.
  intros HR (Hlen & HA) Hrun.
  destruct (decide (_table_depth s = 0)) as [Hz|Hnz].
  - unfold pop_state in Hrun. rewrite decide_True in Hrun by done.
    injection Hrun as <- <-. by split.
  - destruct (pop_state_ok s F T HR Hnz) as (Hrun0 & HR0).
    rewrite Hrun0 in Hrun. injection Hrun as <- <-.
    split; [done|]. simpl in *. split; [simpl; lia|].
    simpl. intros l t0 b Hl Hb Ht0. apply (HA l t0 b); [lia|done|].
    replace (_table_depth s - l) with (S (_table_depth s - 1 - l)) by lia. done.
Qed.

(** Every step of the code is a step of the specification's model. *)
Lemma perform_refines fuel o s ok s' F T A :
  Rep s F T → represents s T A → perform fuel o s = Ok (ok, s') →
  ∃ F' T', Rep s' F' T' ∧ represents s' T' (spec_perform o ok A)
    ∧ match o with Remove_register _ => True | _ => F' `suffix_of` F end.
Proof.
  intros HR HA Hrun. destruct A as [|t A]; [by destruct HA|].
  destruct o as [| |r rl v|r]; simpl in *.
  - destruct (push_state_refines _ _ _ _ _ _ HR HA Hrun) as (T' & ? & ?).
    exists F, T'. split_and!; try done; by destruct ok.
  - destruct (pop_state_refines _ _ _ _ _ _ _ HR HA Hrun) as (? & ?).
    exists F, T. split_and!; try done; by destruct ok.
  - destruct (set_register_refines _ _ _ _ _ _ _ _ _ _ _ HR HA Hrun)
      as (F' & T' & ? & ? & ? & _).
    exists F', T'. split_and!; try done; by destruct ok.
  - apply bind_Ok in Hrun as (s0 & Hrun & [= <- <-]).
    destruct (remove_register_refines _ _ _ _ _ _ _ _ HR HA Hrun)
      as (F' & T' & ? & ? & _).
    by exists F', T'.
Qed.

Lemma traced_rep s A : traced s A → ∃ F T, Rep s F T ∧ represents s T A.
Proof.
  induction 1 as [mem s Hmem Hnew|s A fuel o ok s' _ (F & T & HR & HA) Hrun].
  - destruct (dwarf_cfa_stack_new_ok mem Hmem) as (s0 & Hnew0 & HR & Hd).
    assert (s0 = s) as -> by congruence.
    eexists _, _. split; [done|]. split; [simpl; by rewrite Hd|].
    intros l t b Hl Hb. rewrite Hd. destruct l; [|lia]. simpl. by intros [= <-].
  - destruct (perform_refines _ _ _ _ _ _ _ _ HR HA Hrun) as (F' & T' & ? & ? & _). eauto.
Qed.

Lemma reachable_traced s : reachable s → ∃ A, traced s A.
Proof.
  induction 1 as [mem s Hmem Hnew|s fuel o ok s' _ (A & HA) Hrun].
  - eexists. by eapply traced_new.
  - eexists. by eapply traced_step.
Qed.

Lemma traced_reachable s A : traced s A → reachable s.
Proof. induction 1; [by eapply reachable_new|by eapply reachable_step]. Qed.

Lemma reachable_rep s : reachable s → ∃ F T, Rep s F T.
Proof.
  intros (A & HA)%reachable_traced. destruct (traced_rep s A HA) as (F & T & ? & _). eauto.
Qed.

(** ** The iterator *)

Lemma next_bucket_spec es row Tl n bi :
  (∀ b, b < DWARF_CFA_STACK_BUCKET_COUNT → ∃ h, row !! b = Some h ∧ chain es h (Tl b)) →
  bi + n = DWARF_CFA_STACK_BUCKET_COUNT →
  ∃ it', next_bucket n row bi = Ok it'
    ∧ ((flat_map Tl (seq bi n) = []
        ∧ it' = {| _bucket_idx := DWARF_CFA_STACK_BUCKET_COUNT;
                   _cur_entry_idx := INVALID |})
       ∨ (∃ c2, _bucket_idx it' < DWARF_CFA_STACK_BUCKET_COUNT
            ∧ _cur_entry_idx it' ≠ INVALID
            ∧ Tl (_bucket_idx it') = _cur_entry_idx it' :: c2
            ∧ flat_map Tl (seq bi n)
              = _cur_entry_idx it' :: c2
                ++ flat_map Tl (seq (S (_bucket_idx it'))
                                  (DWARF_CFA_STACK_BUCKET_COUNT - S (_bucket_idx it'))))).
Proof.
  intros Hrow. revert bi. induction n as [|n IH]; intros bi Hbi; simpl.
  - eexists. split; [done|]. left. split; [done|]. f_equal. lia.
  - rewrite decide_True by lia. destruct (Hrow bi) as (h & Hh & Hc); [lia|].
    rewrite (read_lookup _ _ _ Hh). simpl.
    unfold chain in Hc. destruct (Tl bi) as [|i c2] eqn:HTl; simpl in Hc.
    + subst h. rewrite decide_False by (by intros ?).
      destruct (IH (bi + 1)) as (it' & Hrun & Hcase); [lia|].
      replace (bi + 1) with (S bi) in * by lia.
      exists it'. split; [done|]. simpl. done.
    + destruct Hc as (-> & Hi & _). rewrite decide_True by done.
      eexists. split; [done|]. right. exists c2. simpl.
      replace (DWARF_CFA_STACK_BUCKET_COUNT - S bi) with n by lia.
      split_and!; [lia|done..].
Qed.

(** A call of [next] between buckets, or at the start. *)
Lemma iterator_next_between s F T it rem :
  Rep s F T → _cur_entry_idx it = INVALID →
  _bucket_idx it ≤ DWARF_CFA_STACK_BUCKET_COUNT →
  rem = flat_map (T (_table_depth s))
          (seq (_bucket_idx it) (DWARF_CFA_STACK_BUCKET_COUNT - _bucket_idx it)) →
  ∃ it', iterator_next s it
         = Ok (triple_at (_entries s) <$> head rem, it')
    ∧ iter_at (T (_table_depth s)) it' (tail rem).
Proof.
  intros HR Hcur Hbi Hrem.
  destruct (rep_level _ _ _ HR _ (Nat.le_refl _)) as (row & Hrow & _ & Hbk).
  unfold iterator_next. rewrite Hcur. rewrite decide_False by (by intros ?). simpl.
  rewrite Hcur. rewrite decide_True by done. rewrite (read_lookup _ _ _ Hrow). simpl.
  destruct (next_bucket_spec (_entries s) row (T (_table_depth s))
              (DWARF_CFA_STACK_BUCKET_COUNT - _bucket_idx it) (_bucket_idx it))
    as (it' & -> & [(Hnil & ->)|(c2 & Hb' & Hcv & HT & Hfl)]); [|lia|..].
  - intros b Hb. destruct (Hbk b Hb) as (h & ? & ? & _). eauto.
  - simpl. rewrite decide_True by done. rewrite Hrem, Hnil. simpl.
    eexists. split; [done|]. left. simpl. split_and!; [done..|].
    by rewrite Nat.sub_diag.
  - simpl. rewrite decide_False by done.
    destruct (rep_chain_lookup s F T (_table_depth s) (_bucket_idx it') (_cur_entry_idx it') HR)
      as [e He]; [done..|rewrite HT; left|].
    rewrite (read_lookup _ _ _ He). simpl. rewrite Hrem, Hfl. simpl.
    rewrite (triple_at_lookup _ _ _ He).
    eexists. split; [done|]. right. exists [], c2. by split_and!.
Qed.

Lemma iterator_next_spec s F T it rem :
  Rep s F T → iter_at (T (_table_depth s)) it rem →
  ∃ it', iterator_next s it
         = Ok (triple_at (_entries s) <$> head rem, it')
    ∧ iter_at (T (_table_depth s)) it' (tail rem).
Proof.
  intros HR [(Hcur & Hbi & Hrem)|(c1 & c2 & Hbi & HT & Hrem)].
  { by eapply iterator_next_between. }
  destruct (rep_bucket s F T (_table_depth s) (_bucket_idx it) HR (Nat.le_refl _) Hbi)
    as (row & h & _ & _ & (Hc & _)).
  rewrite HT in Hc. apply seg_at in Hc as (_ & Hiv & e & He & Hc2).
  destruct c2 as [|j c2]; simpl in Hc2.
  - (* the end of the chain: on to the next bucket *)
    simpl in Hrem.
    destruct (iterator_next_between s F T
                {| _bucket_idx := _bucket_idx it + 1; _cur_entry_idx := INVALID |} rem HR)
      as (it' & Hrun & Hat); simpl; [done|lia| |].
    { by replace (_bucket_idx it + 1) with (S (_bucket_idx it)) by lia. }
    exists it'. split; [|done]. rewrite <-Hrun.
    unfold iterator_next. rewrite decide_True by done.
    rewrite (read_lookup _ _ _ He). simpl. rewrite decide_True by done. simpl.
    rewrite (decide_False (P := INVALID ≠ INVALID)) by (by intros ?). simpl.
    by rewrite Hc2.
  - (* the next entry of the chain *)
    destruct Hc2 as (Hn & Hjv & ej & Hej & _).
    unfold iterator_next. rewrite decide_True by done.
    rewrite (read_lookup _ _ _ He). simpl. rewrite Hn.
    rewrite decide_False by done. simpl. rewrite decide_False by done. simpl.
    rewrite decide_False by done. rewrite (read_lookup _ _ _ Hej). simpl.
    rewrite Hrem. simpl. rewrite (triple_at_lookup _ _ _ Hej).
    eexists. split; [done|]. right. exists (c1 ++ [_cur_entry_idx it]), c2. simpl.
    split_and!; [done| |done]. by rewrite <-(assoc (++)).
Qed.

Lemma iterate_spec s F T rem k it :
  Rep s F T → iter_at (T (_table_depth s)) it rem →
  ∃ it', iterate (length rem + k) s it
         = Ok ((Some ∘ triple_at (_entries s) <$> rem) ++ replicate k None, it')
    ∧ iter_at (T (_table_depth s)) it' [].
Proof.
  intros HR. revert it. induction rem as [|i rem IH]; intros it Hat.
  - simpl. revert it Hat. induction k as [|k IHk]; intros it Hat; simpl.
    + by exists it.
    + destruct (iterator_next_spec s F T it [] HR Hat) as (it1 & -> & Hat1). simpl.
      destruct (IHk it1 Hat1) as (it' & -> & Hat'). simpl. by exists it'.
  - simpl. destruct (iterator_next_spec s F T it (i :: rem) HR Hat) as (it1 & -> & Hat1).
    simpl. destruct (IH it1 Hat1) as (it' & -> & Hat'). simpl. by exists it'.
Qed.

Lemma iter_at_new Tl : iter_at Tl dwarf_cfa_stack_iterator_new (level_idx Tl).
Proof. left. simpl. split_and!; [done|lia|]. by rewrite Nat.sub_0_r. Qed.

Lemma flat_map_fmap {A B C} (f : A → list B) (g : B → C) (l : list A) :
  flat_map (λ x, g <$> f x) l = g <$> flat_map f l.
Proof. induction l as [|x l IH]; simpl; [done|]. by rewrite fmap_app, IH. Qed.

(** The enumeration of the specification's table is the list of rules
    chained at the current level. *)
Lemma enumerate_view s T t A :
  represents s T (t :: A) →
  spec_enumerate t = triple_at (_entries s) <$> level_idx (T (_table_depth s)).
Proof.
  intros HA. unfold spec_enumerate, level_idx. rewrite <-flat_map_fmap.
  apply flat_map_ext_elem. intros b [_ Hb]%elem_of_seq.
  apply (represents_head s T t A b HA). lia.
Qed.

(** ** Totality of the operations on represented states *)

Lemma set_register_total s F T r rl v :
  Rep s F T → (rl ≤ 255)%Z →
  ∃ ok s',
    (∀ fuel, DWARF_CFA_STACK_MAX_REGISTERS < fuel →
       set_register fuel s r rl v = Ok (ok, s'))
    ∧ (ok = false ↔
         (∀ i e, i ∈ T (_table_depth s) (bucket_of r) → _entries s !! i = Some e →
            regnum e ≠ r)
         ∧ _free_list s = INVALID)
    ∧ (ok = false → s' = s).
Proof.
  intros HR Hrl. pose proof (bucket_of_lt r) as Hb.
  destruct (chain_find (_entries s) (T (_table_depth s) (bucket_of r)) r)
    as [Hno|(c1 & i & e & c2 & HT & He & Hr & _)].
  { intros j Hj. by eapply rep_chain_lookup. }
  - destruct F as [|f F'].
    + exists false, s. split_and!; try done.
      * eapply set_register_exhausted; try done. by apply (rep_free_nil s [] T).
      * split; [|done]. intros _. split; [done|]. by apply (rep_free_nil s [] T).
    + destruct (set_register_fresh s f F' T r rl v HR Hrl Hno) as (s0 & Hrun0 & _).
      exists true, s0. split_and!; try done. split; [done|].
      intros (_ & Hfree). by apply (rep_free_nil s (f :: F') T) in Hfree.
  - assert (i ∈ T (_table_depth s) (bucket_of r)) as Hi.
    { rewrite HT. apply elem_of_app. right. left. }
    destruct (set_register_existing s F T r rl v i e HR Hrl Hi He Hr) as (Hrun0 & _).
    eexists true, _. split_and!; try done. split; [done|].
    intros (Hno & _). exfalso. by eapply Hno.
Qed.

Lemma get_register_rule_total s F T r :
  Rep s F T →
  ∃ found,
    (∀ fuel, DWARF_CFA_STACK_MAX_REGISTERS < fuel → get_register_rule fuel s r = Ok found)
    ∧ (found = None ↔
         ∀ i e, i ∈ T (_table_depth s) (bucket_of r) → _entries s !! i = Some e →
           regnum e ≠ r).
Proof.
  intros HR.
  destruct (chain_find (_entries s) (T (_table_depth s) (bucket_of r)) r)
    as [Hno|(c1 & i & e & c2 & HT & He & Hr & _)].
  { intros j Hj. eapply rep_chain_lookup; [done..|apply bucket_of_lt|done]. }
  - exists None. split; [by eapply get_register_rule_absent|done].
  - assert (i ∈ T (_table_depth s) (bucket_of r)) as Hi.
    { rewrite HT. apply elem_of_app. right. left. }
    eexists. split; [by eapply get_register_rule_present|].
    split; [done|]. intros Hno. exfalso. by eapply Hno.
Qed.

(** A result other than running out of fuel is the result for any larger
    fuel; so an operation that returns with enough fuel never faults with
    less. *)
Lemma set_register_in_bounds s F T r rl v fuel :
  Rep s F T → set_register fuel s r rl v ≠ OutOfBounds.
Proof.
  intros HR Hoob. destruct (decide (rl ≤ 255)%Z) as [Hrl|Hrl].
  - destruct (set_register_total s F T r rl v HR Hrl) as (ok & s' & Hrun & _).
    specialize (Hrun (fuel `max` S DWARF_CFA_STACK_MAX_REGISTERS) ltac:(lia)).
    rewrite (set_register_mono fuel) in Hrun; [congruence|lia|by rewrite Hoob].
  - unfold set_register in Hoob. by rewrite decide_False in Hoob.
Qed.

Lemma get_register_rule_in_bounds s F T r fuel :
  Rep s F T → get_register_rule fuel s r ≠ OutOfBounds.
Proof.
  intros HR Hoob. destruct (get_register_rule_total s F T r HR) as (found & Hrun & _).
  specialize (Hrun (fuel `max` S DWARF_CFA_STACK_MAX_REGISTERS) ltac:(lia)).
  rewrite (get_register_rule_mono fuel) in Hrun; [congruence|lia|by rewrite Hoob].
Qed.

Lemma remove_register_in_bounds s F T r fuel :
  Rep s F T → remove_register fuel s r ≠ OutOfBounds.
Proof.
  intros HR Hoob.
  assert (∀ s', (∀ fuel', DWARF_CFA_STACK_MAX_REGISTERS < fuel' →
                   remove_register fuel' s r = Ok s') → False) as Hret.
  { intros s' Hrun.
    specialize (Hrun (fuel `max` S DWARF_CFA_STACK_MAX_REGISTERS) ltac:(lia)).
    rewrite (remove_register_mono fuel) in Hrun; [congruence|lia|by rewrite Hoob]. }
  destruct (remove_register_cases s F T r HR)
    as [Hno|[(c1 & i & e & c2 & HT & He & Hr & Hclean)|(i & e & k & Hi & He & Hr & Hk & Hkr)]].
  - eapply Hret. by eapply remove_register_absent.
  - destruct (remove_register_present s F T r c1 i c2 e HR HT He Hr Hclean)
      as (s1 & Hrun1 & _). by eapply Hret.
  - by rewrite (remove_register_diverges s F T r i e k) in Hoob.
Qed.

Lemma iterate_total s F T it rem n :
  Rep s F T → iter_at (T (_table_depth s)) it rem →
  ∃ x, iterate n s it = Ok x.
Proof.
  intros HR. revert it rem. induction n as [|n IH]; intros it rem Hat; simpl; [eauto|].
  destruct (iterator_next_spec s F T it rem HR Hat) as (it1 & -> & Hat1). simpl.
  destruct (IH it1 _ Hat1) as ([xs it2] & ->). simpl. eauto.
Qed.

Lemma sum_lengths (cnt : list Z) (g : nat → list nat) (ls : list nat) :
  (∀ l, l ∈ ls → cnt !! l = Some (Z.of_nat (length (g l)))) →
  foldr Z.add 0%Z ((λ l, default 0%Z (cnt !! l)) <$> ls)
  = Z.of_nat (length (flat_map g ls)).
Proof.
  induction ls as [|l ls IH]; intros Hcnt; [done|].
  rewrite fmap_cons. cbn [foldr flat_map].
  rewrite IH by (intros l' Hl'; apply Hcnt; by right).
  rewrite Hcnt by left. rewrite length_app. simpl. lia.
Qed.

Lemma live_count_owned s F T :
  Rep s F T → live_count s = Z.of_nat (length (owned T (_table_depth s))).
Proof.
  intros HR. unfold live_count. rewrite <-below_S. unfold below.
  apply sum_lengths. intros l [_ Hl]%elem_of_seq.
  destruct (rep_level _ _ _ HR l) as (? & _ & ? & _); [lia|done].
Qed.

(** ** Registers and entries of one level *)

Lemma NoDup_flat_map_inj {A} (f : nat → list A) (ls : list nat) x i j :
  NoDup (flat_map f ls) → i ∈ ls → j ∈ ls → x ∈ f i → x ∈ f j → i = j.
Proof.
  induction ls as [|a ls IH]; intros Hnd Hi Hj Hxi Hxj; [by inversion Hi|].
  simpl in Hnd. apply NoDup_app in Hnd as (_ & Hdisj & Hnd).
  apply elem_of_cons in Hi as [->|Hi], Hj as [->|Hj]; [done|..|by apply IH].
  - exfalso. apply (Hdisj x Hxi). apply elem_of_flat_map. eauto.
  - exfalso. apply (Hdisj x Hxj). apply elem_of_flat_map. eauto.
Qed.

Lemma NoDup_flat_map_part {A} (f : nat → list A) (ls : list nat) i :
  NoDup (flat_map f ls) → i ∈ ls → NoDup (f i).
Proof.
  induction ls as [|a ls IH]; intros Hnd Hi; [by inversion Hi|].
  simpl in Hnd. apply NoDup_app in Hnd as (Ha & _ & Hnd).
  apply elem_of_cons in Hi as [->|Hi]; [done|by apply IH].
Qed.

(** Two buckets of live levels that chain the same entry are the same
    bucket of the same level. *)
Lemma owned_disjoint T d l b l' b' i :
  NoDup (owned T d) → l ≤ d → l' ≤ d →
  b < DWARF_CFA_STACK_BUCKET_COUNT → b' < DWARF_CFA_STACK_BUCKET_COUNT →
  i ∈ T l b → i ∈ T l' b' → l = l' ∧ b = b'.
Proof.
  intros Hnd Hl Hl' Hb Hb' Hi Hi'. rewrite <-below_S in Hnd. unfold below in Hnd.
  assert (l ∈ seq 0 (S d)) as Hls by (apply elem_of_seq; lia).
  assert (l' ∈ seq 0 (S d)) as Hls' by (apply elem_of_seq; lia).
  assert (l = l') as <-.
  { eapply (NoDup_flat_map_inj _ _ i l l' Hnd); [done..| |];
      apply level_idx_elem; eauto. }
  split; [done|].
  pose proof (NoDup_flat_map_part _ _ l Hnd Hls) as Hlev. unfold level_idx in Hlev.
  eapply (NoDup_flat_map_inj _ _ i b b' Hlev); [apply elem_of_seq; lia..|done|done].
Qed.

Lemma rep_level_NoDup s F T : Rep s F T → NoDup (level_idx (T (_table_depth s))).
Proof.
  intros HR. pose proof (rep_nodup _ _ _ HR) as Hnd. unfold owned in Hnd.
  by apply NoDup_app in Hnd as (_ & _ & (_ & _ & ?)%NoDup_app).
Qed.

(** At one level, a register number belongs to one entry. *)
Lemma rep_level_inj s F T j1 j2 e1 e2 :
  Rep s F T →
  j1 ∈ level_idx (T (_table_depth s)) → j2 ∈ level_idx (T (_table_depth s)) →
  _entries s !! j1 = Some e1 → _entries s !! j2 = Some e2 →
  regnum e1 = regnum e2 → j1 = j2.
Proof.
  intros HR (b1 & Hb1 & Hj1)%level_idx_elem (b2 & Hb2 & Hj2)%level_idx_elem H1 H2 Hr.
  destruct (rep_bucket s F T _ b1 HR (Nat.le_refl _) Hb1) as (? & ? & _ & _ & (_ & Hbk1 & Hinj)).
  destruct (rep_bucket s F T _ b2 HR (Nat.le_refl _) Hb2) as (? & ? & _ & _ & (_ & Hbk2 & _)).
  assert (b1 = b2) as <-.
  { rewrite <-(Hbk1 j1 e1 Hj1 H1), <-(Hbk2 j2 e2 Hj2 H2). by rewrite Hr. }
  by eapply (Hinj j1 j2).
Qed.

Lemma level_regnum_NoDup s F T :
  Rep s F T →
  NoDup (spec_regnum <$> (triple_at (_entries s) <$> level_idx (T (_table_depth s)))).
Proof.
  intros HR. rewrite <-list_fmap_compose.
  apply NoDup_fmap_2_strong; [|by eapply rep_level_NoDup].
  intros j1 j2 Hj1 Hj2 Hr.
  destruct (rep_owned_lookup s F T j1 HR) as (_ & e1 & H1).
  { unfold owned. apply elem_of_app. by right. }
  destruct (rep_owned_lookup s F T j2 HR) as (_ & e2 & H2).
  { unfold owned. apply elem_of_app. by right. }
  simpl in Hr. rewrite (triple_at_lookup _ _ _ H1), (triple_at_lookup _ _ _ H2) in Hr.
  by eapply (rep_level_inj s F T j1 j2).
Qed.

Lemma filter_none {A} (P : A → Prop) `{∀ x, Decision (P x)} (l : list A) :
  (∀ x, x ∈ l → ¬ P x) → filter P l = [].
Proof.
  induction l as [|x l IH]; intros Hnone; [done|].
  rewrite filter_cons_False by (apply Hnone; left). apply IH.
  intros y Hy. apply Hnone. by right.
Qed.

Lemma filter_one {A} (f : A → Z) (L : list A) (x : A) :
  NoDup (f <$> L) → x ∈ L → length (filter (λ y, f y = f x) L) = 1.
Proof.
  induction L as [|y L IH]; intros Hnd Hx; [by inversion Hx|].
  rewrite fmap_cons in Hnd. apply NoDup_cons in Hnd as (Hy & Hnd).
  destruct (decide (f y = f x)) as [Heq|Hne].
  - rewrite filter_cons_True by done. simpl. f_equal.
    assert (filter (λ z, f z = f x) L = []) as ->; [|done].
    apply filter_none. intros z Hz Hfz.
    apply Hy. rewrite Heq, <-Hfz. by apply list_elem_of_fmap_2.
  - rewrite filter_cons_False by done. apply IH; [done|].
    apply elem_of_cons in Hx as [->|Hx]; done.
Qed.

(** What a caller observes at the current level is what the
    specification's table says. *)
Lemma traced_observe s t A :
  traced s (t :: A) →
  (∀ r fuel, DWARF_CFA_STACK_MAX_REGISTERS < fuel →
     get_register_rule fuel s r = Ok (spec_get t r))
  ∧ get_register_count s = Ok (Z.of_nat (length (spec_enumerate t)))
  ∧ ∀ k, ∃ it,
      iterate (length (spec_enumerate t) + k) s dwarf_cfa_stack_iterator_new
      = Ok ((Some <$> spec_enumerate t) ++ replicate k None, it).
Proof.
  intros Htr. destruct (traced_rep _ _ Htr) as (F & T & HR & HA).
  pose proof (enumerate_view s T t A HA) as Henum. split_and!.
  - intros r fuel Hfuel. pose proof (bucket_of_lt r) as Hb.
    unfold spec_get. rewrite (represents_head s T t A _ HA Hb). unfold view.
    assert (∀ j, j ∈ T (_table_depth s) (bucket_of r) → is_Some (_entries s !! j)) as Hin.
    { intros j Hj. by eapply rep_chain_lookup. }
    destruct (chain_find (_entries s) (T (_table_depth s) (bucket_of r)) r Hin)
      as [Hno|(c1 & i & e & c2 & HT & He & Hr & _)].
    + rewrite spec_find_view_absent by done. by eapply get_register_rule_absent.
    + assert (i ∈ T (_table_depth s) (bucket_of r)) as Hi.
      { rewrite HT. apply elem_of_app. right. left. }
      destruct (rep_bucket s F T _ _ HR (Nat.le_refl _) Hb) as (? & ? & _ & _ & Hok).
      subst r. rewrite (spec_find_view_present _ _ i e); try done.
      * by eapply get_register_rule_present.
      * intros j ej Hj Hne Hej. by eapply (bucket_ok_others _ _ _ _ i e Hok).
  - unfold get_register_count. rewrite Henum, length_fmap.
    destruct (rep_level _ _ _ HR _ (Nat.le_refl _)) as (? & _ & Hcnt & _).
    by apply read_lookup.
  - intros k.
    destruct (iterate_spec s F T (level_idx (T (_table_depth s))) k _ HR (iter_at_new _))
      as (it & Hrun & _).
    exists it. rewrite Henum, length_fmap, Hrun. by rewrite list_fmap_compose.
Qed.

(** ** Counting entries *)

Lemma owned_tupd_length T d b c :
  b < DWARF_CFA_STACK_BUCKET_COUNT →
  length (owned (tupd T d b c) d) + length (T d b) = length (owned T d) + length c.
Proof.
  intros Hb. pose proof (owned_tupd T d b c Hb) as H1.
  pose proof (owned_split T d b Hb) as H2.
  apply Permutation_length in H1, H2. rewrite length_app in H1, H2. lia.
Qed.

Lemma owned_tclear T d : owned (tclear T (S d)) (S d) = owned T d.
Proof.
  unfold owned at 1. rewrite level_idx_tclear, app_nil_r, <-below_S.
  apply below_ext. intros l b Hl _. unfold tclear. rewrite decide_False; [done|lia].
Qed.

(** What one operation does to the free list [F] and to the entries
    chained at the live levels. *)
Lemma perform_sizes fuel o s ok s' F T :
  Rep s F T → perform fuel o s = Ok (ok, s') →
  ∃ F' T', Rep s' F' T'
    ∧ length F' + length (owned T' (_table_depth s'))
      = length F + length (owned T (_table_depth s))
        - match o, ok with
          | Pop_state, true => length (level_idx (T (_table_depth s)))
          | _, _ => 0
          end.
Proof.
  intros HR Hrun. pose proof (rep_size _ _ _ HR) as Hsz.
  destruct o as [| |r rl v|r]; simpl in Hrun.
  - destruct (decide (_table_depth s + 1 = DWARF_CFA_STACK_MAX_STATES)) as [Hfull|Hroom].
    + rewrite (push_state_full s F T HR Hfull) in Hrun. injection Hrun as <- <-.
      exists F, T. split; [done|lia].
    + destruct (push_state_ok s F T HR Hroom) as (s0 & Hrun0 & HR0 & Hd0 & _).
      assert (ok = true ∧ s0 = s') as [-> ->] by (split; congruence).
      exists F, (tclear T (S (_table_depth s))). split; [done|].
      rewrite Hd0, owned_tclear. lia.
  - destruct (decide (_table_depth s = 0)) as [Hz|Hnz].
    + unfold pop_state in Hrun. rewrite decide_True in Hrun by done.
      injection Hrun as <- <-. exists F, T. split; [done|lia].
    + destruct (pop_state_ok s F T HR Hnz) as (Hrun0 & HR0).
      assert (ok = true ∧ with_table_depth s (_table_depth s - 1) = s') as [-> <-]
        by (split; congruence).
      exists F, T. split; [done|]. simpl.
      destruct (_table_depth s) as [|d] eqn:Hd; [done|].
      replace (S d - 1) with d by lia.
      unfold owned at 2. rewrite below_S, length_app. lia.
  - pose proof (set_register_Ok_le _ _ _ _ _ _ Hrun) as Hrl.
    pose proof (bucket_of_lt r) as Hb.
    destruct (chain_find (_entries s) (T (_table_depth s) (bucket_of r)) r)
      as [Hno|(c1 & i & e & c2 & HT & He & Hr & _)].
    + intros j Hj. by eapply rep_chain_lookup.
    + destruct F as [|f F'].
      * assert ((ok, s') = (false, s)) as [= -> ->].
        { eapply set_register_det; [done|].
          eapply set_register_exhausted; try done. by apply (rep_free_nil s [] T). }
        exists [], T. split; [done|lia].
      * destruct (set_register_fresh s f F' T r rl v HR Hrl Hno)
          as (s0 & Hrun0 & HR0 & Hd0 & _).
        assert ((ok, s') = (true, s0)) as [= -> ->] by (by eapply set_register_det).
        eexists F', _. split; [done|]. rewrite Hd0.
        pose proof (owned_tupd_length T (_table_depth s) (bucket_of r)
                      (T (_table_depth s) (bucket_of r) ++ [f]) Hb) as Hlen.
        rewrite length_app in Hlen. simpl in *. lia.
    + assert (i ∈ T (_table_depth s) (bucket_of r)) as Hi.
      { rewrite HT. apply elem_of_app. right. left. }
      destruct (set_register_existing s F T r rl v i e HR Hrl Hi He Hr) as (Hrun0 & HR0).
      assert ((ok, s') = (true, with_entries s
                (<[i := {| value := v; regnum := regnum e; rule := uint8 rl;
                           next := next e |}]> (_entries s)))) as [= -> ->]
        by (by eapply set_register_det).
      exists F, T. split; [done|]. simpl. lia.
  - apply bind_Ok in Hrun as (s1 & Hrun & [= <- <-]).
    pose proof (bucket_of_lt r) as Hb.
    destruct (remove_register_cases s F T r HR)
      as [Hno|[(c1 & i & e & c2 & HT & He & Hr & Hstale)|(i & e & k & Hi & He & Hr & Hk & Hreg)]].
    + assert (s1 = s) as ->.
      { eapply remove_register_det; [done|]. by apply (remove_register_absent s F T r HR). }
      exists F, T. split; [done|lia].
    + destruct (remove_register_present s F T r c1 i c2 e HR HT He Hr Hstale)
        as (s0 & Hrun0 & HR0 & Hd0 & _).
      assert (s1 = s0) as -> by (by eapply remove_register_det).
      eexists (i :: F), _. split; [done|]. rewrite Hd0.
      pose proof (owned_tupd_length T (_table_depth s) (bucket_of r) (c1 ++ c2) Hb) as Hlen.
      rewrite HT, !length_app in Hlen. simpl in *. lia.
    + by rewrite (remove_register_diverges s F T r i e k HR Hi He Hr Hk Hreg fuel) in Hrun.
Qed.

Lemma traced_level_count s F T A l :
  Rep s F T → represents s T A → l ≤ _table_depth s →
  ∃ t, A !! (_table_depth s - l) = Some t
    ∧ _register_count s !! l = Some (Z.of_nat (length (spec_enumerate t))).
Proof.
  intros HR (Hlen & Hview) Hl.
  destruct (lookup_lt_is_Some_2 A (_table_depth s - l)) as [t Ht]; [lia|].
  exists t. split; [done|].
  destruct (rep_level _ _ _ HR l Hl) as (? & _ & Hcnt & _). rewrite Hcnt.
  do 2 f_equal. unfold spec_enumerate, level_idx.
  rewrite (flat_map_ext_elem t (view (_entries s) (T l))).
  - unfold view. by rewrite flat_map_fmap, length_fmap.
  - intros b [_ Hb]%elem_of_seq. apply (Hview l t b Hl); [lia|done].
Qed.

(** The rules of all the tables of a stack of tables number as many as the
    chains of the levels hold entries. *)
Lemma flat_map_rev_length {X B C} (g : nat → list B) (f : X → list C) (A : list X) :
  (∀ l t, l < length A → A !! (length A - 1 - l) = Some t →
     length (g l) = length (f t)) →
  length (flat_map g (seq 0 (length A))) = length (flat_map f A).
Proof.
  induction A as [|t A IH]; intros Hgf; [done|].
  cbn [length]. rewrite seq_S, flat_map_app, length_app. cbn [flat_map].
  rewrite app_nil_r, length_app, IH.
  - cbn [Nat.add]. rewrite (Hgf (length A) t); [lia|simpl; lia|].
    cbn [length]. by replace (S (length A) - 1 - length A) with 0 by lia.
  - intros l t' Hl Ht'. apply Hgf; [simpl; lia|]. cbn [length].
    replace (S (length A) - 1 - l) with (S (length A - 1 - l)) by lia. done.
Qed.

(** The register counts of the live levels add up to the number of rules
    in the specification's tables: the registers set, counted per live
    level. *)
Lemma traced_live_count s A :
  traced s A → live_count s = Z.of_nat (length (flat_map spec_enumerate A)).
Proof.
  intros Htr. destruct (traced_rep _ _ Htr) as (F & T & HR & HA).
  rewrite (live_count_owned s F T HR), <-below_S. unfold below. f_equal.
  pose proof HA as (Hlen & _). rewrite <-Hlen.
  apply flat_map_rev_length. intros l t Hl Ht.
  destruct (traced_level_count s F T A l HR HA) as (t' & Ht' & Hcnt); [lia|].
  destruct (rep_level _ _ _ HR l) as (? & _ & Hcnt' & _); [lia|].
  assert (t' = t) as ->.
  { rewrite Hlen in Ht. replace (S (_table_depth s) - 1 - l) with (_table_depth s - l) in Ht
      by lia. congruence. }
  rewrite Hcnt in Hcnt'. injection Hcnt' as Hcnt'. lia.
Qed.

(** Without a successful [pop_state] every entry is accounted for: on the
    free list, or chained at a live level. *)
Lemma never_popped_rep s :
  never_popped s →
  ∃ F T, Rep s F T
    ∧ length F + length (owned T (_table_depth s)) = DWARF_CFA_STACK_MAX_REGISTERS.
Proof.
  induction 1 as [mem s Hmem Hnew|s fuel o b s' _ (F & T & HR & Hsum) Hrun Hpop].
  - destruct (dwarf_cfa_stack_new_ok mem Hmem) as (s0 & Hnew0 & HR & Hd).
    assert (s0 = s) as -> by congruence. eexists _, _. split; [done|].
    rewrite Hd, length_seq. unfold owned, below, level_idx. simpl.
    by rewrite flat_map_nil.
  - destruct (perform_sizes _ _ _ _ _ _ _ HR Hrun) as (F' & T' & HR' & Hlen).
    exists F', T'. split; [done|]. rewrite Hlen, Hsum.
    destruct o; try lia. rewrite (Hpop eq_refl). lia.
Qed.

Lemma never_popped_reachable s : never_popped s → reachable s.
Proof. induction 1; [by eapply reachable_new|by eapply reachable_step]. Qed.

(** * The claims *)

(** C7. The depth state machine. [push_state] returns false exactly when
    the depth is at its maximum ([_table_depth + 1 = MAX_STATES]); otherwise
    it increments the depth, sets the register count of the new level to
    zero and every bucket of the new level to the invalid index.
    [pop_state] returns false exactly when the depth is zero; otherwise it
    decrements the depth and touches nothing else. A failing push or pop
    returns the state it was given. The depth of every reachable state is
    below [MAX_STATES]. *)
Theorem depth_state_machine s :
  reachable s →
  _table_depth s < DWARF_CFA_STACK_MAX_STATES
  ∧ (∃ ok s', push_state s = Ok (ok, s')
       ∧ (ok = false ↔ _table_depth s + 1 = DWARF_CFA_STACK_MAX_STATES)
       ∧ (ok = false → s' = s)
       ∧ (ok = true →
            _table_depth s' = _table_depth s + 1
            ∧ get_register_count s' = Ok 0%Z
            ∧ _table_stack s' !! _table_depth s'
              = Some (replicate DWARF_CFA_STACK_BUCKET_COUNT INVALID)))
  ∧ (∃ ok s', pop_state s = Ok (ok, s')
       ∧ (ok = false ↔ _table_depth s = 0)
       ∧ (ok = false → s' = s)
       ∧ (ok = true → s' = with_table_depth s (_table_depth s - 1)
                      ∧ _table_depth s' + 1 = _table_depth s)).
Proof.
  intros (F & T & HR)%reachable_rep. split_and!.
  - apply (rep_depth _ _ _ HR).
  - destruct (decide (_table_depth s + 1 = DWARF_CFA_STACK_MAX_STATES)) as [Hfull|Hroom].
    + exists false, s. split_and!; try done. by apply (push_state_full s F T).
    + destruct (push_state_ok s F T HR Hroom)
        as (s' & Hrun & _ & Hd & _ & _ & _ & Hrow & Hcnt).
      exists true, s'. split_and!; try done.
      intros _. rewrite Hd. split_and!; [lia| |done].
      unfold get_register_count. rewrite Hd. by apply read_lookup.
  - unfold pop_state. destruct (decide (_table_depth s = 0)) as [Hz|Hnz].
    + exists false, s. by split_and!.
    + eexists true, _. split_and!; try done. intros _. split; [done|]. simpl. lia.
Qed.

(** C8. The frame of [push_state], and reclamation by removal only. A
    successful [push_state] leaves every entry record, the free-list head,
    and the bucket row and register count of every level other than the
    new one as they were. After any operation other than
    [remove_register], the free list is a suffix of what it was: nothing
    was put back on it, by [push_state] in particular. *)
Theorem push_state_frame_no_reclaim s :
  reachable s →
  (∀ s', push_state s = Ok (true, s') →
     _entries s' = _entries s
     ∧ _free_list s' = _free_list s
     ∧ ∀ l, l ≠ _table_depth s' →
         _table_stack s' !! l = _table_stack s !! l
         ∧ _register_count s' !! l = _register_count s !! l)
  ∧ (∀ fuel o ok s' F F',
       perform fuel o s = Ok (ok, s') →
       (∀ r, o ≠ Remove_register r) →
       chain (_entries s) (_free_list s) F →
       chain (_entries s') (_free_list s') F' →
       F' `suffix_of` F).
Proof.
  intros (A & Htr)%reachable_traced.
  destruct (traced_rep s A Htr) as (F0 & T & HR & HA). split.
  - intros s' Hrun.
    destruct (decide (_table_depth s + 1 = DWARF_CFA_STACK_MAX_STATES)) as [Hfull|Hroom].
    { by rewrite (push_state_full s F0 T HR Hfull) in Hrun. }
    destruct (push_state_ok s F0 T HR Hroom)
      as (s0 & Hrun0 & _ & Hd & Hf & He & Hother & _).
    assert (s0 = s') as -> by congruence. split_and!; [done..|].
    intros l Hl. apply Hother. by rewrite <-Hd.
  - intros fuel o ok s' F F' Hrun Ho HF HF'.
    destruct (perform_refines _ _ _ _ _ _ _ _ HR HA Hrun) as (F1 & T1 & HR1 & _ & Hsuf).
    rewrite (chain_functional _ _ _ _ HF (rep_free _ _ _ HR)).
    rewrite (chain_functional _ _ _ _ HF' (rep_free _ _ _ HR1)).
    destruct o; try done. by destruct (Ho r).
Qed.

(** C10, amended. Index safety. In every reachable state the free-list
    head, the link of every entry, and every bucket head of every live
    level of the state stack ([0 .. _table_depth]) is the invalid index or
    an index below [MAX_REGISTERS], the invalid index being larger than
    all of those. (The rows of the levels above the depth hold what the
    storage or an earlier stay at that level left there.) No
    traversal reads or writes the entry array out of bounds: whatever the
    fuel, [set_register], [get_register_rule], [remove_register] and any
    number of calls of the iterator's [next] never end out of bounds. *)
Theorem index_safety s :
  reachable s →
  DWARF_CFA_STACK_MAX_REGISTERS < INVALID
  ∧ length (_entries s) = DWARF_CFA_STACK_MAX_REGISTERS
  ∧ safe_index (_free_list s)
  ∧ (∀ i e, _entries s !! i = Some e → safe_index (next e))
  ∧ (∀ l row b h, l ≤ _table_depth s →
       _table_stack s !! l = Some row → row !! b = Some h → safe_index h)
  ∧ (∀ fuel r rl v, set_register fuel s r rl v ≠ OutOfBounds)
  ∧ (∀ fuel r, get_register_rule fuel s r ≠ OutOfBounds)
  ∧ (∀ fuel r, remove_register fuel s r ≠ OutOfBounds)
  ∧ (∀ n, iterate n s dwarf_cfa_stack_iterator_new ≠ OutOfBounds).
Proof.
  intros (F & T & HR)%reachable_rep.
  destruct (rep_storage _ _ _ HR) as (Hel & _ & _ & Hrows). split_and!.
  - by destruct Hcfg as (_ & ? & _).
  - done.
  - by eapply rep_free_safe.
  - apply (rep_links _ _ _ HR).
  - intros l row b h Hl Hrow Hh.
    assert (b < DWARF_CFA_STACK_BUCKET_COUNT) as Hb.
    { rewrite <-(Forall_lookup_1 _ _ _ _ Hrows Hrow). by eapply lookup_lt_Some. }
    destruct (rep_bucket s F T l b HR Hl Hb) as (row' & h' & Hrow' & Hh' & (Hc & _)).
    assert (row' = row) as -> by congruence. assert (h' = h) as -> by congruence.
    unfold chain in Hc. destruct (T l b) as [|i c] eqn:HT; simpl in Hc; [by left|].
    destruct Hc as (-> & _). right. eapply rep_index_lt; [done|].
    apply elem_of_app. right. apply owned_elem. exists l, b. rewrite HT.
    split_and!; [done..|left].
  - intros fuel r rl v. by eapply set_register_in_bounds.
  - intros fuel r. by eapply get_register_rule_in_bounds.
  - intros fuel r. by eapply remove_register_in_bounds.
  - intros n Hoob.
    destruct (iterate_total s F T _ _ n HR (iter_at_new _)) as (x & Hx). congruence.
Qed.

(** C4. When [set_register] fails, and that it then changes nothing.
    On a reachable state the call returns, and it returns false exactly
    when [get_register_rule] finds no entry for the register at the
    current level and the free list is empty; the state returned with
    false is the state given. The pool is used up by the calls that
    succeed: a call that returns true for a register not set at the
    current level takes the head of the free list, which becomes one entry
    shorter, and adds one to the register counts of the live levels; a
    call for a register that is set leaves both as they were. The register
    counts of the live levels add up to the number of rules in the
    specification's tables (the registers set, level by level); with the
    length of the free list they come to at most [MAX_REGISTERS], and to
    exactly [MAX_REGISTERS] as long as no [pop_state] has succeeded. So
    when the counts of the live levels add up to the capacity the free
    list is empty and one more register fails; and in a state reached
    without a successful [pop_state] a register that is not set fails
    exactly then. *)
Theorem set_register_failure_atomic s r rl v :
  reachable s → (rl ≤ 255)%Z →
  ∃ ok s' found,
    (∀ fuel, DWARF_CFA_STACK_MAX_REGISTERS < fuel →
       set_register fuel s r rl v = Ok (ok, s'))
    ∧ (∀ fuel, DWARF_CFA_STACK_MAX_REGISTERS < fuel →
         get_register_rule fuel s r = Ok found)
    ∧ (ok = false ↔ found = None ∧ _free_list s = INVALID)
    ∧ (ok = false → s' = s)
    ∧ (live_count s = Z.of_nat DWARF_CFA_STACK_MAX_REGISTERS →
         _free_list s = INVALID)
    ∧ (∀ A, traced s A →
         live_count s = Z.of_nat (length (flat_map spec_enumerate A)))
    ∧ (∀ F, chain (_entries s) (_free_list s) F →
         (Z.of_nat (length F) + live_count s
          ≤ Z.of_nat DWARF_CFA_STACK_MAX_REGISTERS)%Z
         ∧ (never_popped s →
              (Z.of_nat (length F) + live_count s
               = Z.of_nat DWARF_CFA_STACK_MAX_REGISTERS)%Z)
         ∧ (ok = true → found = None →
              ∃ f F', F = f :: F'
                ∧ chain (_entries s') (_free_list s') F'
                ∧ (live_count s' = live_count s + 1)%Z)
         ∧ (ok = true → found ≠ None →
              chain (_entries s') (_free_list s') F
              ∧ live_count s' = live_count s))
    ∧ (never_popped s →
         (ok = false ↔
          found = None ∧ live_count s = Z.of_nat DWARF_CFA_STACK_MAX_REGISTERS)).
Proof.
  intros (F & T & HR)%reachable_rep Hrl.
  destruct (set_register_total s F T r rl v HR Hrl) as (ok & s' & Hset & Hok & Hsame).
  destruct (get_register_rule_total s F T r HR) as (found & Hget & Hfound).
  pose proof (rep_size _ _ _ HR) as Hsz.
  pose proof (live_count_owned s F T HR) as Hlive.
  pose proof (bucket_of_lt r) as Hb.
  assert (never_popped s →
            length F + length (owned T (_table_depth s)) = DWARF_CFA_STACK_MAX_REGISTERS)
    as Hexact.
  { intros (F1 & T1 & HR1 & Hsum)%never_popped_rep.
    rewrite (chain_functional _ _ _ _ (rep_free _ _ _ HR) (rep_free _ _ _ HR1)).
    assert (Z.of_nat (length (owned T1 (_table_depth s)))
            = Z.of_nat (length (owned T (_table_depth s)))) as Heq.
    { by rewrite <-(live_count_owned s F1 T1 HR1), <-Hlive. }
    lia. }
  exists ok, s', found. split_and!; try done.
  - rewrite Hok, Hfound. done.
  - intros Hfull. rewrite Hlive in Hfull. apply (rep_free_nil s F T HR).
    destruct F; [done|]. simpl in Hsz. lia.
  - intros A HA. by apply traced_live_count.
  - intros F0 HF0.
    assert (F = F0) as <- by (by eapply chain_functional; [apply (rep_free _ _ _ HR)|]).
    split_and!.
    + lia.
    + intros Hnp. specialize (Hexact Hnp). lia.
    + intros -> Hnone.
      assert (∀ i e, i ∈ T (_table_depth s) (bucket_of r) → _entries s !! i = Some e →
                regnum e ≠ r) as Hno by (by apply Hfound).
      destruct F as [|f F'].
      { assert (true = false) as [=]. apply Hok. split; [done|].
        by apply (rep_free_nil s [] T). }
      destruct (set_register_fresh s f F' T r rl v HR Hrl Hno)
        as (s0 & Hrun0 & HR0 & Hd0 & _).
      assert (s0 = s') as ->.
      { specialize (Hset _ (Nat.lt_succ_diag_r _)).
        specialize (Hrun0 _ (Nat.lt_succ_diag_r _)). congruence. }
      exists f, F'. split_and!; [done|apply (rep_free _ _ _ HR0)|].
      rewrite Hlive, (live_count_owned _ _ _ HR0), Hd0.
      pose proof (owned_tupd_length T (_table_depth s) (bucket_of r)
                    (T (_table_depth s) (bucket_of r) ++ [f]) Hb) as Hlen.
      rewrite length_app in Hlen. simpl in Hlen. lia.
    + intros -> Hsome.
      destruct (chain_find (_entries s) (T (_table_depth s) (bucket_of r)) r)
        as [Hno|(c1 & i & e & c2 & HT & He & Hr & _)].
      * intros j Hj. by eapply rep_chain_lookup.
      * destruct Hsome. by apply Hfound.
      * assert (i ∈ T (_table_depth s) (bucket_of r)) as Hi.
        { rewrite HT. apply elem_of_app. right. left. }
        destruct (set_register_existing s F T r rl v i e HR Hrl Hi He Hr) as (Hrun0 & HR0).
        set (s0 := with_entries s _) in *.
        assert (s0 = s') as <-.
        { specialize (Hset _ (Nat.lt_succ_diag_r _)).
          specialize (Hrun0 _ (Nat.lt_succ_diag_r _)). congruence. }
        split; [apply (rep_free _ _ _ HR0)|].
        by rewrite Hlive, (live_count_owned _ _ _ HR0).
  - intros Hnp. specialize (Hexact Hnp).
    rewrite Hok, Hfound, (rep_free_nil s F T HR), Hlive.
    split; intros (? & HF); (split; [done|]).
    + subst F. simpl in Hexact. lia.
    + destruct F; [done|]. simpl in Hexact. lia.
Qed.

(** C6. The iterator is complete and ordered. Let [t] be the table the
    specification's model holds for the current level after the same run:
    per bucket, the rules in the order in which their registers were
    inserted. A fresh iterator, with no mutation between its calls, yields
    the rules of bucket 0, then those of bucket 1, and so on, each bucket
    in insertion order (this is [spec_enumerate t]); after the last one
    [next] returns false on every further call. The rules yielded are those
    for which [get_register_rule] succeeds at the current level, no
    register number comes twice, and every rule sits in the bucket of its
    register number. *)
Theorem iterator_complete_in_order s A :
  traced s A →
  ∃ t A', A = t :: A'
    ∧ (∀ k, ∃ it,
         iterate (length (spec_enumerate t) + k) s dwarf_cfa_stack_iterator_new
         = Ok ((Some <$> spec_enumerate t) ++ replicate k None, it))
    ∧ NoDup (spec_regnum <$> spec_enumerate t)
    ∧ (∀ r rl v,
         (r, rl, v) ∈ spec_enumerate t ↔
         ∀ fuel, DWARF_CFA_STACK_MAX_REGISTERS < fuel →
           get_register_rule fuel s r = Ok (Some (rl, v)))
    ∧ (∀ b x, b < DWARF_CFA_STACK_BUCKET_COUNT → x ∈ t b →
         bucket_of (spec_regnum x) = b).
Proof.
  intros Htr. destruct (traced_rep _ _ Htr) as (F & T & HR & HA).
  destruct A as [|t A']; [by destruct HA|]. exists t, A'. split; [done|].
  destruct (traced_observe s t A' Htr) as (Hget & _ & Hiter).
  pose proof (enumerate_view s T t A' HA) as Henum.
  assert (∀ b j e, b < DWARF_CFA_STACK_BUCKET_COUNT → j ∈ T (_table_depth s) b →
            _entries s !! j = Some e → bucket_of (regnum e) = b) as Hbucket.
  { intros b j e Hb Hj He.
    destruct (rep_bucket s F T _ b HR (Nat.le_refl _) Hb) as (? & ? & _ & _ & (_ & Hbk & _)).
    by eapply Hbk. }
  split_and!.
  - done.
  - rewrite Henum. by eapply level_regnum_NoDup.
  - intros r rl v. rewrite Henum. split.
    + intros (j & Heq & (b & Hb & Hj)%level_idx_elem)%list_elem_of_fmap fuel Hfuel.
      destruct (rep_chain_lookup s F T _ b j HR (Nat.le_refl _) Hb Hj) as [e He].
      rewrite (triple_at_lookup _ _ _ He) in Heq. injection Heq as -> -> ->.
      eapply get_register_rule_present; try done.
      by rewrite (Hbucket b j e).
    + intros Hfound. specialize (Hfound _ (Nat.lt_succ_diag_r _)).
      destruct (chain_find (_entries s) (T (_table_depth s) (bucket_of r)) r)
        as [Hno|(c1 & i & e & c2 & HT & He & Hr & _)].
      { intros j Hj. eapply rep_chain_lookup; [done..|apply bucket_of_lt|done]. }
      * rewrite (get_register_rule_absent s F T r HR Hno) in Hfound; [done|lia].
      * assert (i ∈ T (_table_depth s) (bucket_of r)) as Hi.
        { rewrite HT. apply elem_of_app. right. left. }
        rewrite (get_register_rule_present s F T r i e HR Hi He Hr) in Hfound by lia.
        injection Hfound as <- <-. apply list_elem_of_fmap. exists i. split.
        -- rewrite (triple_at_lookup _ _ _ He). by rewrite Hr.
        -- apply level_idx_elem. exists (bucket_of r). split; [apply bucket_of_lt|done].
  - intros b x Hb Hx. rewrite (represents_head s T t A' b HA Hb) in Hx.
    apply list_elem_of_fmap in Hx as (j & -> & Hj).
    destruct (rep_chain_lookup s F T _ b j HR (Nat.le_refl _) Hb Hj) as [e He].
    rewrite (triple_at_lookup _ _ _ He). unfold spec_regnum. simpl.
    by eapply Hbucket.
Qed.

Lemma set_register_true_present fuel s F T r rl v s1 :
  Rep s F T → set_register fuel s r rl v = Ok (true, s1) →
  ∃ F1 T1 i e, Rep s1 F1 T1
    ∧ i ∈ T1 (_table_depth s1) (bucket_of r)
    ∧ _entries s1 !! i = Some e ∧ regnum e = r.
Proof.
  intros HR Hrun. pose proof (set_register_Ok_le _ _ _ _ _ _ Hrun) as Hrl.
  pose proof (bucket_of_lt r) as Hb.
  destruct (chain_find (_entries s) (T (_table_depth s) (bucket_of r)) r)
    as [Hno|(c1 & i & e & c2 & HT & He & Hr & _)].
  { intros j Hj. by eapply rep_chain_lookup. }
  - destruct F as [|f F'].
    + assert ((true, s1) = (false, s)) as [=].
      eapply set_register_det; [done|].
      eapply set_register_exhausted; try done. by apply (rep_free_nil s [] T).
    + destruct (set_register_fresh s f F' T r rl v HR Hrl Hno)
        as (s0 & Hrun0 & HR0 & Hd0 & Hf0 & _).
      assert ((true, s1) = (true, s0)) as [= ->] by (by eapply set_register_det).
      eexists F', _, f, _. split_and!; [done| |done|done].
      rewrite Hd0. unfold tupd. rewrite decide_True by done.
      apply elem_of_app. right. left.
  - assert (i ∈ T (_table_depth s) (bucket_of r)) as Hi.
    { rewrite HT. apply elem_of_app. right. left. }
    destruct (set_register_existing s F T r rl v i e HR Hrl Hi He Hr) as (Hrun0 & HR0).
    assert ((true, s1) = (true, with_entries s
              (<[i := {| value := v; regnum := regnum e; rule := uint8 rl;
                         next := next e |}]> (_entries s)))) as [= ->]
      by (by eapply set_register_det).
    eexists F, T, i, _. split_and!; [done|done| |].
    + simpl. apply list_lookup_insert_eq. by eapply lookup_lt_Some.
    + done.
Qed.

(** C5. Idempotent update without allocation. After a successful
    [set_register(r, rule1, v1)], a call [set_register(r, rule2, v2)] at
    the same level returns true; it leaves [get_register_count], the
    free-list head and the whole free list as they were;
    [get_register_rule] then returns [rule2] and [v2] for [r], and the
    iterator yields exactly one rule for register [r]. *)
Theorem set_register_update_in_place s r rl1 v1 rl2 v2 fuel1 s1 :
  reachable s →
  set_register fuel1 s r rl1 v1 = Ok (true, s1) →
  (0 ≤ rl2 ≤ 255)%Z →
  ∃ s2 L,
    (∀ fuel, DWARF_CFA_STACK_MAX_REGISTERS < fuel →
       set_register fuel s1 r rl2 v2 = Ok (true, s2))
    ∧ get_register_count s2 = get_register_count s1
    ∧ _free_list s2 = _free_list s1
    ∧ (∀ F, chain (_entries s1) (_free_list s1) F → chain (_entries s2) (_free_list s2) F)
    ∧ (∀ fuel, DWARF_CFA_STACK_MAX_REGISTERS < fuel →
         get_register_rule fuel s2 r = Ok (Some (rl2, v2)))
    ∧ (∀ k, ∃ it,
         iterate (length L + k) s2 dwarf_cfa_stack_iterator_new
         = Ok ((Some <$> L) ++ replicate k None, it))
    ∧ length (filter (λ x, spec_regnum x = r) L) = 1.
Proof.
  intros (F & T & HR)%reachable_rep Hrun1 Hrl2.
  destruct (set_register_true_present _ _ _ _ _ _ _ _ HR Hrun1)
    as (F1 & T1 & i & e & HR1 & Hi & He & Hr).
  destruct (set_register_existing s1 F1 T1 r rl2 v2 i e HR1 (proj2 Hrl2) Hi He Hr)
    as (Hrun2 & HR2).
  set (s2 := with_entries s1 _) in *.
  assert (_entries s2 !! i
          = Some {| value := v2; regnum := regnum e; rule := uint8 rl2; next := next e |})
    as He2.
  { simpl. apply list_lookup_insert_eq. by eapply lookup_lt_Some. }
  assert (i ∈ level_idx (T1 (_table_depth s2))) as Hlev.
  { apply level_idx_elem. exists (bucket_of r). split; [apply bucket_of_lt|done]. }
  exists s2, (triple_at (_entries s2) <$> level_idx (T1 (_table_depth s2))).
  split_and!; try done.
  - intros F' HF'. rewrite (chain_functional _ _ _ _ HF' (rep_free _ _ _ HR1)).
    apply (rep_free _ _ _ HR2).
  - intros fuel Hfuel.
    rewrite (get_register_rule_present s2 F1 T1 r i _ HR2 Hi He2 Hr) by done.
    simpl. unfold uint8. rewrite Z.mod_small by lia. done.
  - intros k.
    destruct (iterate_spec s2 F1 T1 (level_idx (T1 (_table_depth s2))) k _ HR2 (iter_at_new _))
      as (it & Hrun & _).
    exists it. rewrite length_fmap, Hrun. by rewrite list_fmap_compose.
  - rewrite (list_filter_iff _
               (λ y, spec_regnum y = spec_regnum (triple_at (_entries s2) i))).
    2: { intros x. rewrite (triple_at_lookup _ _ _ He2). by rewrite <-Hr. }
    apply (filter_one spec_regnum).
    + by eapply level_regnum_NoDup.
    + by apply list_elem_of_fmap_2.
Qed.

(** A run that stays above depth [d] works on the tables it pushed: the
    tables of the levels [0 .. d] lie untouched underneath. *)
Lemma above_traced d base s1 s2 X :
  length base = S d →
  above d s1 s2 → traced s1 (X ++ base) → X ≠ [] →
  ∃ X', traced s2 (X' ++ base) ∧ X' ≠ [].
Proof.
  intros Hbase Hab Htr HX.
  induction Hab as [s Hd|s1 s2 fuel o ok s3 Hab IH Hrun Hd]; [eauto|].
  destruct (IH Htr) as (X' & Htr2 & HX'). destruct X' as [|x X']; [done|].
  pose proof (traced_step _ _ _ _ _ _ Htr2 Hrun) as Htr3.
  destruct o as [| |r rl v|r]; simpl in Htr3.
  - destruct ok; [by exists (spec_empty :: x :: X')|by exists (x :: X')].
  - destruct ok; [|by exists (x :: X')].
    exists X'. split; [done|]. intros ->.
    destruct (traced_rep _ _ Htr3) as (F & T & _ & Hlen & _). simpl in Hlen. lia.
  - destruct ok; [by eexists (_ :: X')|by exists (x :: X')].
  - by eexists (_ :: X').
Qed.

(** C1. Save/restore round trip. From a reachable state [s] at depth [d],
    let [push_state] succeed, let any operations follow that return and
    keep the depth above [d], and let the matching [pop_state] bring the
    depth back to [d], giving [s3]. Then [s3] shows at depth [d] what [s]
    showed: [get_register_count] returns the same count, which is the
    number of rules; [get_register_rule] returns the same for every
    register; an iterator yields the same rules in the same order. *)
Theorem save_restore_round_trip s s1 s2 s3 :
  reachable s →
  push_state s = Ok (true, s1) →
  above (_table_depth s) s1 s2 →
  pop_state s2 = Ok (true, s3) →
  _table_depth s3 = _table_depth s →
  ∃ L : list (Z * Z * Z),
    get_register_count s = Ok (Z.of_nat (length L))
    ∧ get_register_count s3 = Ok (Z.of_nat (length L))
    ∧ (∀ r, ∃ found, ∀ fuel, DWARF_CFA_STACK_MAX_REGISTERS < fuel →
         get_register_rule fuel s r = Ok found
         ∧ get_register_rule fuel s3 r = Ok found)
    ∧ (∀ k, ∃ it it3,
         iterate (length L + k) s dwarf_cfa_stack_iterator_new
         = Ok ((Some <$> L) ++ replicate k None, it)
         ∧ iterate (length L + k) s3 dwarf_cfa_stack_iterator_new
           = Ok ((Some <$> L) ++ replicate k None, it3)).
Proof.
  intros (A & Htr)%reachable_traced Hpush Hab Hpop Hd.
  destruct (traced_rep _ _ Htr) as (F & T & HR & Hlen & _).
  destruct A as [|t A]; [done|].
  pose proof (traced_step s (t :: A) 0 Push_state true s1 Htr Hpush) as Htr1.
  simpl in Htr1.
  destruct (above_traced _ (t :: A) s1 s2 [spec_empty] Hlen Hab Htr1) as (X & Htr2 & HX);
    [done|].
  destruct X as [|x X]; [done|].
  pose proof (traced_step s2 _ 0 Pop_state true s3 Htr2 Hpop) as Htr3. simpl in Htr3.
  assert (X = []) as ->.
  { destruct (traced_rep _ _ Htr3) as (F3 & T3 & _ & Hlen3 & _).
    rewrite length_app, Hd, <-Hlen in Hlen3. destruct X; [done|simpl in Hlen3; lia]. }
  simpl in Htr3.
  destruct (traced_observe s t A Htr) as (Hget & Hcnt & Hiter).
  destruct (traced_observe s3 t A Htr3) as (Hget3 & Hcnt3 & Hiter3).
  exists (spec_enumerate t). split_and!; try done.
  - intros r. exists (spec_get t r). intros fuel Hfuel. split; [by apply Hget|by apply Hget3].
  - intros k. destruct (Hiter k) as (it & ?), (Hiter3 k) as (it3 & ?). eauto.
Qed.

(** C3, amended. In every reachable state no entry is reachable from two
    places: an entry met on the free list is chained in no bucket of a
    live level, an entry chained in a bucket of a live level is chained in
    no other bucket of a live level, and the free list and every such
    chain meet an entry once only. (An entry may be reachable from
    neither.) *)
Theorem pool_entries_in_one_place_at_most s :
  reachable s →
  ∀ i,
    (on_free_list s i → ∀ l b, l ≤ _table_depth s → ¬ in_bucket s l b i)
    ∧ (∀ l b l' b', l ≤ _table_depth s → l' ≤ _table_depth s →
         in_bucket s l b i → in_bucket s l' b' i → l = l' ∧ b = b')
    ∧ (∀ F, chain (_entries s) (_free_list s) F → NoDup F)
    ∧ (∀ l b row h c, _table_stack s !! l = Some row → row !! b = Some h →
         chain (_entries s) h c → NoDup c).
Proof.
  intros (F & T & HR)%reachable_rep i.
  destruct (rep_storage _ _ _ HR) as (_ & _ & _ & Hrows).
  pose proof (rep_nodup _ _ _ HR) as Hnd.
  assert (∀ l b, l ≤ _table_depth s → in_bucket s l b i →
            b < DWARF_CFA_STACK_BUCKET_COUNT ∧ i ∈ T l b) as Hin.
  { intros l b Hl (row & h & c & Hrow & Hh & Hc & Hi).
    assert (b < DWARF_CFA_STACK_BUCKET_COUNT) as Hb.
    { rewrite <-(Forall_lookup_1 _ _ _ _ Hrows Hrow). by eapply lookup_lt_Some. }
    split; [done|].
    destruct (rep_bucket s F T l b HR Hl Hb) as (row' & h' & Hrow' & Hh' & (Hc' & _)).
    assert (row' = row) as -> by congruence. assert (h' = h) as -> by congruence.
    by rewrite <-(chain_functional _ _ _ _ Hc Hc'). }
  split_and!.
  - intros (F' & HF' & Hi) l b Hl Hbk. destruct (Hin l b Hl Hbk) as (Hb & HiT).
    rewrite (chain_functional _ _ _ _ HF' (rep_free _ _ _ HR)) in Hi.
    apply (rep_free_not_owned s F T i HR Hi). apply owned_elem. eauto.
  - intros l b l' b' Hl Hl' Hbk Hbk'.
    destruct (Hin l b Hl Hbk) as (Hb & HiT), (Hin l' b' Hl' Hbk') as (Hb' & HiT').
    apply NoDup_app in Hnd as (_ & _ & Hnd).
    by eapply (owned_disjoint T (_table_depth s) l b l' b' i).
  - intros F' HF'. by eapply chain_NoDup.
  - intros l b row h c _ _ Hc. by eapply chain_NoDup.
Qed.

(** C2, at its failing inputs. Whenever register [r] is not set at the
    current level while a record that still carries the number [r] lies on
    the free list behind its head, [set_register(r, ...)] succeeds and the
    [remove_register(r)] that follows never returns: it runs out of any
    fuel. *)
Theorem remove_after_set_never_returns s r rl v f F' k fuel0 :
  reachable s → (rl ≤ 255)%Z →
  get_register_rule fuel0 s r = Ok None →
  chain (_entries s) (_free_list s) (f :: F') →
  k ∈ F' → reg_at (_entries s) k r →
  ∃ s1,
    (∀ fuel, DWARF_CFA_STACK_MAX_REGISTERS < fuel →
       set_register fuel s r rl v = Ok (true, s1))
    ∧ ∀ fuel, remove_register fuel s1 r = OutOfFuel.
Proof.
  intros (F & T & HR)%reachable_rep Hrl Hget HF Hk (ek & Hek & Hrk).
  rewrite (chain_functional _ _ _ _ (rep_free _ _ _ HR) HF) in HR.
  destruct (get_register_rule_total s _ T r HR) as (found & Hfound & Habsent).
  assert (None = found) as <- by (by eapply get_register_rule_det).
  destruct (set_register_fresh s f F' T r rl v HR Hrl) as
    (s1 & Hrun & HR1 & Hd1 & Hf1 & Hkeep & _); [by apply Habsent|].
  exists s1. split; [done|].
  assert (k ≠ f) as Hkf.
  { intros ->. pose proof (rep_nodup _ _ _ HR) as Hnd.
    by apply NoDup_app in Hnd as ((? & _)%NoDup_cons & _). }
  destruct (Hkeep k ek Hkf Hek) as (ek1 & Hek1 & Hrk1 & _).
  eapply (remove_register_diverges s1 F' _ r f _ k HR1); try done.
  - rewrite Hd1. unfold tupd. rewrite decide_True by done. apply elem_of_app. right. left.
  - exists ek1. split; [done|congruence].
Qed.

(** ** Concrete runs are reachable *)

Lemma blank_storage_ok : storage blank_storage.
Proof.
  unfold storage, blank_storage; simpl. rewrite !length_replicate. split_and!; try done.
  apply Forall_replicate. by rewrite length_replicate.
Qed.

Lemma run_reachable fuel ops s s' :
  reachable s → run fuel ops s = Ok s' → reachable s'.
Proof.
  revert s. induction ops as [|o ops IH]; intros s Hs Hrun; simpl in Hrun.
  - by injection Hrun as <-.
  - apply bind_Ok in Hrun as ([ok s1] & Hstep & Hrun).
    eapply IH; [|done]. by eapply reachable_step.
Qed.

Lemma scenario_reachable ops s : scenario ops = Ok s → reachable s.
Proof.
  unfold scenario. intros (s0 & Hnew & Hrun)%bind_Ok.
  eapply run_reachable; [|done]. eapply reachable_new; [apply blank_storage_ok|done].
Qed.

Lemma run_results_never_popped fuel ops s bs s' :
  never_popped s → Forall (λ o, o ≠ Pop_state) ops →
  run_results fuel ops s = Ok (bs, s') → never_popped s'.
Proof.
  revert s bs. induction ops as [|o ops IH]; intros s bs Hs Hops Hrun; simpl in Hrun.
  - by injection Hrun as _ <-.
  - apply Forall_cons in Hops as (Ho & Hops).
    apply bind_Ok in Hrun as ([b s1] & Hstep & Hrun).
    apply bind_Ok in Hrun as ([bs1 s2] & Hrun & [= _ <-]).
    eapply IH; [|done..]. by eapply never_popped_step.
Qed.

Lemma walk_chain fuel es h l : walk fuel es h = Some l → chain es h l.
Proof.
  unfold chain. revert h l. induction fuel as [|fuel IH]; intros h l Hw; [done|].
  simpl in Hw. case_decide as Hh.
  - injection Hw as <-. done.
  - destruct (es !! h) as [e|] eqn:He; [|done]. simpl in Hw.
    destruct (walk fuel es (next e)) as [l'|] eqn:Hw'; [|done]. simpl in Hw.
    injection Hw as <-. simpl. split_and!; [done..|]. exists e. split; [done|]. by apply IH.
Qed.

Lemma walk_unique fuel es h l F : walk fuel es h = Some l → chain es h F → F = l.
Proof. intros Hw HF. eapply chain_functional; [done|]. by eapply walk_chain. Qed.

(** * Further properties of the operations *)

(** ** Lookups in the specification's table *)

Lemma spec_find_None r (l : list (Z * Z * Z)) :
  spec_find r l = None ↔ r ∉ spec_regnum <$> l.
Proof.
  induction l as [|x l IH]; simpl.
  - split; [intros _; apply not_elem_of_nil|done].
  - rewrite not_elem_of_cons. case_decide as Hx.
    + split; [done|]. by intros [? _].
    + rewrite IH. split; [by intros ?|by intros [_ ?]].
Qed.

Lemma spec_find_snoc_absent r x (l : list (Z * Z * Z)) :
  r ∉ spec_regnum <$> l →
  spec_find r (l ++ [x]) = spec_find r [x].
Proof.
  induction l as [|y l IH]; [done|].
  rewrite fmap_cons, not_elem_of_cons. intros [Hy Hl]. simpl.
  rewrite decide_False by done. simpl in IH. by rewrite IH.
Qed.

Lemma spec_find_snoc_other r x (l : list (Z * Z * Z)) :
  spec_regnum x ≠ r → spec_find r (l ++ [x]) = spec_find r l.
Proof.
  intros Hx. induction l as [|y l IH]; simpl.
  - by rewrite decide_False.
  - by rewrite IH.
Qed.

Lemma spec_find_replace_same r y (l : list (Z * Z * Z)) :
  spec_regnum y = r → r ∈ spec_regnum <$> l →
  spec_find r ((λ x, if decide (spec_regnum x = r) then y else x) <$> l)
  = Some (y.1.2, y.2).
Proof.
  intros Hy. induction l as [|x l IH]; [by intros ?%elem_of_nil|].
  rewrite !fmap_cons, elem_of_cons. intros Hin. simpl.
  destruct (decide (spec_regnum x = r)) as [Hx|Hx].
  - by rewrite decide_True.
  - rewrite decide_False by done. apply IH. by destruct Hin.
Qed.

Lemma spec_find_replace_other r r' y (l : list (Z * Z * Z)) :
  spec_regnum y = r → r' ≠ r →
  spec_find r' ((λ x, if decide (spec_regnum x = r) then y else x) <$> l)
  = spec_find r' l.
Proof.
  intros Hy Hne. induction l as [|x l IH]; [done|].
  rewrite fmap_cons. simpl. destruct (decide (spec_regnum x = r)) as [Hx|Hx].
  - rewrite !decide_False by congruence. done.
  - by rewrite IH.
Qed.

Lemma spec_get_set_same t r rl v :
  spec_get (spec_set t r rl v) r = Some (uint8 rl, v).
Proof.
  unfold spec_get, spec_set. rewrite decide_True by done.
  case_decide as Hin.
  - by rewrite (spec_find_replace_same r (r, uint8 rl, v)).
  - rewrite spec_find_snoc_absent by done. simpl. by rewrite decide_True.
Qed.

Lemma spec_get_set_other t r rl v r' :
  r' ≠ r → spec_get (spec_set t r rl v) r' = spec_get t r'.
Proof.
  intros Hne. unfold spec_get, spec_set. case_decide as Hb; [|done].
  case_decide as Hin.
  - by apply (spec_find_replace_other r r' (r, uint8 rl, v)).
  - apply spec_find_snoc_other. unfold spec_regnum. simpl. congruence.
Qed.

Lemma spec_get_remove_same t r : spec_get (spec_remove t r) r = None.
Proof.
  unfold spec_get, spec_remove. rewrite decide_True by done.
  apply spec_find_None. intros (x & Hx & Hin%list_elem_of_filter)%list_elem_of_fmap.
  by destruct Hin.
Qed.

Lemma spec_get_remove_other t r r' :
  r' ≠ r → spec_get (spec_remove t r) r' = spec_get t r'.
Proof.
  intros Hne. unfold spec_get, spec_remove. case_decide as Hb; [|done].
  induction (t (bucket_of r')) as [|x l IH]; [done|].
  rewrite filter_cons. destruct (decide (spec_regnum x = r)) as [Hx|Hx].
  - rewrite decide_False by (by intros ?). simpl.
    rewrite decide_False by congruence. done.
  - rewrite decide_True by done. simpl. by rewrite IH.
Qed.

Lemma spec_enumerate_empty : spec_enumerate spec_empty = [].
Proof. unfold spec_enumerate, spec_empty. apply flat_map_nil. Qed.

(** The current table of a traced state, taken apart. *)
Lemma traced_current s A : traced s A → ∃ t A', A = t :: A'.
Proof.
  intros (F & T & _ & Hlen & _)%traced_rep. destruct A as [|t A']; [done|eauto].
Qed.

Lemma traced_count_le s t A :
  traced s (t :: A) → length (spec_enumerate t) ≤ DWARF_CFA_STACK_MAX_REGISTERS.
Proof.
  intros Htr. destruct (traced_rep _ _ Htr) as (F & T & HR & HA).
  rewrite (enumerate_view s T t A HA), length_fmap.
  pose proof (rep_size _ _ _ HR) as Hsz. unfold owned in Hsz.
  rewrite length_app in Hsz. lia.
Qed.

(** ** The constructor *)

(** X1. Whatever the storage held, the constructor returns a stack at
    depth 0 that holds no rule: the register count is zero, no register
    is found, the iterator yields nothing, and all [MAX_REGISTERS] entries
    are on the free list, in index order. *)
Theorem constructor_gives_empty_stack mem :
  storage mem →
  ∃ s, dwarf_cfa_stack_new mem = Ok s
    ∧ _table_depth s = 0
    ∧ get_register_count s = Ok 0%Z
    ∧ (∀ r fuel, DWARF_CFA_STACK_MAX_REGISTERS < fuel →
         get_register_rule fuel s r = Ok None)
    ∧ (∀ k, ∃ it, iterate k s dwarf_cfa_stack_iterator_new = Ok (replicate k None, it))
    ∧ _free_list s = 0
    ∧ chain (_entries s) (_free_list s) (seq 0 DWARF_CFA_STACK_MAX_REGISTERS).
Proof.
  intros Hmem. destruct (dwarf_cfa_stack_new_ok mem Hmem) as (s & Hnew & HR & Hd).
  exists s. pose proof (traced_new mem s Hmem Hnew) as Htr.
  destruct (traced_observe s spec_empty [] Htr) as (Hget & Hcnt & Hiter).
  rewrite spec_enumerate_empty in Hcnt, Hiter. split_and!; try done.
  - apply bind_Ok in Hnew as (? & _ & Hnew). apply bind_Ok in Hnew as (? & _ & Hnew).
    apply bind_Ok in Hnew as (? & _ & Hnew). apply bind_Ok in Hnew as (? & _ & Hnew).
    apply bind_Ok in Hnew as (? & _ & Hnew). apply bind_Ok in Hnew as (? & _ & Hnew).
    by injection Hnew as <-.
  - apply (rep_free _ _ _ HR).
Qed.

(** ** set_register and get_register_rule *)

(** X2. What is set is found: after [set_register(r, rule, value)] has
    returned true, [get_register_rule(r)] returns that rule and that
    value. *)
Theorem set_register_then_get s r rl v fuel s' :
  reachable s → (0 ≤ rl)%Z →
  set_register fuel s r rl v = Ok (true, s') →
  ∀ fuel', DWARF_CFA_STACK_MAX_REGISTERS < fuel' →
    get_register_rule fuel' s' r = Ok (Some (rl, v)).
Proof.
  intros (A & Htr)%reachable_traced Hrl Hset fuel' Hfuel.
  destruct (traced_current _ _ Htr) as (t & A' & ->).
  pose proof (traced_step s _ fuel (Set_register r rl v) true s' Htr Hset) as Htr'.
  simpl in Htr'. destruct (traced_observe _ _ _ Htr') as (Hget & _).
  rewrite Hget by done. rewrite spec_get_set_same. unfold uint8.
  pose proof (set_register_Ok_le _ _ _ _ _ _ Hset). by rewrite Z.mod_small by lia.
Qed.

(** X3. [set_register(r, ...)] leaves every other register as it was:
    whether it returns true or false, [get_register_rule] returns for any
    [r'] other than [r] what it returned before. *)
Theorem set_register_keeps_other_registers s r rl v fuel ok s' r' :
  reachable s →
  set_register fuel s r rl v = Ok (ok, s') → r' ≠ r →
  ∃ found, ∀ fuel', DWARF_CFA_STACK_MAX_REGISTERS < fuel' →
    get_register_rule fuel' s r' = Ok found
    ∧ get_register_rule fuel' s' r' = Ok found.
Proof.
  intros (A & Htr)%reachable_traced Hset Hne.
  destruct (traced_current _ _ Htr) as (t & A' & ->).
  pose proof (traced_step s _ fuel (Set_register r rl v) ok s' Htr Hset) as Htr'.
  simpl in Htr'. destruct (traced_observe _ _ _ Htr) as (Hget & _).
  exists (spec_get t r'). intros fuel' Hfuel. split; [by apply Hget|].
  destruct ok.
  - destruct (traced_observe _ _ _ Htr') as (Hget' & _).
    rewrite Hget' by done. by rewrite spec_get_set_other.
  - destruct (traced_observe _ _ _ Htr') as (Hget' & _). by apply Hget'.
Qed.

Lemma flat_map_length_upd {A} (f g : nat → list A) (n b : nat) :
  b < n → (∀ x, x ≠ b → f x = g x) →
  length (flat_map f (seq 0 n)) + length (g b)
  = length (flat_map g (seq 0 n)) + length (f b).
Proof.
  intros Hb Hfg. induction n as [|n IH]; [lia|].
  rewrite seq_S, !flat_map_app, !length_app. simpl. rewrite !app_nil_r.
  destruct (decide (b = n)) as [->|Hne].
  - rewrite (flat_map_ext_elem f g (seq 0 n)); [lia|].
    intros x [_ Hx]%elem_of_seq. apply Hfg. lia.
  - rewrite (Hfg n) by done. specialize (IH ltac:(lia)). lia.
Qed.

Lemma spec_enumerate_set_length t r rl v :
  length (spec_enumerate (spec_set t r rl v))
  = length (spec_enumerate t) + match spec_get t r with Some _ => 0 | None => 1 end.
Proof.
  pose proof (flat_map_length_upd (spec_set t r rl v) t
                DWARF_CFA_STACK_BUCKET_COUNT (bucket_of r) (bucket_of_lt r)) as Hlen.
  unfold spec_enumerate. rewrite <-Nat.add_cancel_r, Hlen.
  2: { intros x Hx. unfold spec_set. by rewrite decide_False. }
  unfold spec_set, spec_get. rewrite decide_True by done.
  destruct (spec_find r (t (bucket_of r))) as [x|] eqn:Hfind.
  - rewrite decide_True.
    + rewrite length_fmap. lia.
    + destruct (decide (r ∈ spec_regnum <$> t (bucket_of r))) as [|Hno]; [done|].
      apply spec_find_None in Hno. congruence.
  - rewrite decide_False by (by apply spec_find_None).
    rewrite length_app. simpl. lia.
Qed.

(** X4. How [set_register] moves the register count: a call that returns
    true adds one when the register was not set at the current level, and
    leaves the count as it was when the register was set already; the
    count stays within the capacity of the pool, so the [uint8_t] never
    wraps. *)
Theorem set_register_count s r rl v fuel s' :
  reachable s →
  set_register fuel s r rl v = Ok (true, s') →
  ∃ (n : nat) found,
    get_register_count s = Ok (Z.of_nat n)
    ∧ (∀ fuel', DWARF_CFA_STACK_MAX_REGISTERS < fuel' →
         get_register_rule fuel' s r = Ok found)
    ∧ get_register_count s'
      = Ok (Z.of_nat (match found with Some _ => n | None => n + 1 end))
    ∧ match found with Some _ => n | None => n + 1 end ≤ DWARF_CFA_STACK_MAX_REGISTERS.
Proof.
  intros (A & Htr)%reachable_traced Hset.
  destruct (traced_current _ _ Htr) as (t & A' & ->).
  pose proof (traced_step s _ fuel (Set_register r rl v) true s' Htr Hset) as Htr'.
  simpl in Htr'. destruct (traced_observe _ _ _ Htr) as (Hget & Hcnt & _).
  destruct (traced_observe _ _ _ Htr') as (_ & Hcnt' & _).
  pose proof (traced_count_le _ _ _ Htr') as Hle.
  rewrite spec_enumerate_set_length in Hcnt', Hle.
  exists (length (spec_enumerate t)), (spec_get t r). split_and!; [done|by auto|..].
  - rewrite Hcnt'. by destruct (spec_get t r); rewrite ?Nat.add_0_r.
  - by destruct (spec_get t r); rewrite ?Nat.add_0_r in Hle.
Qed.

(** ** get_register_count *)

(** X5. [get_register_count] is the number of rules of the current level:
    there is a list of rules, no register number twice in it, that names
    exactly the registers [get_register_rule] finds, that the iterator
    yields, and whose length the count is. The counts of the live levels
    add up to at most the capacity of the pool. *)
Theorem register_count_is_number_of_rules s :
  reachable s →
  ∃ L : list (Z * Z * Z),
    get_register_count s = Ok (Z.of_nat (length L))
    ∧ length L ≤ DWARF_CFA_STACK_MAX_REGISTERS
    ∧ NoDup (spec_regnum <$> L)
    ∧ (∀ r, r ∈ spec_regnum <$> L ↔
         ∃ x, ∀ fuel, DWARF_CFA_STACK_MAX_REGISTERS < fuel →
           get_register_rule fuel s r = Ok (Some x))
    ∧ (∀ k, ∃ it,
         iterate (length L + k) s dwarf_cfa_stack_iterator_new
         = Ok ((Some <$> L) ++ replicate k None, it))
    ∧ (0 ≤ live_count s ≤ Z.of_nat DWARF_CFA_STACK_MAX_REGISTERS)%Z.
Proof.
  intros (A & Htr)%reachable_traced.
  destruct (traced_current _ _ Htr) as (t & A' & ->).
  destruct (traced_observe _ _ _ Htr) as (Hget & Hcnt & Hiter).
  destruct (traced_rep _ _ Htr) as (F & T & HR & HA).
  pose proof (enumerate_view s T t A' HA) as Henum.
  exists (spec_enumerate t). split_and!; try done.
  - by eapply traced_count_le.
  - rewrite Henum. by eapply level_regnum_NoDup.
  - intros r. split.
    + intros (x & Hx & Hin)%list_elem_of_fmap.
      apply elem_of_flat_map in Hin as (b & Hb & Hin).
      apply elem_of_seq in Hb as (_ & Hb). simpl in Hb.
      rewrite (represents_head s T t A' b HA Hb) in Hin.
      apply list_elem_of_fmap in Hin as (j & Hj & Hin).
      destruct (rep_chain_lookup s F T _ b j HR (Nat.le_refl _) Hb Hin) as [e He].
      rewrite (triple_at_lookup _ _ _ He) in Hj. subst x. unfold spec_regnum in Hx.
      simpl in Hx. subst r.
      destruct (rep_bucket s F T _ b HR (Nat.le_refl _) Hb) as (? & ? & _ & _ & (_ & Hbk & _)).
      exists (rule e, value e). intros fuel Hfuel.
      eapply get_register_rule_present; try done. by rewrite (Hbk j e).
    + intros (x & Hx). specialize (Hx _ (Nat.lt_succ_diag_r _)).
      rewrite Hget in Hx by lia. injection Hx as Hx.
      destruct (decide (r ∈ spec_regnum <$> t (bucket_of r))) as [Hin|Hno].
      * apply list_elem_of_fmap in Hin as (y & -> & Hin). apply list_elem_of_fmap_2.
        apply elem_of_flat_map. exists (bucket_of (spec_regnum y)). split; [|done].
        apply elem_of_seq. pose proof (bucket_of_lt (spec_regnum y)). lia.
      * apply spec_find_None in Hno. unfold spec_get in Hx. congruence.
  - rewrite (live_count_owned s F T HR). lia.
  - rewrite (live_count_owned s F T HR). pose proof (rep_size _ _ _ HR). lia.
Qed.

(** ** remove_register *)

(** Register [r] is not set at the current level of [s]. *)
Lemma not_found_absent fuel0 s F T r :
  Rep s F T → get_register_rule fuel0 s r = Ok None →
  ∀ i e, i ∈ T (_table_depth s) (bucket_of r) → _entries s !! i = Some e → regnum e ≠ r.
Proof.
  intros HR Hget.
  destruct (get_register_rule_total s F T r HR) as (found & Hfound & Habsent).
  assert (None = found) as <- by (by eapply get_register_rule_det).
  by apply Habsent.
Qed.

(** X6. Removing a register that is not set at the current level returns
    and changes nothing. *)
Theorem remove_register_absent_is_noop s r fuel0 :
  reachable s →
  get_register_rule fuel0 s r = Ok None →
  ∀ fuel, DWARF_CFA_STACK_MAX_REGISTERS < fuel → remove_register fuel s r = Ok s.
Proof.
  intros (F & T & HR)%reachable_rep Hget.
  apply (remove_register_absent s F T r HR). by eapply not_found_absent.
Qed.

(** Register [r] is set at the current level of [s]. *)
Lemma found_present fuel0 s F T r x :
  Rep s F T → get_register_rule fuel0 s r = Ok (Some x) →
  ∃ c1 i e c2, T (_table_depth s) (bucket_of r) = c1 ++ i :: c2
    ∧ _entries s !! i = Some e ∧ regnum e = r.
Proof.
  intros HR Hget.
  destruct (chain_find (_entries s) (T (_table_depth s) (bucket_of r)) r)
    as [Hno|(c1 & i & e & c2 & HT & He & Hr & _)].
  - intros j Hj. eapply rep_chain_lookup; [done..|apply bucket_of_lt|done].
  - assert (Some x = None) as [=].
    eapply get_register_rule_det; [done|]. by eapply get_register_rule_absent.
  - by exists c1, i, e, c2.
Qed.

(** X7. A removal that meets no stale record. When register [r] is set at
    the current level and no record on the free list carries the number
    [r], [remove_register(r)] returns; afterwards [r] is not found, every
    other register is found as before, the register count is one less,
    the depth is the same and the entry that held [r] is the new head of
    the free list, in front of what the free list was. *)
Theorem remove_register_removes s r x fuel0 :
  reachable s →
  get_register_rule fuel0 s r = Ok (Some x) →
  (∀ F k, chain (_entries s) (_free_list s) F → k ∈ F → ¬ reg_at (_entries s) k r) →
  ∃ s1 (n : nat) i F,
    (∀ fuel, DWARF_CFA_STACK_MAX_REGISTERS < fuel → remove_register fuel s r = Ok s1)
    ∧ (∀ fuel, DWARF_CFA_STACK_MAX_REGISTERS < fuel →
         get_register_rule fuel s1 r = Ok None)
    ∧ (∀ r', r' ≠ r → ∃ found, ∀ fuel, DWARF_CFA_STACK_MAX_REGISTERS < fuel →
         get_register_rule fuel s r' = Ok found
         ∧ get_register_rule fuel s1 r' = Ok found)
    ∧ get_register_count s = Ok (Z.of_nat (S n))
    ∧ get_register_count s1 = Ok (Z.of_nat n)
    ∧ _table_depth s1 = _table_depth s
    ∧ chain (_entries s) (_free_list s) F
    ∧ chain (_entries s1) (_free_list s1) (i :: F)
    ∧ reg_at (_entries s) i r.
Proof.
  intros (A & Htr)%reachable_traced Hget Hstale.
  destruct (traced_current _ _ Htr) as (t & A' & ->).
  destruct (traced_rep _ _ Htr) as (F & T & HR & HA).
  destruct (found_present _ _ _ _ _ _ HR Hget) as (c1 & i & e & c2 & HT & He & Hr).
  destruct (remove_register_present s F T r c1 i c2 e HR HT He Hr)
    as (s1 & Hrun & HR1 & Hd1 & _).
  { intros k. apply (Hstale F k), (rep_free _ _ _ HR). }
  assert (perform (S DWARF_CFA_STACK_MAX_REGISTERS) (Remove_register r) s = Ok (true, s1))
    as Hperf.
  { simpl. by rewrite Hrun by lia. }
  pose proof (traced_step s _ _ _ _ _ Htr Hperf) as Htr1. simpl in Htr1.
  destruct (traced_observe _ _ _ Htr) as (Hg & _).
  destruct (traced_observe _ _ _ Htr1) as (Hg1 & _).
  pose proof (bucket_of_lt r) as Hb.
  pose proof (level_idx_tupd_length T (_table_depth s) (bucket_of r) (c1 ++ c2) Hb) as Hlen.
  rewrite HT, !length_app in Hlen. simpl in Hlen.
  exists s1, (length (level_idx (tupd T (_table_depth s) (bucket_of r) (c1 ++ c2)
                                   (_table_depth s)))), i, F.
  split_and!; try done.
  - intros fuel Hfuel. rewrite Hg1 by done. by rewrite spec_get_remove_same.
  - intros r' Hne. exists (spec_get t r'). intros fuel Hfuel.
    split; [by apply Hg|]. rewrite Hg1 by done. by rewrite spec_get_remove_other.
  - destruct (rep_level _ _ _ HR _ (Nat.le_refl _)) as (? & _ & Hcnt & _).
    unfold get_register_count. rewrite (read_lookup _ _ _ Hcnt). do 2 f_equal. lia.
  - destruct (rep_level _ _ _ HR1 (_table_depth s1) (Nat.le_refl _)) as (? & _ & Hcnt & _).
    unfold get_register_count. rewrite (read_lookup _ _ _ Hcnt). by rewrite Hd1.
  - apply (rep_free _ _ _ HR).
  - apply (rep_free _ _ _ HR1).
  - by exists e.
Qed.

(** X8. When [remove_register] returns. On a reachable state the call
    returns exactly when the register is not set at the current level or
    no record on the free list carries its number; in the remaining case,
    the register set and a free record carrying its number, the call never
    returns. *)
Theorem remove_register_returns_iff s r :
  reachable s →
  let safe :=
    (∃ fuel, get_register_rule fuel s r = Ok None)
    ∨ (∀ F k, chain (_entries s) (_free_list s) F → k ∈ F →
         ¬ reg_at (_entries s) k r) in
  ((∃ s', ∀ fuel, DWARF_CFA_STACK_MAX_REGISTERS < fuel →
      remove_register fuel s r = Ok s') ↔ safe)
  ∧ ((∃ fuel s', remove_register fuel s r = Ok s') ↔ safe)
  ∧ ((∀ fuel, remove_register fuel s r = OutOfFuel) ↔ ¬ safe).
Proof.
  intros (F & T & HR)%reachable_rep safe.
  assert (safe → ∃ s', ∀ fuel, DWARF_CFA_STACK_MAX_REGISTERS < fuel →
                   remove_register fuel s r = Ok s') as Hsafe.
  { intros [(fuel0 & Hnone)|Hstale].
    - exists s. apply (remove_register_absent s F T r HR).
      by apply (not_found_absent fuel0 s F T r HR).
    - destruct (remove_register_cases s F T r HR)
        as [Hno|[(c1 & i & e & c2 & HT & He & Hr & _)|(i & e & k & _ & _ & _ & Hk & Hreg)]].
      + exists s. by apply (remove_register_absent s F T r HR).
      + destruct (remove_register_present s F T r c1 i c2 e HR HT He Hr)
          as (s1 & Hrun & _); [|by eauto].
        intros k'. apply (Hstale F k'), (rep_free _ _ _ HR).
      + by destruct (Hstale F k (rep_free _ _ _ HR) Hk). }
  assert ((∃ fuel s', remove_register fuel s r = Ok s') → safe) as Hret.
  { intros (fuel & s' & Hrun).
    destruct (remove_register_cases s F T r HR)
      as [Hno|[(c1 & i & e & c2 & HT & He & Hr & Hstale)|(i & e & k & Hi & He & Hr & Hk & Hreg)]].
    - left. exists (S DWARF_CFA_STACK_MAX_REGISTERS).
      apply (get_register_rule_absent s F T r HR Hno). lia.
    - right. intros F' k HF' Hk.
      rewrite (chain_functional _ _ _ _ HF' (rep_free _ _ _ HR)) in Hk. by apply Hstale.
    - by rewrite (remove_register_diverges s F T r i e k HR Hi He Hr Hk Hreg fuel) in Hrun. }
  split_and!.
  - split; [|done]. intros (s' & Hrun). apply Hret.
    exists (S DWARF_CFA_STACK_MAX_REGISTERS), s'. apply Hrun. lia.
  - split; [done|]. intros (s' & Hrun)%Hsafe.
    exists (S DWARF_CFA_STACK_MAX_REGISTERS), s'. apply Hrun. lia.
  - split.
    + intros Hdiv (s' & Hrun)%Hsafe.
      specialize (Hrun (S DWARF_CFA_STACK_MAX_REGISTERS) ltac:(lia)).
      by rewrite Hdiv in Hrun.
    + intros Hunsafe fuel.
      destruct (remove_register_cases s F T r HR)
        as [Hno|[(c1 & i & e & c2 & HT & He & Hr & Hstale)|(i & e & k & Hi & He & Hr & Hk & Hreg)]].
      * destruct Hunsafe. left. exists (S DWARF_CFA_STACK_MAX_REGISTERS).
        apply (get_register_rule_absent s F T r HR Hno). lia.
      * destruct Hunsafe. right. intros F' k HF' Hk.
        rewrite (chain_functional _ _ _ _ HF' (rep_free _ _ _ HR)) in Hk. by apply Hstale.
      * by eapply remove_register_diverges.
Qed.

(** ** push_state *)

(** X9. A pushed state shows no rules: after a successful [push_state]
    no register is found, whatever the levels below hold, and the
    iterator yields nothing. *)
Theorem push_state_shows_no_rules s s' :
  reachable s →
  push_state s = Ok (true, s') →
  (∀ r fuel, DWARF_CFA_STACK_MAX_REGISTERS < fuel → get_register_rule fuel s' r = Ok None)
  ∧ (∀ k, ∃ it, iterate k s' dwarf_cfa_stack_iterator_new = Ok (replicate k None, it)).
Proof.
  intros (A & Htr)%reachable_traced Hpush.
  pose proof (traced_step s A 0 Push_state true s' Htr Hpush) as Htr'. simpl in Htr'.
  destruct (traced_observe _ _ _ Htr') as (Hget & _ & Hiter).
  rewrite spec_enumerate_empty in Hiter. done.
Qed.

(** ** Entries are never won back *)

(** X10. Entries are never won back. Count the entries on the free list
    and the rules of the live levels ([get_register_count] summed over the
    levels [0 .. depth]): the sum is at most [MAX_REGISTERS]; [push_state],
    [set_register] and [remove_register] leave it as it is; a successful
    [pop_state] lowers it by the register count of the level it leaves,
    whose entries are not put back on the free list. No operation raises
    it. *)
Theorem free_and_live_entries_never_grow s fuel o ok s' F F' :
  reachable s →
  perform fuel o s = Ok (ok, s') →
  chain (_entries s) (_free_list s) F →
  chain (_entries s') (_free_list s') F' →
  ∃ n : nat,
    get_register_count s = Ok (Z.of_nat n)
    ∧ (Z.of_nat (length F) + live_count s ≤ Z.of_nat DWARF_CFA_STACK_MAX_REGISTERS)%Z
    ∧ (Z.of_nat (length F') + live_count s'
       = Z.of_nat (length F) + live_count s
         - match o, ok with
           | Pop_state, true => Z.of_nat n
           | _, _ => 0
           end)%Z.
Proof.
  intros (F0 & T & HR)%reachable_rep Hrun HF HF'.
  rewrite (chain_functional _ _ _ _ (rep_free _ _ _ HR) HF) in HR.
  destruct (perform_sizes _ _ _ _ _ _ _ HR Hrun) as (F1 & T1 & HR1 & Hlen).
  assert (F1 = F') as -> by (by eapply chain_functional; [apply (rep_free _ _ _ HR1)|]).
  pose proof (rep_size _ _ _ HR) as Hsz.
  destruct (rep_level _ _ _ HR _ (Nat.le_refl _)) as (? & _ & Hcnt & _).
  exists (length (level_idx (T (_table_depth s)))). split_and!.
  - unfold get_register_count. by apply read_lookup.
  - rewrite (live_count_owned s F T HR). lia.
  - rewrite (live_count_owned s F T HR), (live_count_owned s' F' T1 HR1).
    assert (length (level_idx (T (_table_depth s))) ≤ length (owned T (_table_depth s))).
    { unfold owned. rewrite length_app. lia. }
    destruct o, ok; lia.
Qed.

(** ** Register numbers the constructor did not write *)

(** The constructor writes the [next] link of every entry and no other
    field of it. *)
Lemma dwarf_cfa_stack_new_keeps mem s j e :
  storage mem → dwarf_cfa_stack_new mem = Ok s →
  _entries mem !! j = Some e →
  ∃ e', _entries s !! j = Some e'
    ∧ regnum e' = regnum e ∧ rule e' = rule e ∧ value e' = value e.
Proof.
  intros (Hel & Hcl & Htl & Hrows) Hnew He.
  destruct Hcfg as (Hmax & Hinv & Hinv8 & (HB & _) & (HS & _)).
  unfold dwarf_cfa_stack_new in Hnew.
  destruct (init_free_list_ok DWARF_CFA_STACK_MAX_REGISTERS 0 (_entries mem))
    as (es & Hinit & Hlen & Hes); [lia|]. rewrite Hinit in Hnew. simpl in Hnew.
  destruct (lookup_lt_is_Some_2 es (DWARF_CFA_STACK_MAX_REGISTERS - 1)) as [el Hel']; [lia|].
  rewrite (read_lookup _ _ _ Hel') in Hnew. simpl in Hnew.
  rewrite write_lt in Hnew by lia. simpl in Hnew.
  rewrite write_lt in Hnew by lia. simpl in Hnew.
  destruct (lookup_lt_is_Some_2 (_table_stack mem) 0) as [row Hrow]; [lia|].
  rewrite (read_lookup _ _ _ Hrow) in Hnew. simpl in Hnew.
  rewrite write_lt in Hnew by lia. simpl in Hnew. injection Hnew as <-. simpl.
  pose proof (Hes j e He) as Hj.
  assert (∃ e0, es !! j = Some e0 ∧ regnum e0 = regnum e ∧ rule e0 = rule e
                ∧ value e0 = value e) as (e0 & He0 & Hr0 & Hl0 & Hv0).
  { eexists. split; [done|]. by case_decide. }
  destruct (decide (j = DWARF_CFA_STACK_MAX_REGISTERS - 1)) as [->|Hne].
  - rewrite list_lookup_insert_eq by lia. eexists. split; [done|].
    assert (el = e0) as -> by congruence. done.
  - rewrite list_lookup_insert_ne by done. eauto.
Qed.

(** X11. [remove_register] compares against register numbers the
    constructor never wrote. Let the storage the stack is constructed in
    hold the number [r] in the [regnum] field of an entry other than
    entry 0. Then on the new stack [set_register(r, ...)] returns true and
    the [remove_register(r)] that follows never returns. *)
Theorem remove_register_reads_unwritten_regnum mem k r rl v :
  storage mem → 0 < k → reg_at (_entries mem) k r → (rl ≤ 255)%Z →
  ∃ s s1,
    dwarf_cfa_stack_new mem = Ok s
    ∧ (∀ fuel, DWARF_CFA_STACK_MAX_REGISTERS < fuel →
         set_register fuel s r rl v = Ok (true, s1))
    ∧ ∀ fuel, remove_register fuel s1 r = OutOfFuel.
Proof.
  intros Hmem Hk (ek & Hek & Hrk) Hrl.
  destruct (dwarf_cfa_stack_new_ok mem Hmem) as (s & Hnew & HR & Hd).
  destruct (dwarf_cfa_stack_new_keeps mem s k ek Hmem Hnew Hek) as (ek0 & Hek0 & Hrk0 & _).
  assert (k < DWARF_CFA_STACK_MAX_REGISTERS) as Hlt.
  { destruct Hmem as (<- & _). by eapply lookup_lt_Some. }
  replace DWARF_CFA_STACK_MAX_REGISTERS with (S (DWARF_CFA_STACK_MAX_REGISTERS - 1)) in HR
    by lia.
  simpl in HR.
  destruct (set_register_fresh s 0 _ _ r rl v HR Hrl)
    as (s1 & Hrun & HR1 & Hd1 & Hf1 & Hkeep & _).
  { intros i e Hi. by apply elem_of_nil in Hi. }
  exists s, s1. split_and!; [done..|].
  destruct (Hkeep k ek0 ltac:(lia) Hek0) as (ek1 & Hek1 & Hrk1 & _).
  eapply (remove_register_diverges s1 _ _ r 0 _ k HR1); try done.
  - rewrite Hd1. unfold tupd. rewrite decide_True by done. simpl. left.
  - apply elem_of_seq. lia.
  - exists ek1. split; [done|congruence].
Qed.

(** ** Setting several registers *)

(** Registers that are not set, as many as the free list has entries: the
    calls of [set_register] all return true, each taking the head of the
    free list. *)
Lemma set_registers_fresh rs : ∀ s t A F,
  traced s (t :: A) →
  chain (_entries s) (_free_list s) F →
  NoDup (spec_regnum <$> rs) →
  (∀ x, x ∈ rs → spec_get t (spec_regnum x) = None ∧ (0 ≤ x.1.2 ≤ 255)%Z) →
  length rs ≤ length F →
  ∃ s' t',
    (∀ fuel, DWARF_CFA_STACK_MAX_REGISTERS < fuel →
       run_results fuel (set_op <$> rs) s = Ok (replicate (length rs) true, s'))
    ∧ traced s' (t' :: A)
    ∧ chain (_entries s') (_free_list s') (drop (length rs) F)
    ∧ (∀ x, x ∈ rs → spec_get t' (spec_regnum x) = Some (x.1.2, x.2))
    ∧ (∀ r, r ∉ spec_regnum <$> rs → spec_get t' r = spec_get t r)
    ∧ length (spec_enumerate t') = length (spec_enumerate t) + length rs.
Proof.
  induction rs as [|x rs IH]; intros s t A F Htr HF Hnd Hrs Hlen.
  - exists s, t. split_and!; try done. by intros x ?%elem_of_nil.
  - destruct x as [[r rl] v]. rewrite fmap_cons in Hnd.
    apply NoDup_cons in Hnd as (Hr & Hnd). change (r ∉ spec_regnum <$> rs) in Hr.
    destruct (Hrs (r, rl, v)) as (Hnone & Hrl); [left|].
    unfold spec_regnum in Hnone. simpl in Hnone, Hrl.
    destruct F as [|f F1]; [simpl in Hlen; lia|].
    destruct (traced_rep _ _ Htr) as (F0 & T & HR & HA).
    rewrite (chain_functional _ _ _ _ (rep_free _ _ _ HR) HF) in HR.
    destruct (traced_observe _ _ _ Htr) as (Hget & _).
    destruct (set_register_fresh s f F1 T r rl v HR (proj2 Hrl))
      as (s1 & Hrun1 & HR1 & _).
    { apply (not_found_absent (S DWARF_CFA_STACK_MAX_REGISTERS) s _ T r HR).
      rewrite Hget by lia. by rewrite Hnone. }
    assert (traced s1 (spec_set t r rl v :: A)) as Htr1.
    { apply (traced_step s (t :: A) (S DWARF_CFA_STACK_MAX_REGISTERS)
               (Set_register r rl v) true s1 Htr).
      simpl. apply Hrun1. lia. }
    destruct (IH s1 (spec_set t r rl v) A F1 Htr1 (rep_free _ _ _ HR1) Hnd)
      as (s' & t' & Hrun & Htr' & HF' & Hset & Hother & Hcount).
    { intros y Hy. destruct (Hrs y) as (Hynone & Hyrl); [by right|]. split; [|done].
      rewrite spec_get_set_other; [done|]. intros Heq. apply Hr. rewrite <-Heq.
      by apply list_elem_of_fmap_2. }
    { simpl in Hlen. lia. }
    exists s', t'. split_and!; try done.
    + intros fuel Hfuel. rewrite fmap_cons. cbn [run_results perform set_op fst snd].
      rewrite (Hrun1 fuel Hfuel). cbn [mbind outcome_bind].
      rewrite (Hrun fuel Hfuel). done.
    + intros y [->|Hy]%elem_of_cons; [|by apply Hset]. simpl.
      rewrite Hother by done. rewrite spec_get_set_same. unfold uint8.
      by rewrite Z.mod_small by lia.
    + intros r0 Hr0. rewrite fmap_cons, not_elem_of_cons in Hr0. destruct Hr0 as (Hne & Hr0).
      rewrite Hother by done. by rewrite spec_get_set_other.
    + rewrite Hcount, spec_enumerate_set_length, Hnone. simpl. lia.
Qed.

(** X12. [set_register] succeeds as long as the free list lasts. From a
    reachable state whose free list holds [length F] entries, calls of
    [set_register] for that many or fewer registers, all different and
    none set at the current level, all return true; afterwards each of the
    registers is found with its rule and value, every other register is
    found as before, the register count has grown by the number of calls,
    and the free list has lost that many entries from its head. *)
Theorem set_register_succeeds_while_free s F rs :
  reachable s →
  chain (_entries s) (_free_list s) F →
  NoDup (spec_regnum <$> rs) →
  (∀ x, x ∈ rs →
     (∃ fuel, get_register_rule fuel s (spec_regnum x) = Ok None)
     ∧ (0 ≤ x.1.2 ≤ 255)%Z) →
  length rs ≤ length F →
  ∃ s' (n : nat),
    (∀ fuel, DWARF_CFA_STACK_MAX_REGISTERS < fuel →
       run_results fuel (set_op <$> rs) s = Ok (replicate (length rs) true, s'))
    ∧ get_register_count s = Ok (Z.of_nat n)
    ∧ get_register_count s' = Ok (Z.of_nat (n + length rs))
    ∧ (∀ x fuel, x ∈ rs → DWARF_CFA_STACK_MAX_REGISTERS < fuel →
         get_register_rule fuel s' (spec_regnum x) = Ok (Some (x.1.2, x.2)))
    ∧ (∀ r, r ∉ spec_regnum <$> rs →
         ∃ found, ∀ fuel, DWARF_CFA_STACK_MAX_REGISTERS < fuel →
           get_register_rule fuel s r = Ok found
           ∧ get_register_rule fuel s' r = Ok found)
    ∧ chain (_entries s') (_free_list s') (drop (length rs) F).
Proof.
  intros (A & Htr)%reachable_traced HF Hnd Hrs Hlen.
  destruct (traced_current _ _ Htr) as (t & A' & ->).
  destruct (traced_observe _ _ _ Htr) as (Hget & Hcnt & _).
  destruct (set_registers_fresh rs s t A' F Htr HF Hnd)
    as (s' & t' & Hrun & Htr' & HF' & Hset & Hother & Hcount); [|done|].
  { intros x Hx. destruct (Hrs x Hx) as ((fuel0 & Hnone) & Hrl). split; [|done].
    symmetry. eapply get_register_rule_det; [done|]. intros fuel Hfuel. by apply Hget. }
  destruct (traced_observe _ _ _ Htr') as (Hget' & Hcnt' & _).
  exists s', (length (spec_enumerate t)). split_and!; try done.
  - by rewrite Hcnt', Hcount.
  - intros x fuel Hx Hfuel. rewrite Hget' by done. by rewrite Hset.
  - intros r Hr. exists (spec_get t r). intros fuel Hfuel.
    split; [by apply Hget|]. rewrite Hget' by done. by rewrite Hother.
Qed.

(** X13. The capacity of a new stack. On a newly constructed stack,
    [set_register] for [MAX_REGISTERS] different registers returns true
    every time; [get_register_count] is then [MAX_REGISTERS], and
    [set_register] for any further register returns false and changes
    nothing. *)
Theorem new_stack_holds_max_registers mem rs :
  storage mem →
  NoDup (spec_regnum <$> rs) →
  (∀ x, x ∈ rs → (0 ≤ x.1.2 ≤ 255)%Z) →
  length rs = DWARF_CFA_STACK_MAX_REGISTERS →
  ∃ s0 s',
    dwarf_cfa_stack_new mem = Ok s0
    ∧ (∀ fuel, DWARF_CFA_STACK_MAX_REGISTERS < fuel →
         run_results fuel (set_op <$> rs) s0
         = Ok (replicate DWARF_CFA_STACK_MAX_REGISTERS true, s'))
    ∧ get_register_count s' = Ok (Z.of_nat DWARF_CFA_STACK_MAX_REGISTERS)
    ∧ (∀ x fuel, x ∈ rs → DWARF_CFA_STACK_MAX_REGISTERS < fuel →
         get_register_rule fuel s' (spec_regnum x) = Ok (Some (x.1.2, x.2)))
    ∧ (∀ r rl v fuel, r ∉ spec_regnum <$> rs → (rl ≤ 255)%Z →
         DWARF_CFA_STACK_MAX_REGISTERS < fuel →
         set_register fuel s' r rl v = Ok (false, s')).
Proof.
  intros Hmem Hnd Hrs Hlen.
  destruct (dwarf_cfa_stack_new_ok mem Hmem) as (s0 & Hnew & HR0 & Hd0).
  pose proof (traced_new mem s0 Hmem Hnew) as Htr0.
  destruct (set_registers_fresh rs s0 spec_empty [] _ Htr0 (rep_free _ _ _ HR0) Hnd)
    as (s' & t' & Hrun & Htr' & HF' & Hset & Hother & Hcount).
  { intros x Hx. split; [done|by apply Hrs]. }
  { rewrite length_seq. lia. }
  rewrite spec_enumerate_empty in Hcount. simpl in Hcount.
  rewrite Hlen in Hrun, Hcount, HF'.
  rewrite drop_ge in HF' by (rewrite length_seq; lia).
  destruct (traced_observe _ _ _ Htr') as (Hget' & Hcnt' & _).
  exists s0, s'. split_and!; try done.
  - by rewrite Hcnt', Hcount.
  - intros x fuel Hx Hfuel. rewrite Hget' by done. by rewrite Hset.
  - intros r rl v fuel Hr Hrl Hfuel.
    destruct (traced_rep _ _ Htr') as (F & T & HR & _).
    assert (F = []) as ->.
    { eapply chain_functional; [apply (rep_free _ _ _ HR)|done]. }
    apply (set_register_exhausted s' [] T r rl v HR Hrl); [| |done].
    + apply (not_found_absent fuel s' [] T r HR). rewrite Hget' by done.
      by rewrite Hother.
    + by apply (rep_free_nil s' [] T).
Qed.

(** ** What the storage held does not show in the results *)

(** Two states that hold the same tables have the same depth and the same
    register counts. *)
Lemma same_tables_counts s1 s2 A :
  traced s1 A → traced s2 A →
  _table_depth s1 = _table_depth s2
  ∧ live_count s1 = live_count s2
  ∧ get_register_count s1 = get_register_count s2.
Proof.
  intros (F1 & T1 & HR1 & HA1)%traced_rep (F2 & T2 & HR2 & HA2)%traced_rep.
  assert (_table_depth s1 = _table_depth s2) as Hd.
  { destruct HA1 as (H1 & _), HA2 as (H2 & _). lia. }
  assert (∀ l, l ≤ _table_depth s1 →
            _register_count s1 !! l = _register_count s2 !! l) as Hcnt.
  { intros l Hl.
    destruct (traced_level_count s1 F1 T1 A l HR1 HA1 Hl) as (t1 & Ht1 & ->).
    destruct (traced_level_count s2 F2 T2 A l HR2 HA2) as (t2 & Ht2 & ->); [lia|].
    rewrite Hd in Ht1. congruence. }
  split_and!; [done| |].
  - unfold live_count. rewrite <-Hd. f_equal. apply list_fmap_ext.
    intros i l [-> Hl]%lookup_seq. f_equal. apply Hcnt. simpl. lia.
  - unfold get_register_count, read. rewrite <-Hd. by rewrite Hcnt.
Qed.

(** One operation on two states that hold the same tables and have free
    lists of the same length returns the same on both. *)
Lemma perform_same s1 s2 A F1 F2 o f1 f2 b1 b2 s1' s2' F1' F2' :
  traced s1 A → traced s2 A →
  chain (_entries s1) (_free_list s1) F1 → chain (_entries s2) (_free_list s2) F2 →
  length F1 = length F2 →
  perform f1 o s1 = Ok (b1, s1') → perform f2 o s2 = Ok (b2, s2') →
  chain (_entries s1') (_free_list s1') F1' → chain (_entries s2') (_free_list s2') F2' →
  b1 = b2 ∧ length F1' = length F2'.
Proof.
  intros Htr1 Htr2 HF1 HF2 Hlen Hrun1 Hrun2 HF1' HF2'.
  destruct (same_tables_counts s1 s2 A Htr1 Htr2) as (Hd & Hlive & Hcnt).
  destruct (traced_current _ _ Htr1) as (t & A' & ->).
  destruct (traced_rep _ _ Htr1) as (F01 & T1 & HR1 & HA1).
  destruct (traced_rep _ _ Htr2) as (F02 & T2 & HR2 & HA2).
  rewrite (chain_functional _ _ _ _ (rep_free _ _ _ HR1) HF1) in HR1.
  rewrite (chain_functional _ _ _ _ (rep_free _ _ _ HR2) HF2) in HR2.
  assert (b1 = b2) as <-.
  { destruct o as [| |r rl v|r]; simpl in Hrun1, Hrun2.
    - destruct (decide (_table_depth s1 + 1 = DWARF_CFA_STACK_MAX_STATES)) as [Hfull|Hroom].
      + rewrite (push_state_full s1 F1 T1 HR1 Hfull) in Hrun1.
        rewrite (push_state_full s2 F2 T2 HR2) in Hrun2 by lia. congruence.
      + destruct (push_state_ok s1 F1 T1 HR1 Hroom) as (? & Hp1 & _).
        destruct (push_state_ok s2 F2 T2 HR2) as (? & Hp2 & _); [lia|]. congruence.
    - unfold pop_state in Hrun1, Hrun2. rewrite <-Hd in Hrun2.
      destruct (decide (_table_depth s1 = 0)); congruence.
    - pose proof (set_register_Ok_le _ _ _ _ _ _ Hrun1) as Hrl.
      destruct (traced_observe _ _ _ Htr1) as (Hg1 & _).
      destruct (traced_observe _ _ _ Htr2) as (Hg2 & _).
      destruct (set_register_total s1 F1 T1 r rl v HR1 Hrl) as (ok1 & x1 & Hs1 & Hok1 & _).
      destruct (set_register_total s2 F2 T2 r rl v HR2 Hrl) as (ok2 & x2 & Hs2 & Hok2 & _).
      assert ((b1, s1') = (ok1, x1)) as [= -> ->] by (by eapply set_register_det).
      assert ((b2, s2') = (ok2, x2)) as [= -> ->] by (by eapply set_register_det).
      destruct (get_register_rule_total s1 F1 T1 r HR1) as (g1 & Hget1 & Habs1).
      destruct (get_register_rule_total s2 F2 T2 r HR2) as (g2 & Hget2 & Habs2).
      assert (g1 = spec_get t r) as Hg1'.
      { specialize (Hget1 _ (Nat.lt_succ_diag_r _)). rewrite Hg1 in Hget1 by lia. congruence. }
      assert (g2 = spec_get t r) as Hg2'.
      { specialize (Hget2 _ (Nat.lt_succ_diag_r _)). rewrite Hg2 in Hget2 by lia. congruence. }
      rewrite <-Habs1, (rep_free_nil s1 F1 T1 HR1) in Hok1.
      rewrite <-Habs2, (rep_free_nil s2 F2 T2 HR2) in Hok2.
      assert (F1 = [] ↔ F2 = []) as HF.
      { destruct F1, F2; simpl in Hlen; done. }
      destruct ok1, ok2; try done.
      + assert (true = false) as [=]. apply Hok1. destruct Hok2 as [[? ?] _]; [done|].
        split; [congruence|by apply HF].
      + assert (true = false) as [=]. apply Hok2. destruct Hok1 as [[? ?] _]; [done|].
        split; [congruence|by apply HF].
    - apply bind_Ok in Hrun1 as (? & _ & [= <- _]).
      apply bind_Ok in Hrun2 as (? & _ & [= <- _]). done. }
  split; [done|].
  pose proof (traced_step _ _ _ _ _ _ Htr1 Hrun1) as Htr1'.
  pose proof (traced_step _ _ _ _ _ _ Htr2 Hrun2) as Htr2'.
  destruct (same_tables_counts _ _ _ Htr1' Htr2') as (_ & Hlive' & _).
  destruct (perform_sizes _ _ _ _ _ _ _ HR1 Hrun1) as (G1 & U1 & HQ1 & Hsz1).
  destruct (perform_sizes _ _ _ _ _ _ _ HR2 Hrun2) as (G2 & U2 & HQ2 & Hsz2).
  assert (G1 = F1') as -> by (by eapply chain_functional; [apply (rep_free _ _ _ HQ1)|]).
  assert (G2 = F2') as -> by (by eapply chain_functional; [apply (rep_free _ _ _ HQ2)|]).
  rewrite (live_count_owned _ _ _ HR1), (live_count_owned _ _ _ HR2) in Hlive.
  rewrite (live_count_owned _ _ _ HQ1), (live_count_owned _ _ _ HQ2) in Hlive'.
  assert (length (level_idx (T1 (_table_depth s1)))
          = length (level_idx (T2 (_table_depth s2)))) as Htop.
  { destruct (rep_level _ _ _ HR1 _ (Nat.le_refl _)) as (? & _ & Hc1 & _).
    destruct (rep_level _ _ _ HR2 _ (Nat.le_refl _)) as (? & _ & Hc2 & _).
    unfold get_register_count in Hcnt.
    rewrite (read_lookup _ _ _ Hc1), (read_lookup _ _ _ Hc2) in Hcnt.
    injection Hcnt as Hcnt. lia. }
  assert (length (level_idx (T1 (_table_depth s1))) ≤ length (owned T1 (_table_depth s1))).
  { unfold owned. rewrite length_app. lia. }
  assert (length (level_idx (T2 (_table_depth s2))) ≤ length (owned T2 (_table_depth s2))).
  { unfold owned. rewrite length_app. lia. }
  destruct o, b1; lia.
Qed.

Lemma run_results_same ops : ∀ s1 s2 A F1 F2 f1 f2 bs1 bs2 s1' s2',
  traced s1 A → traced s2 A →
  chain (_entries s1) (_free_list s1) F1 → chain (_entries s2) (_free_list s2) F2 →
  length F1 = length F2 →
  run_results f1 ops s1 = Ok (bs1, s1') → run_results f2 ops s2 = Ok (bs2, s2') →
  bs1 = bs2 ∧ ∃ A', traced s1' A' ∧ traced s2' A'.
Proof.
  induction ops as [|o ops IH]; intros s1 s2 A F1 F2 f1 f2 bs1 bs2 s1' s2'
    Htr1 Htr2 HF1 HF2 Hlen Hrun1 Hrun2; simpl in Hrun1, Hrun2.
  - injection Hrun1 as <- <-. injection Hrun2 as <- <-. eauto.
  - apply bind_Ok in Hrun1 as ([b1 m1] & Hp1 & Hrun1).
    apply bind_Ok in Hrun1 as ([cs1 x1] & Hrun1 & [= <- <-]).
    apply bind_Ok in Hrun2 as ([b2 m2] & Hp2 & Hrun2).
    apply bind_Ok in Hrun2 as ([cs2 x2] & Hrun2 & [= <- <-]).
    pose proof (traced_step _ _ _ _ _ _ Htr1 Hp1) as Htr1'.
    pose proof (traced_step _ _ _ _ _ _ Htr2 Hp2) as Htr2'.
    destruct (traced_rep _ _ Htr1') as (G1 & ? & HQ1 & _).
    destruct (traced_rep _ _ Htr2') as (G2 & ? & HQ2 & _).
    destruct (perform_same s1 s2 A F1 F2 o f1 f2 b1 b2 m1 m2 G1 G2) as (<- & Hlen');
      [done..|apply (rep_free _ _ _ HQ1)|apply (rep_free _ _ _ HQ2)|].
    destruct (IH m1 m2 _ G1 G2 f1 f2 cs1 cs2 x1 x2 Htr1' Htr2') as (<- & HA');
      [apply (rep_free _ _ _ HQ1)|apply (rep_free _ _ _ HQ2)|done..|].
    done.
Qed.

(** X14. What the storage held does not show in the results. Let two
    stacks be constructed over any two storages and the same operations be
    called on both, every call returning. Then the calls return the same
    on both, and the two stacks end at the same depth with the same
    register count, [get_register_rule] finds the same for every register
    and the iterators yield the same rules in the same order. *)
Theorem results_do_not_depend_on_storage mem1 mem2 ops f1 f2 s1 s2 bs1 bs2 s1' s2' :
  storage mem1 → storage mem2 →
  dwarf_cfa_stack_new mem1 = Ok s1 → dwarf_cfa_stack_new mem2 = Ok s2 →
  run_results f1 ops s1 = Ok (bs1, s1') →
  run_results f2 ops s2 = Ok (bs2, s2') →
  bs1 = bs2
  ∧ _table_depth s1' = _table_depth s2'
  ∧ get_register_count s1' = get_register_count s2'
  ∧ (∀ r, ∃ found, ∀ fuel, DWARF_CFA_STACK_MAX_REGISTERS < fuel →
       get_register_rule fuel s1' r = Ok found
       ∧ get_register_rule fuel s2' r = Ok found)
  ∧ ∃ L : list (Z * Z * Z), ∀ k, ∃ it1 it2,
      iterate (length L + k) s1' dwarf_cfa_stack_iterator_new
      = Ok ((Some <$> L) ++ replicate k None, it1)
      ∧ iterate (length L + k) s2' dwarf_cfa_stack_iterator_new
        = Ok ((Some <$> L) ++ replicate k None, it2).
Proof.
  intros Hmem1 Hmem2 Hnew1 Hnew2 Hrun1 Hrun2.
  pose proof (traced_new mem1 s1 Hmem1 Hnew1) as Htr1.
  pose proof (traced_new mem2 s2 Hmem2 Hnew2) as Htr2.
  destruct (dwarf_cfa_stack_new_ok mem1 Hmem1) as (x1 & Hx1 & HR1 & _).
  destruct (dwarf_cfa_stack_new_ok mem2 Hmem2) as (x2 & Hx2 & HR2 & _).
  assert (x1 = s1) as -> by congruence. assert (x2 = s2) as -> by congruence.
  destruct (run_results_same ops s1 s2 _ _ _ f1 f2 bs1 bs2 s1' s2' Htr1 Htr2
              (rep_free _ _ _ HR1) (rep_free _ _ _ HR2) eq_refl Hrun1 Hrun2)
    as (Hbs & A' & Htr1' & Htr2').
  destruct (same_tables_counts _ _ _ Htr1' Htr2') as (Hd & _ & Hcnt).
  destruct (traced_current _ _ Htr1') as (t & A'' & ->).
  destruct (traced_observe _ _ _ Htr1') as (Hg1 & _ & Hit1).
  destruct (traced_observe _ _ _ Htr2') as (Hg2 & _ & Hit2).
  split_and!; try done.
  - intros r. exists (spec_get t r). intros fuel Hfuel. split; [by apply Hg1|by apply Hg2].
  - exists (spec_enumerate t). intros k.
    destruct (Hit1 k) as (it1 & ?), (Hit2 k) as (it2 & ?). eauto.
Qed.

(** ** set_register and remove_register in turn *)

Lemma spec_remove_set_absent t r rl v b :
  spec_get t r = None → spec_remove (spec_set t r rl v) r b = t b.
Proof.
  intros Hnone. unfold spec_remove, spec_set.
  destruct (decide (b = bucket_of r)) as [->|Hb]; [|done].
  rewrite decide_False by (by apply spec_find_None).
  rewrite filter_app, filter_all.
  - rewrite filter_cons_False by (intros Hr; by apply Hr). apply app_nil_r.
  - intros x Hx Hr. apply spec_find_None in Hnone. apply Hnone.
    apply list_elem_of_fmap. by exists x.
Qed.

(** A record that carries [r] after a step that keeps register numbers
    carried it before. *)
Lemma reg_at_back (es es' : list dwarf_cfa_reg_entry) k r :
  (∀ e0, es !! k = Some e0 → ∃ e1, es' !! k = Some e1 ∧ regnum e1 = regnum e0) →
  is_Some (es !! k) → reg_at es' k r → reg_at es k r.
Proof.
  intros Hkeep [e0 He0] (e1 & He1 & Hr). destruct (Hkeep e0 He0) as (e1' & He1' & Hr').
  exists e0. split; [done|]. congruence.
Qed.

Lemma reg_at_keep (es es' : list dwarf_cfa_reg_entry) k r :
  (∀ e0, es !! k = Some e0 → ∃ e1, es' !! k = Some e1 ∧ regnum e1 = regnum e0) →
  reg_at es k r → reg_at es' k r.
Proof.
  intros Hkeep (e0 & He0 & Hr). destruct (Hkeep e0 He0) as (e1 & He1 & Hr').
  exists e1. split; [done|]. congruence.
Qed.

(** X15. Setting a register and removing it again, when no record behind
    the head of the free list carries its number: both calls return, and
    the stack is back where it was for every observer. The register count,
    what [get_register_rule] finds for every register, what the iterator
    yields, the depth and the free list are those before the two calls;
    and still no record behind the head of the free list carries the
    number, so that the two calls can be made again. *)
Theorem set_then_remove_round_trip s r rl v f F' fuel0 :
  reachable s → (rl ≤ 255)%Z →
  get_register_rule fuel0 s r = Ok None →
  chain (_entries s) (_free_list s) (f :: F') →
  (∀ k, k ∈ F' → ¬ reg_at (_entries s) k r) →
  ∃ s1 s2 (L : list (Z * Z * Z)),
    (∀ fuel, DWARF_CFA_STACK_MAX_REGISTERS < fuel →
       set_register fuel s r rl v = Ok (true, s1))
    ∧ (∀ fuel, DWARF_CFA_STACK_MAX_REGISTERS < fuel → remove_register fuel s1 r = Ok s2)
    ∧ _table_depth s2 = _table_depth s
    ∧ get_register_count s2 = get_register_count s
    ∧ (∀ r', ∃ found, ∀ fuel, DWARF_CFA_STACK_MAX_REGISTERS < fuel →
         get_register_rule fuel s r' = Ok found
         ∧ get_register_rule fuel s2 r' = Ok found)
    ∧ (∀ k, ∃ it it2,
         iterate (length L + k) s dwarf_cfa_stack_iterator_new
         = Ok ((Some <$> L) ++ replicate k None, it)
         ∧ iterate (length L + k) s2 dwarf_cfa_stack_iterator_new
           = Ok ((Some <$> L) ++ replicate k None, it2))
    ∧ chain (_entries s2) (_free_list s2) (f :: F')
    ∧ (∀ k, k ∈ F' → ¬ reg_at (_entries s2) k r).
Proof.
  intros (A & Htr)%reachable_traced Hrl Hget HF Hclean.
  destruct (traced_current _ _ Htr) as (t & A' & ->).
  destruct (traced_rep _ _ Htr) as (F0 & T & HR & HA).
  rewrite (chain_functional _ _ _ _ (rep_free _ _ _ HR) HF) in HR.
  destruct (traced_observe _ _ _ Htr) as (Hg & Hcnt & Hit).
  assert (spec_get t r = None) as Hnone.
  { symmetry. eapply get_register_rule_det; [done|]. intros fuel Hfuel. by apply Hg. }
  pose proof (rep_nodup _ _ _ HR) as Hnd. simpl in Hnd.
  apply NoDup_cons in Hnd as (Hf & _).
  assert (∀ k, k ∈ F' → k ≠ f ∧ is_Some (_entries s !! k)) as HF'.
  { intros k Hk. split.
    - intros ->. apply Hf. apply elem_of_app. by left.
    - eapply (seg_lookup _ _ (f :: F')); [apply HF|by right]. }
  destruct (set_register_fresh s f F' T r rl v HR Hrl)
    as (s1 & Hrun1 & HR1 & Hd1 & Hf1 & Hkeep1 & _).
  { by eapply not_found_absent. }
  destruct (remove_register_present s1 F' _ r (T (_table_depth s) (bucket_of r)) f []
              {| value := v; regnum := r; rule := uint8 rl; next := INVALID |} HR1)
    as (s2 & Hrun2 & HR2 & Hd2 & _ & Hkeep2 & _).
  { rewrite Hd1. unfold tupd. by rewrite decide_True. }
  { done. }
  { done. }
  { intros k Hk Hreg. destruct (HF' k Hk) as (Hne & Hsome).
    apply (Hclean k Hk). eapply reg_at_back; [|done..].
    intros e0 He0. destruct (Hkeep1 k e0 Hne He0) as (e1 & ? & ? & _). eauto. }
  assert (traced s1 (spec_set t r rl v :: A')) as Htr1.
  { apply (traced_step s (t :: A') (S DWARF_CFA_STACK_MAX_REGISTERS)
             (Set_register r rl v) true s1 Htr). simpl. apply Hrun1. lia. }
  assert (traced s2 (spec_remove (spec_set t r rl v) r :: A')) as Htr2.
  { apply (traced_step s1 _ (S DWARF_CFA_STACK_MAX_REGISTERS)
             (Remove_register r) true s2 Htr1). simpl. by rewrite Hrun2 by lia. }
  destruct (traced_observe _ _ _ Htr2) as (Hg2 & Hcnt2 & Hit2).
  assert (spec_enumerate (spec_remove (spec_set t r rl v) r) = spec_enumerate t) as Henum.
  { apply flat_map_ext_elem. intros b _. by apply spec_remove_set_absent. }
  rewrite Henum in Hcnt2, Hit2.
  exists s1, s2, (spec_enumerate t). split_and!; try done.
  - by rewrite Hd2.
  - by rewrite Hcnt, Hcnt2.
  - intros r'. exists (spec_get t r'). intros fuel Hfuel. split; [by apply Hg|].
    rewrite Hg2 by done. unfold spec_get. by rewrite spec_remove_set_absent.
  - intros k. destruct (Hit k) as (it & ?), (Hit2 k) as (it2 & ?). eauto.
  - apply (rep_free _ _ _ HR2).
  - intros k Hk Hreg. destruct (HF' k Hk) as (Hne & Hsome).
    apply (Hclean k Hk). eapply reg_at_back; [|done|].
    { intros e0 He0. destruct (Hkeep1 k e0 Hne He0) as (e1 & ? & ? & _). eauto. }
    destruct Hsome as [e0 He0]. destruct (Hkeep1 k e0 Hne He0) as (e1 & He1 & _).
    eapply reg_at_back; [|by eexists|done].
    intros e He. destruct (Hkeep2 k e He) as (e2 & ? & ? & _). eauto.
Qed.

(** X16. Two removals, then the first register set and removed again:
    the last call never returns. Let registers [r] and [r2] be set at the
    current level and no record on the free list carry either number.
    Then [remove_register(r)], [remove_register(r2)] and
    [set_register(r, ...)] return, and the [remove_register(r)] that
    follows does not: the record [r] left behind by its first removal lies
    on the free list, behind the entry the second removal put there. *)
Theorem remove_remove_set_remove_hangs s r r2 x x2 rl v fuel0 fuel2 :
  reachable s → r ≠ r2 → (rl ≤ 255)%Z →
  get_register_rule fuel0 s r = Ok (Some x) →
  get_register_rule fuel2 s r2 = Ok (Some x2) →
  (∀ F k, chain (_entries s) (_free_list s) F → k ∈ F →
     ¬ reg_at (_entries s) k r ∧ ¬ reg_at (_entries s) k r2) →
  ∃ s1 s2 s3,
    (∀ fuel, DWARF_CFA_STACK_MAX_REGISTERS < fuel → remove_register fuel s r = Ok s1)
    ∧ (∀ fuel, DWARF_CFA_STACK_MAX_REGISTERS < fuel → remove_register fuel s1 r2 = Ok s2)
    ∧ (∀ fuel, DWARF_CFA_STACK_MAX_REGISTERS < fuel →
         set_register fuel s2 r rl v = Ok (true, s3))
    ∧ ∀ fuel, remove_register fuel s3 r = OutOfFuel.
Proof.
  intros (A & Htr)%reachable_traced Hne Hrl Hget Hget2 Hclean.
  destruct (traced_current _ _ Htr) as (t & A' & ->).
  destruct (traced_rep _ _ Htr) as (F & T & HR & HA).
  destruct (traced_observe _ _ _ Htr) as (Hg & _).
  pose proof (rep_free _ _ _ HR) as HF.
  destruct (found_present _ _ _ _ _ _ HR Hget) as (c1 & i & ei & c2 & HT & Hei & Hri).
  destruct (remove_register_present s F T r c1 i c2 ei HR HT Hei Hri)
    as (s1 & Hrun1 & HR1 & Hd1 & _ & Hkeep1 & _).
  { intros k Hk. by apply (Hclean F k). }
  assert (traced s1 (spec_remove t r :: A')) as Htr1.
  { apply (traced_step s (t :: A') (S DWARF_CFA_STACK_MAX_REGISTERS)
             (Remove_register r) true s1 Htr). simpl. by rewrite Hrun1 by lia. }
  destruct (traced_observe _ _ _ Htr1) as (Hg1 & _).
  assert (get_register_rule (S DWARF_CFA_STACK_MAX_REGISTERS) s1 r2 = Ok (Some x2)) as Hget21.
  { rewrite Hg1 by lia. rewrite spec_get_remove_other by done. f_equal. symmetry.
    eapply get_register_rule_det; [done|]. intros fuel Hfuel. by apply Hg. }
  destruct (found_present _ _ _ _ _ _ HR1 Hget21) as (d1 & j & ej & d2 & HT1 & Hej & Hrj).
  assert (reg_at (_entries s1) i r) as Hi1.
  { apply (reg_at_keep (_entries s)); [|by exists ei].
    intros e0 He0. destruct (Hkeep1 i e0 He0) as (e1 & ? & ? & _). eauto. }
  destruct (remove_register_present s1 (i :: F) _ r2 d1 j d2 ej HR1 HT1 Hej Hrj)
    as (s2 & Hrun2 & HR2 & Hd2 & _ & Hkeep2 & _).
  { intros k Hk Hreg.
    assert (is_Some (_entries s !! k)) as Hsome.
    { apply elem_of_cons in Hk as [->|Hk]; [by exists ei|]. by eapply seg_lookup. }
    assert (reg_at (_entries s) k r2) as Hreg0.
    { eapply reg_at_back; [|done..].
      intros e0 He0. destruct (Hkeep1 k e0 He0) as (e1 & ? & ? & _). eauto. }
    apply elem_of_cons in Hk as [->|Hk].
    - destruct Hreg0 as (e & He & Hr2). congruence.
    - by destruct (Hclean F k HF Hk). }
  assert (traced s2 (spec_remove (spec_remove t r) r2 :: A')) as Htr2.
  { apply (traced_step s1 _ (S DWARF_CFA_STACK_MAX_REGISTERS)
             (Remove_register r2) true s2 Htr1). simpl. by rewrite Hrun2 by lia. }
  destruct (traced_observe _ _ _ Htr2) as (Hg2 & _).
  assert (reg_at (_entries s2) i r) as Hi2.
  { apply (reg_at_keep (_entries s1)); [|done].
    intros e0 He0. destruct (Hkeep2 i e0 He0) as (e1 & ? & ? & _). eauto. }
  pose proof (rep_nodup _ _ _ HR2) as Hnd. simpl in Hnd.
  apply NoDup_cons in Hnd as (Hj & _).
  assert (i ≠ j) as Hij.
  { intros ->. apply Hj. left. }
  destruct (set_register_fresh s2 j (i :: F) _ r rl v HR2 Hrl)
    as (s3 & Hrun3 & HR3 & Hd3 & Hj3 & Hkeep3 & _).
  { apply (not_found_absent (S DWARF_CFA_STACK_MAX_REGISTERS) s2 _ _ r HR2).
    rewrite Hg2 by lia. rewrite spec_get_remove_other by done.
    by rewrite spec_get_remove_same. }
  exists s1, s2, s3. split_and!; [done..|].
  eapply (remove_register_diverges s3 (i :: F) _ r j _ i HR3); [|done|done|left|].
  - rewrite Hd3. unfold tupd. rewrite decide_True by done. apply elem_of_app. right. left.
  - apply (reg_at_keep (_entries s2)); [|done].
    intros e0 He0. destruct (Hkeep3 i e0 Hij He0) as (e1 & ? & ? & _). eauto.
Qed.

(** ** A level left full *)

(** X17. A popped level keeps its entries. On a new stack let
    [push_state] be called, then [set_register] for [MAX_REGISTERS]
    different registers, then [pop_state]: every call succeeds, and the
    stack is back at depth 0, where it shows no rule at all
    ([get_register_count] is 0, no register is found), yet
    [set_register] returns false for every register: the entries of the
    level that was left are on no list. *)
Theorem popped_level_keeps_its_entries mem rs :
  storage mem → 1 < DWARF_CFA_STACK_MAX_STATES →
  NoDup (spec_regnum <$> rs) →
  (∀ x, x ∈ rs → (0 ≤ x.1.2 ≤ 255)%Z) →
  length rs = DWARF_CFA_STACK_MAX_REGISTERS →
  ∃ s0 s1 s2 s3,
    dwarf_cfa_stack_new mem = Ok s0
    ∧ push_state s0 = Ok (true, s1)
    ∧ (∀ fuel, DWARF_CFA_STACK_MAX_REGISTERS < fuel →
         run_results fuel (set_op <$> rs) s1
         = Ok (replicate DWARF_CFA_STACK_MAX_REGISTERS true, s2))
    ∧ pop_state s2 = Ok (true, s3)
    ∧ _table_depth s3 = 0
    ∧ get_register_count s3 = Ok 0%Z
    ∧ (∀ r fuel, DWARF_CFA_STACK_MAX_REGISTERS < fuel →
         get_register_rule fuel s3 r = Ok None)
    ∧ (∀ r rl v fuel, (rl ≤ 255)%Z → DWARF_CFA_STACK_MAX_REGISTERS < fuel →
         set_register fuel s3 r rl v = Ok (false, s3)).
Proof.
  intros Hmem Hstates Hnd Hrs Hlen.
  destruct (dwarf_cfa_stack_new_ok mem Hmem) as (s0 & Hnew & HR0 & Hd0).
  pose proof (traced_new mem s0 Hmem Hnew) as Htr0.
  destruct (push_state_ok s0 _ _ HR0) as (s1 & Hpush & HR1 & Hd1 & _); [lia|].
  pose proof (traced_step s0 _ 0 Push_state true s1 Htr0 Hpush) as Htr1. simpl in Htr1.
  destruct (set_registers_fresh rs s1 spec_empty [spec_empty] _ Htr1
              (rep_free _ _ _ HR1) Hnd)
    as (s2 & t' & Hrun & Htr2 & HF2 & _).
  { intros x Hx. split; [done|by apply Hrs]. }
  { rewrite length_seq. lia. }
  rewrite Hlen in Hrun, HF2. rewrite drop_ge in HF2 by (rewrite length_seq; lia).
  destruct (traced_rep _ _ Htr2) as (F2 & T2 & HR2 & (Hlen2 & _)).
  assert (F2 = []) as ->.
  { eapply chain_functional; [apply (rep_free _ _ _ HR2)|done]. }
  simpl in Hlen2.
  destruct (pop_state_ok s2 [] T2 HR2) as (Hpop & HR3); [lia|].
  pose proof (traced_step s2 _ 0 Pop_state true _ Htr2 Hpop) as Htr3. simpl in Htr3.
  destruct (traced_observe _ _ _ Htr3) as (Hget & Hcnt & _).
  rewrite spec_enumerate_empty in Hcnt.
  eexists s0, s1, s2, _. split_and!; try done.
  - simpl. lia.
  - intros r rl v fuel Hrl Hfuel.
    apply (set_register_exhausted _ [] T2 r rl v HR3 Hrl); [| |done].
    + apply (not_found_absent fuel _ [] T2 r HR3). by apply Hget.
    + by apply (rep_free_nil _ [] T2).
Qed.

End Proofs.

(** * The claims on concrete runs *)

Lemma plcrash_config_valid : config_valid plcrash_config.
Proof. unfold config_valid. simpl. lia. Qed.

Section ConcreteRuns.
#[local] Existing Instance plcrash_config.

Lemma s_leak_reachable : reachable s_leak.
Proof.
  apply (scenario_reachable
           [Push_state; Set_register 1 1 0; Pop_state; Push_state]).
  vm_compute. reflexivity.
Qed.

(** C3, as stated, fails. After [push_state], [set_register(1, ...)],
    [pop_state], [push_state], entry 0 is not on the free list and is
    chained in no bucket of any level: the partition of the pool does not
    hold in this reachable state. *)
Lemma pool_partition_counterexample :
  reachable s_leak
  ∧ ¬ on_free_list s_leak 0
  ∧ (∀ l b, ¬ in_bucket s_leak l b 0)
  ∧ ¬ pool_partition s_leak.
Proof.
  assert (¬ on_free_list s_leak 0) as Hfree.
  { intros (F & HF & Hi).
    rewrite (walk_unique 101 (_entries s_leak) (_free_list s_leak) (seq 1 99) F) in Hi;
      [|by vm_compute|done].
    apply elem_of_seq in Hi. lia. }
  assert (∀ l b, ¬ in_bucket s_leak l b 0) as Hbucket.
  { intros l b (row & h & c & Hrow & Hh & Hc & Hi).
    assert (Forall (Forall (λ h, h = 255)) (_table_stack s_leak)) as Hall.
    { apply (bool_decide_unpack _). by vm_compute. }
    pose proof (Forall_lookup_1 _ _ _ _ (Forall_lookup_1 _ _ _ _ Hall Hrow) Hh) as ->.
    unfold chain in Hc. destruct c as [|j c]; [by inversion Hi|].
    destruct Hc as (<- & Hne & _). by apply Hne. }
  split_and!; [apply s_leak_reachable|done..|].
  intros Hpart. destruct (Hpart 0) as [(? & _)|(_ & l & b & _ & Hin & _)].
  - simpl. lia.
  - done.
  - by eapply Hbucket.
Qed.

Lemma s_stale_reachable : reachable s_stale.
Proof.
  apply (scenario_reachable
           [Set_register 1 1 0; Set_register 2 1 0;
            Remove_register 1; Remove_register 2; Set_register 1 1 0]).
  vm_compute. reflexivity.
Qed.

(** C9, at a failing input. After [set_register(1)], [set_register(2)],
    [remove_register(1)], [remove_register(2)], [set_register(1)], every
    call having returned, [remove_register(1)] does not terminate: no
    amount of fuel lets it return. *)
Theorem remove_register_does_not_terminate :
  reachable s_stale ∧ ∀ fuel, remove_register fuel s_stale 1 = OutOfFuel.
Proof.
  split; [apply s_stale_reachable|].
  destruct (reachable_rep plcrash_config_valid s_stale s_stale_reachable) as (F & T & HR).
  destruct (rep_bucket s_stale F T (_table_depth s_stale) (bucket_of 1) HR
              (Nat.le_refl _) (bucket_of_lt plcrash_config_valid 1))
    as (row & h & Hrow & Hh & (Hc & _)).
  vm_compute in Hrow. injection Hrow as <-. vm_compute in Hh. injection Hh as <-.
  pose proof (rep_free _ _ _ HR) as HF.
  apply (remove_register_diverges plcrash_config_valid s_stale F T 1 1
           {| value := 0; regnum := 1; rule := 1; next := 255 |} 0 HR).
  - unfold chain in Hc. destruct (T (_table_depth s_stale) (bucket_of 1)) as [|i c].
    + unfold seg in Hc. discriminate Hc.
    + destruct Hc as (<- & _). left.
  - by vm_compute.
  - done.
  - unfold chain in HF. destruct F as [|f F].
    + unfold seg in HF. vm_compute in HF. discriminate HF.
    + destruct HF as (Hf & _). vm_compute in Hf. subst f. left.
  - eexists. split; [by vm_compute|done].
Qed.

(** ** The theorems at concrete states *)

Lemma depth_state_machine_witness :
  reachable s_two
  ∧ _table_depth s_two < DWARF_CFA_STACK_MAX_STATES
  ∧ (∃ ok s', push_state s_two = Ok (ok, s')
       ∧ (ok = false ↔ _table_depth s_two + 1 = DWARF_CFA_STACK_MAX_STATES)
       ∧ (ok = false → s' = s_two)
       ∧ (ok = true →
            _table_depth s' = _table_depth s_two + 1
            ∧ get_register_count s' = Ok 0%Z
            ∧ _table_stack s' !! _table_depth s'
              = Some (replicate DWARF_CFA_STACK_BUCKET_COUNT INVALID)))
  ∧ (∃ ok s', pop_state s_two = Ok (ok, s')
       ∧ (ok = false ↔ _table_depth s_two = 0)
       ∧ (ok = false → s' = s_two)
       ∧ (ok = true → s' = with_table_depth s_two (_table_depth s_two - 1)
                      ∧ _table_depth s' + 1 = _table_depth s_two)).
Proof.
  assert (reachable s_two) as Hs.
  { apply (scenario_reachable [Set_register 1 1 (-8); Set_register 2 2 0]).
    vm_compute. reflexivity. }
  split; [exact Hs|]. exact (depth_state_machine plcrash_config_valid s_two Hs).
Defined.

Lemma push_state_frame_no_reclaim_witness :
  reachable s_two
  ∧ (∀ s', push_state s_two = Ok (true, s') →
       _entries s' = _entries s_two
       ∧ _free_list s' = _free_list s_two
       ∧ ∀ l, l ≠ _table_depth s' →
           _table_stack s' !! l = _table_stack s_two !! l
           ∧ _register_count s' !! l = _register_count s_two !! l)
  ∧ (∀ fuel o ok s' F F',
       perform fuel o s_two = Ok (ok, s') →
       (∀ r, o ≠ Remove_register r) →
       chain (_entries s_two) (_free_list s_two) F →
       chain (_entries s') (_free_list s') F' →
       F' `suffix_of` F).
Proof.
  assert (reachable s_two) as Hs.
  { apply (scenario_reachable [Set_register 1 1 (-8); Set_register 2 2 0]).
    vm_compute. reflexivity. }
  split; [exact Hs|]. exact (push_state_frame_no_reclaim plcrash_config_valid s_two Hs).
Defined.

(** C10, as stated, fails. The constructor clears the bucket row of
    level 0 and [push_state] the row of the level it enters; the rows of
    the levels above keep what the storage held. Constructed over
    [stray_storage] and pushed once, the stack is at depth 1 and bucket 0
    of level 2 holds 200, which is neither the invalid index nor below
    [MAX_REGISTERS]: not every bucket-head slot at any level holds a safe
    index. *)
Lemma index_safety_counterexample :
  reachable s_stray
  ∧ _table_depth s_stray = 1
  ∧ (∃ row, _table_stack s_stray !! 2 = Some row ∧ row !! 0 = Some 200)
  ∧ ¬ safe_index 200
  ∧ ¬ (∀ l row b h, _table_stack s_stray !! l = Some row → row !! b = Some h →
         safe_index h).
Proof.
  assert (storage stray_storage) as Hmem.
  { unfold storage. vm_compute. repeat constructor. }
  assert (reachable s_stray) as Hs.
  { apply (reachable_step (state_of (dwarf_cfa_stack_new stray_storage)) 101
             Push_state true s_stray).
    - apply (reachable_new stray_storage); [exact Hmem|]. vm_compute. reflexivity.
    - vm_compute. reflexivity. }
  assert (¬ safe_index 200) as Hbad.
  { clear. unfold safe_index. simpl. lia. }
  split_and!; [exact Hs|by vm_compute| |exact Hbad|].
  - eexists. split; vm_compute; reflexivity.
  - intros Hall. apply Hbad.
    apply (Hall 2 (replicate DWARF_CFA_STACK_BUCKET_COUNT 200) 0 200);
      vm_compute; reflexivity.
Qed.

Lemma index_safety_witness :
  reachable s_three
  ∧ safe_index (_free_list s_three)
  ∧ (∀ i e, _entries s_three !! i = Some e → safe_index (next e))
  ∧ (∀ l row b h, l ≤ _table_depth s_three →
       _table_stack s_three !! l = Some row → row !! b = Some h → safe_index h)
  ∧ (∀ fuel r, remove_register fuel s_three r ≠ OutOfBounds).
Proof.
  assert (reachable s_three) as Hs.
  { apply (scenario_reachable
             [Set_register 1 1 (-8); Set_register 2 2 0; Set_register 15 3 4]).
    vm_compute. reflexivity. }
  destruct (index_safety plcrash_config_valid s_three Hs)
    as (_ & _ & Hf & Hn & Hb & _ & _ & Hr & _).
  exact (conj Hs (conj Hf (conj Hn (conj Hb Hr)))).
Defined.

Lemma s_hundred_never_popped : never_popped s_hundred.
Proof.
  apply (run_results_never_popped 101 (set_op <$> rules_hundred) s_zero
           (replicate 100 true)).
  - apply (never_popped_new blank_storage); [apply blank_storage_ok|].
    vm_compute. reflexivity.
  - apply Forall_fmap, Forall_forall. intros x _. discriminate.
  - vm_compute. reflexivity.
Qed.

Lemma set_register_failure_atomic_witness :
  reachable s_hundred
  ∧ never_popped s_hundred
  ∧ get_register_count s_hundred = Ok 100%Z
  ∧ set_register 101 s_hundred 100 1 0 = Ok (false, s_hundred)
  ∧ ∃ ok s' found,
      (∀ fuel, DWARF_CFA_STACK_MAX_REGISTERS < fuel →
         set_register fuel s_hundred 100 1 0 = Ok (ok, s'))
      ∧ (∀ fuel, DWARF_CFA_STACK_MAX_REGISTERS < fuel →
           get_register_rule fuel s_hundred 100 = Ok found)
      ∧ (ok = false ↔ found = None ∧ _free_list s_hundred = INVALID)
      ∧ (ok = false → s' = s_hundred)
      ∧ (live_count s_hundred = Z.of_nat DWARF_CFA_STACK_MAX_REGISTERS →
           _free_list s_hundred = INVALID)
      ∧ (∀ A, traced s_hundred A →
           live_count s_hundred = Z.of_nat (length (flat_map spec_enumerate A)))
      ∧ (∀ F, chain (_entries s_hundred) (_free_list s_hundred) F →
           (Z.of_nat (length F) + live_count s_hundred
            ≤ Z.of_nat DWARF_CFA_STACK_MAX_REGISTERS)%Z
           ∧ (never_popped s_hundred →
                (Z.of_nat (length F) + live_count s_hundred
                 = Z.of_nat DWARF_CFA_STACK_MAX_REGISTERS)%Z)
           ∧ (ok = true → found = None →
                ∃ f F', F = f :: F'
                  ∧ chain (_entries s') (_free_list s') F'
                  ∧ (live_count s' = live_count s_hundred + 1)%Z)
           ∧ (ok = true → found ≠ None →
                chain (_entries s') (_free_list s') F
                ∧ live_count s' = live_count s_hundred))
      ∧ (never_popped s_hundred →
           (ok = false ↔
            found = None
            ∧ live_count s_hundred = Z.of_nat DWARF_CFA_STACK_MAX_REGISTERS)).
Proof.
  assert (reachable s_hundred) as Hs.
  { apply never_popped_reachable, s_hundred_never_popped. }
  assert (get_register_count s_hundred = Ok 100%Z) as Hcnt.
  { vm_compute. reflexivity. }
  assert (set_register 101 s_hundred 100 1 0 = Ok (false, s_hundred)) as Hset.
  { vm_compute. reflexivity. }
  split; [exact Hs|]. split; [exact s_hundred_never_popped|].
  split; [exact Hcnt|]. split; [exact Hset|].
  apply (set_register_failure_atomic plcrash_config_valid s_hundred 100 1 0 Hs).
  clear. lia.
Defined.

Lemma set_register_update_in_place_witness :
  reachable s_two
  ∧ set_register 101 s_two 15 3 4 = Ok (true, s_three)
  ∧ ∃ s2 L,
      (∀ fuel, DWARF_CFA_STACK_MAX_REGISTERS < fuel →
         set_register fuel s_three 15 2 9 = Ok (true, s2))
      ∧ get_register_count s2 = get_register_count s_three
      ∧ _free_list s2 = _free_list s_three
      ∧ (∀ F, chain (_entries s_three) (_free_list s_three) F →
              chain (_entries s2) (_free_list s2) F)
      ∧ (∀ fuel, DWARF_CFA_STACK_MAX_REGISTERS < fuel →
           get_register_rule fuel s2 15 = Ok (Some (2, 9)%Z))
      ∧ (∀ k, ∃ it,
           iterate (length L + k) s2 dwarf_cfa_stack_iterator_new
           = Ok ((Some <$> L) ++ replicate k None, it))
      ∧ length (filter (λ x, spec_regnum x = 15%Z) L) = 1.
Proof.
  assert (reachable s_two) as Hs.
  { apply (scenario_reachable [Set_register 1 1 (-8); Set_register 2 2 0]).
    vm_compute. reflexivity. }
  assert (set_register 101 s_two 15 3 4 = Ok (true, s_three)) as Hset.
  { vm_compute. reflexivity. }
  split; [exact Hs|]. split; [exact Hset|].
  apply (set_register_update_in_place plcrash_config_valid
           s_two 15 3 4 2 9 101 s_three Hs Hset). lia.
Defined.

Lemma iterator_complete_in_order_witness :
  traced s_three spec_three
  ∧ ∃ t A', spec_three = t :: A'
      ∧ (∀ k, ∃ it,
           iterate (length (spec_enumerate t) + k) s_three dwarf_cfa_stack_iterator_new
           = Ok ((Some <$> spec_enumerate t) ++ replicate k None, it))
      ∧ NoDup (spec_regnum <$> spec_enumerate t)
      ∧ (∀ r rl v,
           (r, rl, v) ∈ spec_enumerate t ↔
           ∀ fuel, DWARF_CFA_STACK_MAX_REGISTERS < fuel →
             get_register_rule fuel s_three r = Ok (Some (rl, v)))
      ∧ (∀ b x, b < DWARF_CFA_STACK_BUCKET_COUNT → x ∈ t b →
           bucket_of (spec_regnum x) = b).
Proof.
  assert (traced s_three spec_three) as Htr.
  { apply (traced_step s_two _ 101 (Set_register 15 3 4) true s_three);
      [|vm_compute; reflexivity].
    apply (traced_step s_one _ 101 (Set_register 2 2 0) true s_two);
      [|vm_compute; reflexivity].
    apply (traced_step s_zero _ 101 (Set_register 1 1 (-8)) true s_one);
      [|vm_compute; reflexivity].
    apply (traced_new blank_storage s_zero); [apply blank_storage_ok|].
    vm_compute. reflexivity. }
  split; [exact Htr|].
  exact (iterator_complete_in_order plcrash_config_valid s_three spec_three Htr).
Defined.

Lemma save_restore_round_trip_witness :
  reachable s_two
  ∧ push_state s_two = Ok (true, s_pushed)
  ∧ above (_table_depth s_two) s_pushed s_inner
  ∧ pop_state s_inner = Ok (true, s_restored)
  ∧ ∃ L : list (Z * Z * Z),
      get_register_count s_two = Ok (Z.of_nat (length L))
      ∧ get_register_count s_restored = Ok (Z.of_nat (length L))
      ∧ (∀ r, ∃ found, ∀ fuel, DWARF_CFA_STACK_MAX_REGISTERS < fuel →
           get_register_rule fuel s_two r = Ok found
           ∧ get_register_rule fuel s_restored r = Ok found)
      ∧ (∀ k, ∃ it it3,
           iterate (length L + k) s_two dwarf_cfa_stack_iterator_new
           = Ok ((Some <$> L) ++ replicate k None, it)
           ∧ iterate (length L + k) s_restored dwarf_cfa_stack_iterator_new
             = Ok ((Some <$> L) ++ replicate k None, it3)).
Proof.
  assert (reachable s_two) as Hs.
  { apply (scenario_reachable [Set_register 1 1 (-8); Set_register 2 2 0]).
    vm_compute. reflexivity. }
  assert (push_state s_two = Ok (true, s_pushed)) as Hpush.
  { vm_compute. reflexivity. }
  assert (above (_table_depth s_two) s_pushed s_inner) as Hab.
  { apply (above_step _ s_pushed s_pushed 101 (Set_register 1 3 3) true s_inner).
    - apply above_refl. vm_compute. lia.
    - vm_compute. reflexivity.
    - vm_compute. lia. }
  assert (pop_state s_inner = Ok (true, s_restored)) as Hpop.
  { vm_compute. reflexivity. }
  split_and!; [exact Hs|exact Hpush|exact Hab|exact Hpop|].
  apply (save_restore_round_trip plcrash_config_valid
           s_two s_pushed s_inner s_restored Hs Hpush Hab Hpop).
  vm_compute. reflexivity.
Defined.

Lemma pool_entries_in_one_place_at_most_witness :
  reachable s_leak
  ∧ (on_free_list s_leak 1 → ∀ l b, l ≤ _table_depth s_leak → ¬ in_bucket s_leak l b 1)
  ∧ (∀ l b l' b', l ≤ _table_depth s_leak → l' ≤ _table_depth s_leak →
       in_bucket s_leak l b 1 → in_bucket s_leak l' b' 1 → l = l' ∧ b = b')
  ∧ (∀ F, chain (_entries s_leak) (_free_list s_leak) F → NoDup F)
  ∧ (∀ l b row h c, _table_stack s_leak !! l = Some row → row !! b = Some h →
       chain (_entries s_leak) h c → NoDup c).
Proof.
  assert (reachable s_leak) as Hs.
  { apply (scenario_reachable [Push_state; Set_register 1 1 0; Pop_state; Push_state]).
    vm_compute. reflexivity. }
  split; [exact Hs|].
  exact (pool_entries_in_one_place_at_most plcrash_config_valid s_leak Hs 1).
Defined.

Lemma remove_after_set_never_returns_witness :
  reachable s_recycled
  ∧ get_register_rule 101 s_recycled 1 = Ok None
  ∧ chain (_entries s_recycled) (_free_list s_recycled) (1 :: 0 :: seq 2 98)
  ∧ reg_at (_entries s_recycled) 0 1
  ∧ ∃ s1,
      (∀ fuel, DWARF_CFA_STACK_MAX_REGISTERS < fuel →
         set_register fuel s_recycled 1 1 0 = Ok (true, s1))
      ∧ ∀ fuel, remove_register fuel s1 1 = OutOfFuel.
Proof.
  assert (reachable s_recycled) as Hs.
  { apply (scenario_reachable
             [Set_register 1 1 0; Set_register 2 1 0;
              Remove_register 1; Remove_register 2]).
    vm_compute. reflexivity. }
  assert (get_register_rule 101 s_recycled 1 = Ok None) as Hget.
  { vm_compute. reflexivity. }
  assert (chain (_entries s_recycled) (_free_list s_recycled) (1 :: 0 :: seq 2 98)) as HF.
  { apply (walk_chain 101). vm_compute. reflexivity. }
  assert (reg_at (_entries s_recycled) 0 1) as Hk.
  { eexists. split; [vm_compute; reflexivity|reflexivity]. }
  split_and!; [exact Hs|exact Hget|exact HF|exact Hk|].
  apply (remove_after_set_never_returns plcrash_config_valid
           s_recycled 1 1 0 1 (0 :: seq 2 98) 0 101 Hs); [lia|exact Hget|exact HF| |exact Hk].
  left.
Defined.

(** ** The further properties at concrete states *)

Lemma s_two_reachable : reachable s_two.
Proof.
  apply (scenario_reachable [Set_register 1 1 (-8); Set_register 2 2 0]).
  vm_compute. reflexivity.
Qed.

Lemma s_three_reachable : reachable s_three.
Proof.
  apply (scenario_reachable
           [Set_register 1 1 (-8); Set_register 2 2 0; Set_register 15 3 4]).
  vm_compute. reflexivity.
Qed.

Lemma s_inner_reachable : reachable s_inner.
Proof.
  apply (scenario_reachable
           [Set_register 1 1 (-8); Set_register 2 2 0; Push_state; Set_register 1 3 3]).
  vm_compute. reflexivity.
Qed.

Lemma constructor_gives_empty_stack_witness :
  storage dirty_storage
  ∧ ∃ s, dwarf_cfa_stack_new dirty_storage = Ok s
      ∧ _table_depth s = 0
      ∧ get_register_count s = Ok 0%Z
      ∧ (∀ r fuel, DWARF_CFA_STACK_MAX_REGISTERS < fuel →
           get_register_rule fuel s r = Ok None)
      ∧ (∀ k, ∃ it, iterate k s dwarf_cfa_stack_iterator_new = Ok (replicate k None, it))
      ∧ _free_list s = 0
      ∧ chain (_entries s) (_free_list s) (seq 0 DWARF_CFA_STACK_MAX_REGISTERS).
Proof.
  assert (storage dirty_storage) as Hmem.
  { unfold storage. vm_compute. repeat constructor. }
  split; [exact Hmem|].
  exact (constructor_gives_empty_stack plcrash_config_valid dirty_storage Hmem).
Defined.

Lemma set_register_then_get_witness :
  reachable s_two
  ∧ set_register 101 s_two 15 3 4 = Ok (true, s_three)
  ∧ ∀ fuel', DWARF_CFA_STACK_MAX_REGISTERS < fuel' →
      get_register_rule fuel' s_three 15 = Ok (Some (3, 4)%Z).
Proof.
  assert (set_register 101 s_two 15 3 4 = Ok (true, s_three)) as Hset.
  { vm_compute. reflexivity. }
  split_and!; [exact s_two_reachable|exact Hset|].
  apply (set_register_then_get plcrash_config_valid s_two 15 3 4 101 s_three
           s_two_reachable); [lia|exact Hset].
Defined.

Lemma set_register_keeps_other_registers_witness :
  reachable s_two
  ∧ set_register 101 s_two 15 3 4 = Ok (true, s_three)
  ∧ ∃ found, ∀ fuel', DWARF_CFA_STACK_MAX_REGISTERS < fuel' →
      get_register_rule fuel' s_two 1 = Ok found
      ∧ get_register_rule fuel' s_three 1 = Ok found.
Proof.
  assert (set_register 101 s_two 15 3 4 = Ok (true, s_three)) as Hset.
  { vm_compute. reflexivity. }
  split_and!; [exact s_two_reachable|exact Hset|].
  apply (set_register_keeps_other_registers plcrash_config_valid s_two 15 3 4 101 true
           s_three 1 s_two_reachable Hset). lia.
Defined.

Lemma set_register_count_witness :
  reachable s_two
  ∧ set_register 101 s_two 15 3 4 = Ok (true, s_three)
  ∧ ∃ (n : nat) found,
      get_register_count s_two = Ok (Z.of_nat n)
      ∧ (∀ fuel', DWARF_CFA_STACK_MAX_REGISTERS < fuel' →
           get_register_rule fuel' s_two 15 = Ok found)
      ∧ get_register_count s_three
        = Ok (Z.of_nat (match found with Some _ => n | None => n + 1 end))
      ∧ match found with Some _ => n | None => n + 1 end ≤ DWARF_CFA_STACK_MAX_REGISTERS.
Proof.
  assert (set_register 101 s_two 15 3 4 = Ok (true, s_three)) as Hset.
  { vm_compute. reflexivity. }
  split_and!; [exact s_two_reachable|exact Hset|].
  exact (set_register_count plcrash_config_valid s_two 15 3 4 101 s_three
           s_two_reachable Hset).
Defined.

Lemma register_count_is_number_of_rules_witness :
  reachable s_three
  ∧ ∃ L : list (Z * Z * Z),
      get_register_count s_three = Ok (Z.of_nat (length L))
      ∧ length L ≤ DWARF_CFA_STACK_MAX_REGISTERS
      ∧ NoDup (spec_regnum <$> L)
      ∧ (∀ r, r ∈ spec_regnum <$> L ↔
           ∃ x, ∀ fuel, DWARF_CFA_STACK_MAX_REGISTERS < fuel →
             get_register_rule fuel s_three r = Ok (Some x))
      ∧ (∀ k, ∃ it,
           iterate (length L + k) s_three dwarf_cfa_stack_iterator_new
           = Ok ((Some <$> L) ++ replicate k None, it))
      ∧ (0 ≤ live_count s_three ≤ Z.of_nat DWARF_CFA_STACK_MAX_REGISTERS)%Z.
Proof.
  split; [exact s_three_reachable|].
  exact (register_count_is_number_of_rules plcrash_config_valid s_three s_three_reachable).
Defined.

Lemma remove_register_absent_is_noop_witness :
  reachable s_three
  ∧ get_register_rule 101 s_three 29 = Ok None
  ∧ ∀ fuel, DWARF_CFA_STACK_MAX_REGISTERS < fuel →
      remove_register fuel s_three 29 = Ok s_three.
Proof.
  assert (get_register_rule 101 s_three 29 = Ok None) as Hget.
  { vm_compute. reflexivity. }
  split_and!; [exact s_three_reachable|exact Hget|].
  exact (remove_register_absent_is_noop plcrash_config_valid s_three 29 101
           s_three_reachable Hget).
Defined.

(** No record on the free list of [s_three] carries the number 1. *)
Lemma s_three_no_stale F k :
  chain (_entries s_three) (_free_list s_three) F → k ∈ F →
  ¬ reg_at (_entries s_three) k 1.
Proof.
  intros HF Hk (e & He & Hr).
  rewrite (walk_unique 101 (_entries s_three) (_free_list s_three) (seq 3 97) F) in Hk;
    [|by vm_compute|done].
  apply elem_of_seq in Hk.
  assert (Forall (λ e, regnum e ≠ 1%Z) (drop 3 (_entries s_three))) as Hall.
  { apply (bool_decide_unpack _). by vm_compute. }
  apply (Forall_lookup_1 _ _ (k - 3) e Hall); [|done].
  rewrite lookup_drop. by replace (3 + (k - 3)) with k by lia.
Qed.

Lemma remove_register_removes_witness :
  reachable s_three
  ∧ get_register_rule 101 s_three 1 = Ok (Some (1, -8)%Z)
  ∧ (∀ F k, chain (_entries s_three) (_free_list s_three) F → k ∈ F →
       ¬ reg_at (_entries s_three) k 1)
  ∧ ∃ s1 (n : nat) i F,
      (∀ fuel, DWARF_CFA_STACK_MAX_REGISTERS < fuel →
         remove_register fuel s_three 1 = Ok s1)
      ∧ (∀ fuel, DWARF_CFA_STACK_MAX_REGISTERS < fuel →
           get_register_rule fuel s1 1 = Ok None)
      ∧ (∀ r', r' ≠ 1%Z → ∃ found, ∀ fuel, DWARF_CFA_STACK_MAX_REGISTERS < fuel →
           get_register_rule fuel s_three r' = Ok found
           ∧ get_register_rule fuel s1 r' = Ok found)
      ∧ get_register_count s_three = Ok (Z.of_nat (S n))
      ∧ get_register_count s1 = Ok (Z.of_nat n)
      ∧ _table_depth s1 = _table_depth s_three
      ∧ chain (_entries s_three) (_free_list s_three) F
      ∧ chain (_entries s1) (_free_list s1) (i :: F)
      ∧ reg_at (_entries s_three) i 1.
Proof.
  assert (get_register_rule 101 s_three 1 = Ok (Some (1, -8)%Z)) as Hget.
  { vm_compute. reflexivity. }
  split_and!; [exact s_three_reachable|exact Hget|exact s_three_no_stale|].
  exact (remove_register_removes plcrash_config_valid s_three 1 (1, -8)%Z 101
           s_three_reachable Hget s_three_no_stale).
Defined.

Lemma remove_register_returns_iff_witness :
  reachable s_stale
  ∧ let safe :=
      (∃ fuel, get_register_rule fuel s_stale 1 = Ok None)
      ∨ (∀ F k, chain (_entries s_stale) (_free_list s_stale) F → k ∈ F →
           ¬ reg_at (_entries s_stale) k 1) in
    ((∃ s', ∀ fuel, DWARF_CFA_STACK_MAX_REGISTERS < fuel →
        remove_register fuel s_stale 1 = Ok s') ↔ safe)
    ∧ ((∃ fuel s', remove_register fuel s_stale 1 = Ok s') ↔ safe)
    ∧ ((∀ fuel, remove_register fuel s_stale 1 = OutOfFuel) ↔ ¬ safe).
Proof.
  split; [exact s_stale_reachable|].
  exact (remove_register_returns_iff plcrash_config_valid s_stale 1 s_stale_reachable).
Defined.

Lemma push_state_shows_no_rules_witness :
  reachable s_two
  ∧ push_state s_two = Ok (true, s_pushed)
  ∧ (∀ r fuel, DWARF_CFA_STACK_MAX_REGISTERS < fuel →
       get_register_rule fuel s_pushed r = Ok None)
  ∧ (∀ k, ∃ it, iterate k s_pushed dwarf_cfa_stack_iterator_new
                = Ok (replicate k None, it)).
Proof.
  assert (push_state s_two = Ok (true, s_pushed)) as Hpush.
  { vm_compute. reflexivity. }
  split_and!; [exact s_two_reachable|exact Hpush|..];
    apply (push_state_shows_no_rules plcrash_config_valid s_two s_pushed
             s_two_reachable Hpush).
Defined.

Lemma free_and_live_entries_never_grow_witness :
  reachable s_inner
  ∧ perform 101 Pop_state s_inner = Ok (true, s_restored)
  ∧ chain (_entries s_inner) (_free_list s_inner) (seq 3 97)
  ∧ chain (_entries s_restored) (_free_list s_restored) (seq 3 97)
  ∧ ∃ n : nat,
      get_register_count s_inner = Ok (Z.of_nat n)
      ∧ (Z.of_nat (length (seq 3 97)) + live_count s_inner
         ≤ Z.of_nat DWARF_CFA_STACK_MAX_REGISTERS)%Z
      ∧ (Z.of_nat (length (seq 3 97)) + live_count s_restored
         = Z.of_nat (length (seq 3 97)) + live_count s_inner - Z.of_nat n)%Z.
Proof.
  assert (perform 101 Pop_state s_inner = Ok (true, s_restored)) as Hpop.
  { vm_compute. reflexivity. }
  assert (chain (_entries s_inner) (_free_list s_inner) (seq 3 97)) as HF.
  { apply (walk_chain 101). vm_compute. reflexivity. }
  assert (chain (_entries s_restored) (_free_list s_restored) (seq 3 97)) as HF'.
  { apply (walk_chain 101). vm_compute. reflexivity. }
  split_and!; [exact s_inner_reachable|exact Hpop|exact HF|exact HF'|].
  exact (free_and_live_entries_never_grow plcrash_config_valid s_inner 101 Pop_state true
           s_restored (seq 3 97) (seq 3 97) s_inner_reachable Hpop HF HF').
Defined.

Lemma remove_register_reads_unwritten_regnum_witness :
  storage blank_storage
  ∧ reg_at (_entries blank_storage) 1 0
  ∧ ∃ s s1,
      dwarf_cfa_stack_new blank_storage = Ok s
      ∧ (∀ fuel, DWARF_CFA_STACK_MAX_REGISTERS < fuel →
           set_register fuel s 0 1 0 = Ok (true, s1))
      ∧ ∀ fuel, remove_register fuel s1 0 = OutOfFuel.
Proof.
  assert (reg_at (_entries blank_storage) 1 0) as Hreg.
  { eexists. split; [vm_compute; reflexivity|reflexivity]. }
  split_and!; [exact blank_storage_ok|exact Hreg|].
  apply (remove_register_reads_unwritten_regnum plcrash_config_valid blank_storage 1 0 1 0
           blank_storage_ok); [lia|exact Hreg|lia].
Defined.

Lemma set_register_succeeds_while_free_witness :
  reachable s_two
  ∧ chain (_entries s_two) (_free_list s_two) (seq 2 98)
  ∧ get_register_rule 101 s_two 15 = Ok None
  ∧ get_register_rule 101 s_two 7 = Ok None
  ∧ ∃ s' (n : nat),
      (∀ fuel, DWARF_CFA_STACK_MAX_REGISTERS < fuel →
         run_results fuel (set_op <$> [(15, 3, 4); (7, 1, 0)]%Z) s_two
         = Ok (replicate 2 true, s'))
      ∧ get_register_count s_two = Ok (Z.of_nat n)
      ∧ get_register_count s' = Ok (Z.of_nat (n + 2))
      ∧ (∀ x fuel, x ∈ [(15, 3, 4); (7, 1, 0)]%Z → DWARF_CFA_STACK_MAX_REGISTERS < fuel →
           get_register_rule fuel s' (spec_regnum x) = Ok (Some (x.1.2, x.2)))
      ∧ (∀ r, r ∉ spec_regnum <$> [(15, 3, 4); (7, 1, 0)]%Z →
           ∃ found, ∀ fuel, DWARF_CFA_STACK_MAX_REGISTERS < fuel →
             get_register_rule fuel s_two r = Ok found
             ∧ get_register_rule fuel s' r = Ok found)
      ∧ chain (_entries s') (_free_list s') (drop 2 (seq 2 98)).
Proof.
  assert (chain (_entries s_two) (_free_list s_two) (seq 2 98)) as HF.
  { apply (walk_chain 101). vm_compute. reflexivity. }
  assert (get_register_rule 101 s_two 15 = Ok None) as H15.
  { vm_compute. reflexivity. }
  assert (get_register_rule 101 s_two 7 = Ok None) as H7.
  { vm_compute. reflexivity. }
  split_and!; [exact s_two_reachable|exact HF|exact H15|exact H7|].
  apply (set_register_succeeds_while_free plcrash_config_valid s_two (seq 2 98)
           [(15, 3, 4); (7, 1, 0)]%Z s_two_reachable HF).
  - apply (bool_decide_unpack _). vm_compute. exact I.
  - intros x Hx. apply elem_of_cons in Hx as [->|Hx].
    { split; [exists 101; exact H15|vm_compute; by split]. }
    apply elem_of_cons in Hx as [->|Hx].
    { split; [exists 101; exact H7|vm_compute; by split]. }
    destruct (not_elem_of_nil _ Hx).
  - clear. rewrite length_seq. cbn [length]. lia.
Defined.

Lemma new_stack_holds_max_registers_witness :
  storage blank_storage
  ∧ NoDup (spec_regnum <$> rules_hundred)
  ∧ length rules_hundred = DWARF_CFA_STACK_MAX_REGISTERS
  ∧ ∃ s0 s',
      dwarf_cfa_stack_new blank_storage = Ok s0
      ∧ (∀ fuel, DWARF_CFA_STACK_MAX_REGISTERS < fuel →
           run_results fuel (set_op <$> rules_hundred) s0
           = Ok (replicate DWARF_CFA_STACK_MAX_REGISTERS true, s'))
      ∧ get_register_count s' = Ok (Z.of_nat DWARF_CFA_STACK_MAX_REGISTERS)
      ∧ (∀ x fuel, x ∈ rules_hundred → DWARF_CFA_STACK_MAX_REGISTERS < fuel →
           get_register_rule fuel s' (spec_regnum x) = Ok (Some (x.1.2, x.2)))
      ∧ (∀ r rl v fuel, r ∉ spec_regnum <$> rules_hundred → (rl ≤ 255)%Z →
           DWARF_CFA_STACK_MAX_REGISTERS < fuel →
           set_register fuel s' r rl v = Ok (false, s')).
Proof.
  assert (NoDup (spec_regnum <$> rules_hundred)) as Hnd.
  { apply (bool_decide_unpack _). vm_compute. exact I. }
  assert (length rules_hundred = DWARF_CFA_STACK_MAX_REGISTERS) as Hlen.
  { vm_compute. reflexivity. }
  split_and!; [exact blank_storage_ok|exact Hnd|exact Hlen|].
  apply (new_stack_holds_max_registers plcrash_config_valid blank_storage rules_hundred
           blank_storage_ok Hnd); [|exact Hlen].
  apply Forall_forall. apply (bool_decide_unpack _). vm_compute. exact I.
Defined.

Lemma results_do_not_depend_on_storage_witness :
  storage blank_storage ∧ storage dirty_storage
  ∧ dwarf_cfa_stack_new blank_storage = Ok s_zero
  ∧ dwarf_cfa_stack_new dirty_storage = Ok s_dirty
  ∧ run_results 101 ops_mixed s_zero = Ok r_blank
  ∧ run_results 101 ops_mixed s_dirty = Ok r_dirty
  ∧ r_blank.1 = r_dirty.1
  ∧ _table_depth r_blank.2 = _table_depth r_dirty.2
  ∧ get_register_count r_blank.2 = get_register_count r_dirty.2
  ∧ (∀ r, ∃ found, ∀ fuel, DWARF_CFA_STACK_MAX_REGISTERS < fuel →
       get_register_rule fuel r_blank.2 r = Ok found
       ∧ get_register_rule fuel r_dirty.2 r = Ok found)
  ∧ ∃ L : list (Z * Z * Z), ∀ k, ∃ it1 it2,
      iterate (length L + k) r_blank.2 dwarf_cfa_stack_iterator_new
      = Ok ((Some <$> L) ++ replicate k None, it1)
      ∧ iterate (length L + k) r_dirty.2 dwarf_cfa_stack_iterator_new
        = Ok ((Some <$> L) ++ replicate k None, it2).
Proof.
  assert (storage dirty_storage) as Hmem.
  { unfold storage. vm_compute. repeat constructor. }
  assert (dwarf_cfa_stack_new blank_storage = Ok s_zero) as Hnew1.
  { vm_compute. reflexivity. }
  assert (dwarf_cfa_stack_new dirty_storage = Ok s_dirty) as Hnew2.
  { vm_compute. reflexivity. }
  assert (run_results 101 ops_mixed s_zero = Ok (r_blank.1, r_blank.2)) as Hrun1.
  { vm_compute. reflexivity. }
  assert (run_results 101 ops_mixed s_dirty = Ok (r_dirty.1, r_dirty.2)) as Hrun2.
  { vm_compute. reflexivity. }
  split; [exact blank_storage_ok|]. split; [exact Hmem|].
  split; [exact Hnew1|]. split; [exact Hnew2|].
  split; [vm_compute; reflexivity|]. split; [vm_compute; reflexivity|].
  exact (results_do_not_depend_on_storage plcrash_config_valid
           blank_storage dirty_storage ops_mixed 101 101 s_zero s_dirty
           r_blank.1 r_dirty.1 r_blank.2 r_dirty.2
           blank_storage_ok Hmem Hnew1 Hnew2 Hrun1 Hrun2).
Defined.

Lemma records_from (es : list dwarf_cfa_reg_entry) n r k :
  Forall (λ e, regnum e ≠ r) (drop n es) → n ≤ k → ¬ reg_at es k r.
Proof.
  intros Hall Hk (e & He & Hr).
  apply (Forall_lookup_1 _ _ (k - n) e Hall); [|done].
  rewrite lookup_drop. by replace (n + (k - n)) with k by lia.
Qed.

Lemma s_recycled_reachable : reachable s_recycled.
Proof.
  apply (scenario_reachable
           [Set_register 1 1 0; Set_register 2 1 0; Remove_register 1; Remove_register 2]).
  vm_compute. reflexivity.
Qed.

Lemma set_then_remove_round_trip_witness :
  reachable s_recycled
  ∧ get_register_rule 101 s_recycled 2 = Ok None
  ∧ chain (_entries s_recycled) (_free_list s_recycled) (1 :: 0 :: seq 2 98)
  ∧ reg_at (_entries s_recycled) 1 2
  ∧ (∀ k, k ∈ 0 :: seq 2 98 → ¬ reg_at (_entries s_recycled) k 2)
  ∧ ∃ s1 s2 (L : list (Z * Z * Z)),
      (∀ fuel, DWARF_CFA_STACK_MAX_REGISTERS < fuel →
         set_register fuel s_recycled 2 3 4 = Ok (true, s1))
      ∧ (∀ fuel, DWARF_CFA_STACK_MAX_REGISTERS < fuel → remove_register fuel s1 2 = Ok s2)
      ∧ _table_depth s2 = _table_depth s_recycled
      ∧ get_register_count s2 = get_register_count s_recycled
      ∧ (∀ r', ∃ found, ∀ fuel, DWARF_CFA_STACK_MAX_REGISTERS < fuel →
           get_register_rule fuel s_recycled r' = Ok found
           ∧ get_register_rule fuel s2 r' = Ok found)
      ∧ (∀ k, ∃ it it2,
           iterate (length L + k) s_recycled dwarf_cfa_stack_iterator_new
           = Ok ((Some <$> L) ++ replicate k None, it)
           ∧ iterate (length L + k) s2 dwarf_cfa_stack_iterator_new
             = Ok ((Some <$> L) ++ replicate k None, it2))
      ∧ chain (_entries s2) (_free_list s2) (1 :: 0 :: seq 2 98)
      ∧ (∀ k, k ∈ 0 :: seq 2 98 → ¬ reg_at (_entries s2) k 2).
Proof.
  assert (get_register_rule 101 s_recycled 2 = Ok None) as Hget.
  { vm_compute. reflexivity. }
  assert (chain (_entries s_recycled) (_free_list s_recycled) (1 :: 0 :: seq 2 98)) as HF.
  { apply (walk_chain 101). vm_compute. reflexivity. }
  assert (reg_at (_entries s_recycled) 1 2) as Hhead.
  { eexists. split; [vm_compute; reflexivity|reflexivity]. }
  assert (∀ k, k ∈ 0 :: seq 2 98 → ¬ reg_at (_entries s_recycled) k 2) as Hclean.
  { intros k Hk. apply elem_of_cons in Hk as [->|Hk].
    - intros (e & He & Hr). vm_compute in He. injection He as <-. discriminate Hr.
    - apply elem_of_seq in Hk. apply (records_from _ 2); [|lia].
      apply (bool_decide_unpack _). vm_compute. exact I. }
  split_and!; [exact s_recycled_reachable|exact Hget|exact HF|exact Hhead|exact Hclean|].
  apply (set_then_remove_round_trip plcrash_config_valid s_recycled 2 3 4 1
           (0 :: seq 2 98) 101 s_recycled_reachable); [clear; lia|exact Hget|exact HF|exact Hclean].
Defined.

Lemma remove_remove_set_remove_hangs_witness :
  reachable s_two
  ∧ get_register_rule 101 s_two 1 = Ok (Some (1, -8)%Z)
  ∧ get_register_rule 101 s_two 2 = Ok (Some (2, 0)%Z)
  ∧ (∀ F k, chain (_entries s_two) (_free_list s_two) F → k ∈ F →
       ¬ reg_at (_entries s_two) k 1 ∧ ¬ reg_at (_entries s_two) k 2)
  ∧ ∃ s1 s2 s3,
      (∀ fuel, DWARF_CFA_STACK_MAX_REGISTERS < fuel → remove_register fuel s_two 1 = Ok s1)
      ∧ (∀ fuel, DWARF_CFA_STACK_MAX_REGISTERS < fuel → remove_register fuel s1 2 = Ok s2)
      ∧ (∀ fuel, DWARF_CFA_STACK_MAX_REGISTERS < fuel →
           set_register fuel s2 1 1 0 = Ok (true, s3))
      ∧ ∀ fuel, remove_register fuel s3 1 = OutOfFuel.
Proof.
  assert (get_register_rule 101 s_two 1 = Ok (Some (1, -8)%Z)) as Hget1.
  { vm_compute. reflexivity. }
  assert (get_register_rule 101 s_two 2 = Ok (Some (2, 0)%Z)) as Hget2.
  { vm_compute. reflexivity. }
  assert (∀ F k, chain (_entries s_two) (_free_list s_two) F → k ∈ F →
            ¬ reg_at (_entries s_two) k 1 ∧ ¬ reg_at (_entries s_two) k 2) as Hclean.
  { intros F k HF Hk.
    rewrite (walk_unique 101 (_entries s_two) (_free_list s_two) (seq 2 98) F) in Hk;
      [|by vm_compute|done].
    apply elem_of_seq in Hk. split.
    - apply (records_from _ 2); [|lia]. apply (bool_decide_unpack _). vm_compute. exact I.
    - apply (records_from _ 2); [|lia]. apply (bool_decide_unpack _). vm_compute. exact I. }
  split_and!; [exact s_two_reachable|exact Hget1|exact Hget2|exact Hclean|].
  apply (remove_remove_set_remove_hangs plcrash_config_valid s_two 1 2 (1, -8)%Z (2, 0)%Z
           1 0 101 101 s_two_reachable); [clear; lia|clear; lia|exact Hget1|exact Hget2|exact Hclean].
Defined.

Lemma popped_level_keeps_its_entries_witness :
  storage blank_storage
  ∧ NoDup (spec_regnum <$> rules_hundred)
  ∧ length rules_hundred = DWARF_CFA_STACK_MAX_REGISTERS
  ∧ ∃ s0 s1 s2 s3,
      dwarf_cfa_stack_new blank_storage = Ok s0
      ∧ push_state s0 = Ok (true, s1)
      ∧ (∀ fuel, DWARF_CFA_STACK_MAX_REGISTERS < fuel →
           run_results fuel (set_op <$> rules_hundred) s1
           = Ok (replicate DWARF_CFA_STACK_MAX_REGISTERS true, s2))
      ∧ pop_state s2 = Ok (true, s3)
      ∧ _table_depth s3 = 0
      ∧ get_register_count s3 = Ok 0%Z
      ∧ (∀ r fuel, DWARF_CFA_STACK_MAX_REGISTERS < fuel →
           get_register_rule fuel s3 r = Ok None)
      ∧ (∀ r rl v fuel, (rl ≤ 255)%Z → DWARF_CFA_STACK_MAX_REGISTERS < fuel →
           set_register fuel s3 r rl v = Ok (false, s3)).
Proof.
  assert (NoDup (spec_regnum <$> rules_hundred)) as Hnd.
  { apply (bool_decide_unpack _). vm_compute. exact I. }
  assert (length rules_hundred = DWARF_CFA_STACK_MAX_REGISTERS) as Hlen.
  { vm_compute. reflexivity. }
  split_and!; [exact blank_storage_ok|exact Hnd|exact Hlen|].
  apply (popped_level_keeps_its_entries plcrash_config_valid blank_storage rules_hundred
           blank_storage_ok); [clear; simpl; lia|exact Hnd| |exact Hlen].
  apply Forall_forall. apply (bool_decide_unpack _). vm_compute. exact I.
Defined.

End ConcreteRuns.
